(** * Minimal JSON support for Arduino: a shallow embedding of JSON.cpp

    The development follows the layout of the source file: the node pool,
    the value nodes with their bit-packed tag, the typed accessors, the
    lexer, the recursive-descent parser and the printer.  Stateful code is
    written with explicit state passing; pointers into the node pool are
    slot indices, pointers into the input are byte offsets from the start
    of the caller's buffer. *)

From Stdlib Require Import ZArith Lia Bool String.
From stdpp Require Import base list relations.

Local Open Scope Z_scope.

(** ** Machine integers *)

(** [unsigned int] and [int] are taken to be 32 bits wide (the ordered
    map's key is a 32-bit signed integer). *)
Definition UINT_BITS : Z := 32.
Definition UINT_MAX : Z := 2 ^ UINT_BITS - 1.
Definition INT_MAX : Z := 2 ^ (UINT_BITS - 1) - 1.
Definition INT_MIN : Z := - 2 ^ (UINT_BITS - 1).

(** Conversion of a mathematical integer to [unsigned int]. *)
Definition to_uint (z : Z) : Z := z mod 2 ^ UINT_BITS.

(** Conversion to [int] (two's complement, the behaviour of the
    compilers the sketch is built with). *)
Definition to_int (z : Z) : Z :=
  (z + 2 ^ (UINT_BITS - 1)) mod 2 ^ UINT_BITS - 2 ^ (UINT_BITS - 1).

(** ** Character classes of ctype.h ("C" locale) *)

Definition isspace (c : Z) : bool :=
  (c =? 32) || ((9 <=? c) && (c <=? 13)).

Definition isdigit (c : Z) : bool := (48 <=? c) && (c <=? 57).

(** ** What the host supplies

    The C library's [sscanf], the [float] type and the symbol table
    (HashTable.h) are not part of JSON.cpp; the embedding is parametric in
    them.  A text handed to [sscanf] is the memory from the given address
    onwards, as a function from offsets to bytes; [None] is a matching
    failure, which leaves the destination untouched. *)
Class Host := {
  float : Type;
  float_zero : float;
  sscanf_f : (Z -> Z) -> option float;
  sscanf_d : (Z -> Z) -> option Z;
  sscanf_u : (Z -> Z) -> option Z;
  HashTable : Type;
  (* get_symbol(name, length, &symcount): the symbol, and the updated
     table and counter *)
  get_symbol : HashTable -> list Z -> Z -> Z * (HashTable * Z);
  JSON_SYMBOL_BASE : Z
}.

(** ** Tokens *)

Inductive Json_Token :=
| Error_token | String_token | Colon_token | Comma_token
| Object_start_token | Object_stop_token | Array_start_token | Array_stop_token
| Float_token | Unsigned_token | Signed_token | Null_token | True_token
| False_token.

Definition Json_Token_eqb (a b : Json_Token) : bool :=
  match a, b with
  | Error_token, Error_token | String_token, String_token
  | Colon_token, Colon_token | Comma_token, Comma_token
  | Object_start_token, Object_start_token
  | Object_stop_token, Object_stop_token
  | Array_start_token, Array_start_token
  | Array_stop_token, Array_stop_token
  | Float_token, Float_token | Unsigned_token, Unsigned_token
  | Signed_token, Signed_token | Null_token, Null_token
  | True_token, True_token | False_token, False_token => true
  | _, _ => false
  end.

(** ** The lexer *)

Module Lexer.
Section WithHost.
Context `{Host}.

(** The bytes of memory, by offset from the address the caller passed
    as [src]: offsets [0 .. L-1] are the caller's buffer, larger ones
    whatever lies behind it. *)
Variable mem : Z -> Z.

(** The fields of [class Lexer], and a ghost field [reads]: the offsets
    the lexer's own code has dereferenced, most recent first (reads made
    inside [sscanf] are not recorded). *)
Record t := mk {
  table : HashTable;
  symcount : Z;
  src : Z;
  length : Z;
  token_src : Z;
  token_len : Z;
  unsigned_num : Z;
  signed_num : Z;
  float_num : float;
  reads : list Z
}.

Definition set_table (x : HashTable) (l : t) : t :=
  mk x (symcount l) (src l) (length l) (token_src l) (token_len l)
     (unsigned_num l) (signed_num l) (float_num l) (reads l).
Definition set_src (x : Z) (l : t) : t :=
  mk (table l) (symcount l) x (length l) (token_src l) (token_len l)
     (unsigned_num l) (signed_num l) (float_num l) (reads l).
Definition set_length (x : Z) (l : t) : t :=
  mk (table l) (symcount l) (src l) x (token_src l) (token_len l)
     (unsigned_num l) (signed_num l) (float_num l) (reads l).
Definition set_token_src (x : Z) (l : t) : t :=
  mk (table l) (symcount l) (src l) (length l) x (token_len l)
     (unsigned_num l) (signed_num l) (float_num l) (reads l).
Definition set_token_len (x : Z) (l : t) : t :=
  mk (table l) (symcount l) (src l) (length l) (token_src l) x
     (unsigned_num l) (signed_num l) (float_num l) (reads l).
Definition set_unsigned_num (x : Z) (l : t) : t :=
  mk (table l) (symcount l) (src l) (length l) (token_src l) (token_len l)
     x (signed_num l) (float_num l) (reads l).
Definition set_signed_num (x : Z) (l : t) : t :=
  mk (table l) (symcount l) (src l) (length l) (token_src l) (token_len l)
     (unsigned_num l) x (float_num l) (reads l).
Definition set_float_num (x : float) (l : t) : t :=
  mk (table l) (symcount l) (src l) (length l) (token_src l) (token_len l)
     (unsigned_num l) (signed_num l) x (reads l).
Definition set_reads (x : list Z) (l : t) : t :=
  mk (table l) (symcount l) (src l) (length l) (token_src l) (token_len l)
     (unsigned_num l) (signed_num l) (float_num l) x.

(** [src[i]]: the byte at offset [src + i], recorded in [reads]. *)
Definition deref (i : Z) (l : t) : Z * t :=
  (mem (src l + i), set_reads ((src l + i) :: reads l) l).

(** void next_byte() *)
Definition next_byte (l : t) : t :=
  if 0 <? length l
  then set_src (src l + 1) (set_length (length l - 1) l)
  else l.

(** unsigned int peek_byte() *)
Definition peek_byte (l : t) : Z * t :=
  if 0 <? length l then deref 0 l else (256, l).

(** [while (isspace(c)) { next_byte(); c = peek_byte(); }]; every turn
    of the loop lowers [length], which bounds the number of turns. *)
Fixpoint while_isspace (n : nat) (c : Z) (l : t) : Z * t :=
  if isspace c then
    match n with
    | O => (c, l)
    | S n' => let (c', l') := peek_byte (next_byte l) in
              while_isspace n' c' l'
    end
  else (c, l).

(** boolean end_of_array() *)
Definition end_of_array (l : t) : bool * t :=
  let (c, l1) := peek_byte l in
  let (c, l2) := while_isspace (Z.to_nat (length l1)) c l1 in
  if c =? 93 then (true, l2) else (false, l2).

(** [while (isdigit(c)) { ++count; next_byte(); c = peek_byte(); }] *)
Fixpoint while_isdigit (n : nat) (count : Z) (c : Z) (l : t) : Z * Z * t :=
  if isdigit c then
    match n with
    | O => (count, c, l)
    | S n' => let (c', l') := peek_byte (next_byte l) in
              while_isdigit n' (count + 1) c' l'
    end
  else (count, c, l).

(** [next_byte(); c = peek_byte();] *)
Definition advance (l : t) : Z * t := peek_byte (next_byte l).

(** The text [sscanf] is given: the memory from [token_src] on.  The
    call passes the pointer alone, so the text is not cut at the end of
    the input, [src + length]. *)
Definition text_at (p : Z) : Z -> Z := fun i => mem (p + i).

(** The end of get_number, from [if (! (d|e))] on.  What [sscanf] reads
    of its text is the host's business: those offsets are not entered in
    [reads], and nothing here keeps them inside the input. *)
Definition get_number_result (negative real : bool) (d e : Z) (l : t)
  : Json_Token * t :=
  if Z.lor d e =? 0 then (Error_token, l)
  else if real then
    (Float_token,
     match sscanf_f (text_at (token_src l)) with
     | Some x => set_float_num x l
     | None => l
     end)
  else if negative then
    (Signed_token,
     match sscanf_d (text_at (token_src l)) with
     | Some x => set_signed_num x l
     | None => l
     end)
  else
    (Unsigned_token,
     match sscanf_u (text_at (token_src l)) with
     | Some x => set_unsigned_num x l
     | None => l
     end).

(** Json_Token get_number(unsigned int c) *)
Definition get_number (c : Z) (l : t) : Json_Token * t :=
  let l := set_token_len 0 (set_token_src (src l) l) in
  let negative := c =? 45 in
  let (c, l) := if c =? 45 then advance l else (c, l) in
  let real := c =? 46 in
  let (c, l) := if c =? 46 then advance l else (c, l) in
  let '(d, c, l) := while_isdigit (Z.to_nat (length l)) 0 c l in
  let real := real || (c =? 46) in
  let (c, l) := if c =? 46 then advance l else (c, l) in
  let '(d, c, l) := while_isdigit (Z.to_nat (length l)) d c l in
  if (c =? 101) || (c =? 69) then
    if d =? 0 then (Error_token, l)
    else
      let (c, l) := advance l in
      let (c, l) := if c =? 45 then advance l else (c, l) in
      let '(e, c, l) := while_isdigit (Z.to_nat (length l)) 0 c l in
      get_number_result negative true d e l
  else
    let (c, l) := if c =? 45 then advance l else (c, l) in
    let '(e, c, l) := while_isdigit (Z.to_nat (length l)) 0 c l in
    get_number_result negative real d e l.

(** [src[i] == ch] *)
Definition byte_is (i ch : Z) (l : t) : bool * t :=
  let (b, l') := deref i l in (b =? ch, l').

(** [length >= n && src[1] == c1 && src[2] == c2 && ...], evaluated
    left to right, stopping at the first conjunct that is false. *)
Fixpoint rest_is (i : Z) (chars : list Z) (l : t) : bool * t :=
  match chars with
  | [] => (true, l)
  | ch :: chars' =>
      let (b, l') := byte_is i ch l in
      if b then rest_is (i + 1) chars' l' else (false, l')
  end.

Definition keyword (n : Z) (chars : list Z) (tok : Json_Token) (l : t)
  : Json_Token * t :=
  if n <=? length l then
    let (b, l') := rest_is 1 chars l in
    if b then
      (* src += n; length += n; *)
      (tok, set_length (to_uint (length l' + n)) (set_src (src l' + n) l'))
    else (Error_token, l')
  else (Error_token, l).

(** Json_Token get_special(unsigned int c): null, true or false *)
Definition get_special (c : Z) (l : t) : Json_Token * t :=
  if c =? 110 then keyword 4 [117; 108; 108] Null_token l
  else if c =? 116 then keyword 4 [114; 117; 101] True_token l
  else if c =? 102 then keyword 5 [97; 108; 115; 101] False_token l
  else (Error_token, l).

(** The loop of get_string:
    [while (length > 0) { --length; if ( *src++ == QUOTE) return
    String_token; ++token_len; }] *)
Fixpoint get_string_loop (n : nat) (l : t) : Json_Token * t :=
  match n with
  | O => (Error_token, l)
  | S n' =>
      if 0 <? length l then
        let (b, l1) := deref 0 (set_length (length l - 1) l) in
        let l2 := set_src (src l1 + 1) l1 in
        if b =? 34 then (String_token, l2)
        else get_string_loop n' (set_token_len (token_len l2 + 1) l2)
      else (Error_token, l)
  end.

(** Json_Token get_string() *)
Definition get_string (l : t) : Json_Token * t :=
  let l := next_byte l in
  let l := set_token_len 0 (set_token_src (src l) l) in
  get_string_loop (Z.to_nat (length l)) l.

(** Json_Token get_token() *)
Definition get_token (l : t) : Json_Token * t :=
  let (c, l) := peek_byte l in
  let (c, l) := while_isspace (Z.to_nat (length l)) c l in
  if c =? 58 then (Colon_token, next_byte l)
  else if c =? 44 then (Comma_token, next_byte l)
  else if c =? 123 then (Object_start_token, next_byte l)
  else if c =? 125 then (Object_stop_token, next_byte l)
  else if c =? 91 then (Array_start_token, next_byte l)
  else if c =? 93 then (Array_stop_token, next_byte l)
  else if c =? 34 then get_string l
  else if (c =? 45) || (c =? 46) || isdigit c then get_number c l
  else get_special c l.

End WithHost.
End Lexer.

(** ** Outcomes

    A call either completes, or does something the language leaves
    undefined (a method call through a null pointer, a union member read
    under the wrong tag, a slot outside the pool), or the recursion bound
    of the embedding was too small. *)
Inductive result (A : Type) :=
| Done (a : A)
| Undefined
| Timeout.
Arguments Done {A} a.
Arguments Undefined {A}.
Arguments Timeout {A}.

#[global] Instance result_ret : MRet result := fun A a => Done a.
#[global] Instance result_bind : MBind result := fun A B f r =>
  match r with
  | Done a => f a
  | Undefined => Undefined
  | Timeout => Timeout
  end.

(** [JSON *]: null, or the address of a slot of the node pool. *)
Definition ptr := option nat.
Definition null : ptr := None.

Definition ptr_eqb (a b : ptr) : bool :=
  match a, b with
  | Some i, Some j => Nat.eqb i j
  | None, None => true
  | _, _ => false
  end.

(** ** The ordered map *)

Module AvlNode.

Definition AvlKey := Z.
Definition AvlValue := ptr.

(** Modelled from the spec: AvlNode.h and AvlNode.cpp are missing; the
    spec describes a balanced tree keyed by a signed integer with unique
    keys, insertion, exact-key lookup, a largest-key query and a
    traversal in ascending key order.  A tree is represented by its
    entries in ascending key order, the null tree by the empty list;
    inserting under a key already present replaces the stored value. *)
Definition tree := list (AvlKey * AvlValue).

Fixpoint insert_key (t : tree) (key : AvlKey) (value : AvlValue) : tree :=
  match t with
  | [] => [(key, value)]
  | (k, v) :: t' =>
      if key <? k then (key, value) :: (k, v) :: t'
      else if key =? k then (key, value) :: t'
      else (k, v) :: insert_key t' key value
  end.

(** Modelled from the spec: find(map, key), null when the key is absent. *)
Fixpoint find_key (t : tree) (key : AvlKey) : AvlValue :=
  match t with
  | [] => null
  | (k, v) :: t' => if key =? k then v else find_key t' key
  end.

(** Modelled from the spec: max_entry(map), the entry of the largest key. *)
Definition last (t : tree) : option (AvlKey * AvlValue) := List.last (map Some t) None.

(** Modelled from the spec: for_each_ascending(map, visitor, context);
    the visitor acts on an accumulated state [S] and may fail. *)
Fixpoint apply {S : Type} (t : tree)
    (fn : AvlKey -> AvlValue -> ptr -> S -> result S) (context : ptr) (s : S)
  : result S :=
  match t with
  | [] => Done s
  | (k, v) :: t' => s' ← fn k v context s; apply t' fn context s'
  end.

End AvlNode.

(** ** Value nodes *)

(** enum Json_Tag.  JSON.h lists eight enumerators; JSON.cpp also uses
    [Unused_t], placed here after them. *)
Inductive Json_Tag :=
| Object_t | Array_t | String_t | Unsigned_t | Signed_t | Float_t
| Boolean_t | Null_t | Unused_t.

Definition tag_code (g : Json_Tag) : Z :=
  match g with
  | Object_t => 0 | Array_t => 1 | String_t => 2 | Unsigned_t => 3
  | Signed_t => 4 | Float_t => 5 | Boolean_t => 6 | Null_t => 7
  | Unused_t => 8
  end.

(** The enumerator a tag value stands for, if any. *)
Definition tag_of_code (c : Z) : option Json_Tag :=
  if c =? 0 then Some Object_t else if c =? 1 then Some Array_t
  else if c =? 2 then Some String_t else if c =? 3 then Some Unsigned_t
  else if c =? 4 then Some Signed_t else if c =? 5 then Some Float_t
  else if c =? 6 then Some Boolean_t else if c =? 7 then Some Null_t
  else if c =? 8 then Some Unused_t else None.

Section Values.
Context `{Host}.

(** union js_union: the member last written. *)
Inductive js_union :=
| U_str (p : Z)
| U_number (x : float)
| U_u (n : Z)
| U_i (n : Z)
| U_truth (b : bool)
| U_object (t : AvlNode.tree).

Record JSON := mkJSON { taglen : Z; variant : js_union }.

(** Json_Tag get_tag(): the tag value, [taglen & 15]. *)
Definition get_tag (x : JSON) : Z := Z.land (taglen x) 15.

(** void set_tag(Json_Tag tag) *)
Definition set_tag (g : Json_Tag) (x : JSON) : JSON :=
  mkJSON (Z.lor (Z.land (taglen x) (to_uint (Z.lnot 15))) (tag_code g))
         (variant x).

(** void set_str_length(unsigned int length) *)
Definition set_str_length (len : Z) (x : JSON) : JSON :=
  mkJSON (Z.lor (Z.land (taglen x) 15) (to_uint (Z.shiftl len 4)))
         (variant x).

(** unsigned int get_str_length() *)
Definition get_str_length (x : JSON) : Z := Z.shiftr (taglen x) 4.

Definition set_variant (u : js_union) (x : JSON) : JSON :=
  mkJSON (taglen x) u.

(** ** The node pool *)

(** The three static members.  [json_pool] is null or the caller's
    buffer, a sequence of slots. *)
Record Pool := mkPool {
  json_pool : option (list JSON);
  json_pool_length : Z;
  json_pool_size : Z
}.

(** A slot after [memset(buffer, 0, ...)]. *)
Definition zero_node : JSON := mkJSON 0 (U_u 0).

(** The pool before any initialisation. *)
Definition static_pool : Pool := mkPool None 0 0.

(** void initialise_json_pool(JSON *buffer, unsigned int size); the
    buffer is the caller's and has to hold [size] nodes. *)
Definition initialise_json_pool (buffer : option (list JSON)) (size : Z)
  : Pool :=
  mkPool
    (b ← buffer;
     Some (replicate (Z.to_nat size) zero_node ++ drop (Z.to_nat size) b))
    size 0.

(** [this->...] on a pointer: the node it points to. *)
Definition node_at (p : Pool) (q : ptr) : result JSON :=
  match q, json_pool p with
  | Some i, Some slots =>
      match slots !! i with
      | Some x => Done x
      | None => Undefined
      end
  | _, _ => Undefined
  end.

(** A method that updates the node it is called on. *)
Definition update_at (q : ptr) (f : JSON -> result JSON) (p : Pool)
  : result Pool :=
  x ← node_at p q;
  x' ← f x;
  match q, json_pool p with
  | Some i, Some slots =>
      Done (mkPool (Some (<[i := x']> slots))
                   (json_pool_length p) (json_pool_size p))
  | _, _ => Undefined
  end.

(** JSON * new_node(): allocate a node from the fixed memory pool. *)
Definition new_node (p : Pool) : result (ptr * Pool) :=
  match json_pool p with
  | Some slots =>
      if json_pool_size p <? json_pool_length p then
        (* node = json_pool + json_pool_size++; *)
        let node : ptr := Some (Z.to_nat (json_pool_size p)) in
        let p1 := mkPool (Some slots) (json_pool_length p)
                         (to_uint (json_pool_size p + 1)) in
        p2 ← update_at node
               (fun x => Done (set_variant (U_number float_zero)
                                           (set_tag Null_t x))) p1;
        Done (node, p2)
      else Done (null, p)
  | None => Done (null, p)
  end.

(** The shape shared by the constructors: [node = new_node(); if (node)
    { ... } return node;] *)
Definition construct (init : JSON -> JSON) (p : Pool) : result (ptr * Pool) :=
  '(node, p1) ← new_node p;
  match node with
  | Some _ => p2 ← update_at node (fun x => Done (init x)) p1; Done (node, p2)
  | None => Done (null, p1)
  end.

Definition new_float (n : float) : Pool -> result (ptr * Pool) :=
  construct (fun x => set_variant (U_number n) (set_tag Float_t x)).

Definition new_unsigned (n : Z) : Pool -> result (ptr * Pool) :=
  construct (fun x => set_variant (U_u n) (set_tag Unsigned_t x)).

Definition new_signed (n : Z) : Pool -> result (ptr * Pool) :=
  construct (fun x => set_variant (U_i n) (set_tag Signed_t x)).

Definition new_boolean (value : bool) : Pool -> result (ptr * Pool) :=
  construct (fun x => set_variant (U_truth value) (set_tag Boolean_t x)).

Definition new_null : Pool -> result (ptr * Pool) :=
  construct (fun x => set_tag Null_t x).

Definition new_string (str : Z) (len : Z) : Pool -> result (ptr * Pool) :=
  construct (fun x => set_str_length len
                        (set_variant (U_str str) (set_tag String_t x))).

Definition new_object : Pool -> result (ptr * Pool) :=
  construct (fun x => set_variant (U_object []) (set_tag Object_t x)).

Definition new_array : Pool -> result (ptr * Pool) :=
  construct (fun x => set_variant (U_object []) (set_tag Array_t x)).

(** ** Typed accessors *)

(** [variant.object], defined when that member is the one stored. *)
Definition variant_object (x : JSON) : result AvlNode.tree :=
  match variant x with
  | U_object t => Done t
  | _ => Undefined
  end.

(** [AvlKey key = - (int)symbol;] *)
Definition property_key (symbol : Z) : AvlNode.AvlKey :=
  to_int (- to_int symbol).

(** [AvlKey key = (int)index;] *)
Definition item_key (index : Z) : AvlNode.AvlKey := to_int index.

(** JSON * retrieve_property(unsigned int symbol) *)
Definition retrieve_property (x : JSON) (symbol : Z) : result ptr :=
  let key := property_key symbol in
  if get_tag x =? tag_code Object_t then
    t ← variant_object x; Done (AvlNode.find_key t key)
  else Done null.

(** JSON * retrieve_array_item(unsigned int index) *)
Definition retrieve_array_item (x : JSON) (index : Z) : result ptr :=
  let key := item_key index in
  if get_tag x =? tag_code Array_t then
    t ← variant_object x; Done (AvlNode.find_key t key)
  else Done null.

(** void insert_property(unsigned int symbol, JSON *value) *)
Definition insert_property (symbol : Z) (value : ptr) (x : JSON)
  : result JSON :=
  let key := property_key symbol in
  if get_tag x =? tag_code Object_t then
    t ← variant_object x;
    Done (set_variant (U_object (AvlNode.insert_key t key value)) x)
  else Done x.

(** void insert_array_item(unsigned int index, JSON *value) *)
Definition insert_array_item (index : Z) (value : ptr) (x : JSON)
  : result JSON :=
  let key := item_key index in
  if get_tag x =? tag_code Array_t then
    t ← variant_object x;
    Done (set_variant (U_object (AvlNode.insert_key t key value)) x)
  else Done x.

End Values.

(** ** The parser *)

(** How a statement ends: with [return v], or by running into the
    statement that follows it. *)
Inductive flow (A : Type) :=
| Return (v : A)
| Fallthrough.
Arguments Return {A} v.
Arguments Fallthrough {A}.

Section Parser.
Context `{Host}.
Variable mem : Z -> Z.

(** What the parser works on: the static node pool and the lexer it is
    handed. *)
Record State := mkState { pool : Pool; lexer : Lexer.t }.

Definition lex {A : Type} (f : Lexer.t -> A * Lexer.t) (s : State)
  : A * State :=
  let (a, l) := f (lexer s) in (a, mkState (pool s) l).

Definition alloc (f : Pool -> result (ptr * Pool)) (s : State)
  : result (ptr * State) :=
  '(q, p) ← f (pool s); Done (q, mkState p (lexer s)).

(** [q->method(...)] for a method that updates its node. *)
Definition method (q : ptr) (f : JSON -> result JSON) (s : State)
  : result State :=
  p ← update_at q f (pool s); Done (mkState p (lexer s)).

(** The bytes [token_src[0 .. token_len-1]] handed to the symbol table. *)
Definition token_text (l : Lexer.t) : list Z :=
  map (fun i => mem (Lexer.token_src l + Z.of_nat i))
      (seq 0 (Z.to_nat (Lexer.token_len l))).

Definition parser := State -> result (ptr * State).

(** The [while] loop of parse_object; [token] and [symcount] are the
    locals of that name, [n] bounds the number of turns. *)
Fixpoint parse_object_loop (parse_private : parser) (n : nat)
    (symcount : Z) (object : ptr) (token : Json_Token) (s : State)
  : result (ptr * State) :=
  match n with
  | O => Timeout
  | S n' =>
    if Json_Token_eqb token Error_token then Done (null, s)
    else if Json_Token_eqb token Object_stop_token then Done (object, s)
    else if negb (Json_Token_eqb token String_token) then Done (null, s)
    else
      let '(symbol, (tbl, symcount)) :=
        get_symbol (Lexer.table (lexer s)) (token_text (lexer s)) symcount in
      let s := mkState (pool s) (Lexer.set_table tbl (lexer s)) in
      let (token, s) := lex (Lexer.get_token mem) s in
      if negb (Json_Token_eqb token Colon_token) then Done (null, s)
      else
        '(value, s) ← parse_private s;
        match value with
        | None => Done (null, s)
        | Some _ =>
          s ← method object (insert_property symbol value) s;
          let (token, s) := lex (Lexer.get_token mem) s in
          if Json_Token_eqb token Object_stop_token
          then parse_object_loop parse_private n' symcount object token s
          else if negb (Json_Token_eqb token Comma_token) then Done (null, s)
          else
            let (token, s) := lex (Lexer.get_token mem) s in
            parse_object_loop parse_private n' symcount object token s
        end
  end.

(** JSON * parse_object(Lexer *lexer) *)
Definition parse_object (parse_private : parser) (n : nat) (s : State)
  : result (ptr * State) :=
  let symcount := JSON_SYMBOL_BASE in
  '(object, s) ← alloc new_object s;
  let (token, s) := lex (Lexer.get_token mem) s in
  parse_object_loop parse_private n symcount object token s.

(** The [for (;;)] loop of parse_array. *)
Fixpoint parse_array_loop (parse_private : parser) (n : nat)
    (array : ptr) (index : Z) (s : State) : result (ptr * State) :=
  match n with
  | O => Timeout
  | S n' =>
    '(item, s) ← parse_private s;
    match item with
    | None => Done (null, s)
    | Some _ =>
      (* array->insert_array_item(index++, item); *)
      s ← method array (insert_array_item index item) s;
      let index := to_uint (index + 1) in
      let (token, s) := lex (Lexer.get_token mem) s in
      if Json_Token_eqb token Array_stop_token then Done (array, s)
      else if negb (Json_Token_eqb token Comma_token) then Done (null, s)
      else parse_array_loop parse_private n' array index s
    end
  end.

(** JSON * parse_array(Lexer *lexer) *)
Definition parse_array (parse_private : parser) (n : nat) (s : State)
  : result (ptr * State) :=
  '(array, s) ← alloc new_array s;
  let index := 0 in
  let (empty, s) := lex (Lexer.end_of_array mem) s in
  if empty then Done (array, s)  (* empty array *)
  else parse_array_loop parse_private n array index s.

(** The [switch (token)] of parse_private. *)
Definition parse_private_switch (parse_object parse_array : parser)
    (token : Json_Token) (s : State) : result (flow ptr * State) :=
  let returning (r : result (ptr * State)) : result (flow ptr * State) :=
    '(v, s') ← r; Done (Return v, s') in
  match token with
  | Object_start_token => returning (parse_object s)
  | Array_start_token => returning (parse_array s)
  | String_token =>
      returning (alloc (new_string (Lexer.token_src (lexer s))
                                   (Lexer.token_len (lexer s))) s)
  | Null_token => returning (alloc new_null s)
  | True_token => returning (alloc (new_boolean true) s)
  | False_token => returning (alloc (new_boolean false) s)
  | Float_token => returning (alloc (new_float (Lexer.float_num (lexer s))) s)
  | Unsigned_token =>
      returning (alloc (new_unsigned (Lexer.unsigned_num (lexer s))) s)
  | Signed_token =>
      returning (alloc (new_signed (Lexer.signed_num (lexer s))) s)
  | _ => Done (Return null, s)
  end.

(** The statements written after the switch: a second token read and
    its test. *)
Definition after_switch (s : State) : result (ptr * State) :=
  let (token, s) := lex (Lexer.get_token mem) s in
  if negb (Json_Token_eqb token Error_token) then Done (null, s)
  else Done (null, s).

(** A function body made of the first token read, the switch and the
    statements [rest] that follow the switch. *)
Definition switch_then (rest : parser) (parse_object parse_array : parser)
    (s : State) : result (ptr * State) :=
  let (token, s) := lex (Lexer.get_token mem) s in
  '(fl, s) ← parse_private_switch parse_object parse_array token s;
  match fl with
  | Return v => Done (v, s)
  | Fallthrough => rest s
  end.

(** The body of parse_private, with the recursive calls abstracted. *)
Definition parse_private_body : parser -> parser -> parser :=
  switch_then after_switch.

(** JSON * parse_private(Lexer *lexer).  [fuel] bounds the depth of the
    recursion and the turns of each loop. *)
Fixpoint parse_private (fuel : nat) (s : State) : result (ptr * State) :=
  match fuel with
  | O => Timeout
  | S f =>
      parse_private_body (parse_object (parse_private f) f)
                         (parse_array (parse_private f) f) s
  end.

(** JSON * parse(const char *src, unsigned int length); [l] is the
    lexer object as declared, before its two fields are assigned. *)
Definition parse (fuel : nat) (p : Pool) (l : Lexer.t) (length : Z)
  : result (ptr * State) :=
  let l := Lexer.set_length length (Lexer.set_src 0 l) in
  parse_private fuel (mkState p l).

(** ** The printer *)

(** What PRINT is given, in order. *)
Inductive out :=
| Text (s : string)
| Char (c : Z)
| Num (n : Z)
| Flt (x : float).

(** void print_string(const unsigned char *name, unsigned int length);
    the one-character text of the double quote is given as its byte. *)
Definition print_string (name : Z) (len : Z) : list out :=
  [Char 34]
  ++ map (fun i => Char (mem (name + Z.of_nat i))) (seq 0 (Z.to_nat len))
  ++ [Char 34].

Definition printer := ptr -> result (list out).

(** void print_name_value(AvlKey key, AvlValue value, void *context);
    the state threaded through the traversal is the output so far. *)
Definition print_name_value (print : printer)
    (key : AvlNode.AvlKey) (value : AvlNode.AvlValue) (context : ptr)
    (o : list out) : result (list out) :=
  let o := o ++ [Text "  "; Num (to_int (- key)); Text " : "] in
  o' ← print value;
  let o := o ++ o' in
  if negb (ptr_eqb value context) then Done (o ++ [Text ","]) else Done o.

(** void print_array_item(AvlKey key, AvlValue value, void *context) *)
Definition print_array_item (print : printer)
    (key : AvlNode.AvlKey) (value : AvlNode.AvlValue) (context : ptr)
    (o : list out) : result (list out) :=
  o' ← print value;
  let o := o ++ o' in
  if negb (ptr_eqb value context) then Done (o ++ [Text ","]) else Done o.

(** [(JSON * )(AvlNode::last(tree))->get_value()]: the value stored
    under the largest key.  For a tree without nodes [AvlNode.last] has no
    entry to return, and JSON.cpp calls get_value() on its result without
    a test: a member call through no node. *)
Definition last_value (t : AvlNode.tree) : result ptr :=
  match AvlNode.last t with
  | Some (_, v) => Done v
  | None => Undefined
  end.

(** The body of print for the node [x]; [print] is the method itself,
    for the members of a container. *)
Definition print_body (print : printer) (x : JSON) : result (list out) :=
  match tag_of_code (get_tag x) with
  | Some Object_t =>
      t ← variant_object x;
      context ← last_value t;
      o ← AvlNode.apply t (print_name_value print) context [Text " { "];
      Done (o ++ [Text " } "])
  | Some Array_t =>
      t ← variant_object x;
      context ← last_value t;
      o ← AvlNode.apply t (print_array_item print) context [Text " [ "];
      Done (o ++ [Text "] "])
  | Some String_t =>
      match variant x with
      | U_str p => Done (print_string p (get_str_length x))
      | _ => Undefined
      end
  | Some Unsigned_t =>
      match variant x with U_u n => Done [Num n] | _ => Undefined end
  | Some Signed_t =>
      match variant x with U_i n => Done [Num n] | _ => Undefined end
  | Some Float_t =>
      match variant x with U_number n => Done [Flt n] | _ => Undefined end
  | Some Boolean_t =>
      match variant x with
      | U_truth b => Done [Text (if b then " true " else " false ")]
      | _ => Undefined
      end
  | Some Null_t => Done [Text " null "]
  | Some Unused_t => Done []
  | None => Done []
  end.

(** void print(), called on the node [q] points to. *)
Fixpoint print (fuel : nat) (p : Pool) (q : ptr) : result (list out) :=
  match fuel with
  | O => Timeout
  | S f => x ← node_at p q; print_body (print f p) x
  end.

End Parser.

(** ** Buffers, and a host to run examples on *)

(** Memory holding [bytes] at offsets [0 ..], followed by [behind]. *)
Definition buffer (bytes : list Z) (behind : Z -> Z) : Z -> Z :=
  fun i =>
    if (0 <=? i) && (i <? Z.of_nat (List.length bytes))
    then nth (Z.to_nat i) bytes 0
    else behind (i - Z.of_nat (List.length bytes)).

(** A zero-terminated text in memory. *)
Definition terminated (bytes : list Z) : Z -> Z := buffer bytes (fun _ => 0).

Module ExampleHost.

(** The run of decimal digits at the start of a text, at most [n] long,
    as a number. *)
Fixpoint digits (n : nat) (text : Z -> Z) (i : Z) (acc : Z) : Z :=
  match n with
  | O => acc
  | S n' =>
      if isdigit (text i)
      then digits n' text (i + 1) (10 * acc + (text i - 48))
      else acc
  end.

Definition scan_u (text : Z -> Z) : option Z :=
  if isdigit (text 0) then Some (to_uint (digits 10 text 0 0)) else None.

Definition scan_d (text : Z -> Z) : option Z :=
  if text 0 =? 45 then
    if isdigit (text 1)
    then Some (to_int (- digits 10 text 1 0)) else None
  else if isdigit (text 0) then Some (to_int (digits 10 text 0 0))
  else None.

(** The offset just behind the run of digits starting at [i]. *)
Fixpoint digit_run (n : nat) (text : Z -> Z) (i : Z) : Z :=
  match n with
  | O => i
  | S n' => if isdigit (text i) then digit_run n' text (i + 1) else i
  end.

(** Floats are kept as integer part and first decimal of the numeral. *)
Definition scan_f (text : Z -> Z) : option (Z * Z) :=
  if isdigit (text 0) then
    let whole := digits 10 text 0 0 in
    let k := digit_run 10 text 0 in
    if (text k =? 46) && isdigit (text (k + 1))
    then Some (whole, text (k + 1) - 48)
    else Some (whole, 0)
  else None.

Definition list_eqb (a b : list Z) : bool :=
  (Nat.eqb (List.length a) (List.length b))
  && forallb (fun xy => fst xy =? snd xy) (combine a b).

(** A symbol table interning names in first-seen order. *)
Fixpoint intern (tbl : list (list Z * Z)) (name : list Z) : option Z :=
  match tbl with
  | [] => None
  | (n, s) :: tbl' => if list_eqb n name then Some s else intern tbl' name
  end.

Definition symbol_of (tbl : list (list Z * Z)) (name : list Z) (count : Z)
  : Z * (list (list Z * Z) * Z) :=
  match intern tbl name with
  | Some s => (s, (tbl, count))
  | None => (count, ((name, count) :: tbl, to_uint (count + 1)))
  end.

#[export] Instance host : Host := {|
  float := Z * Z;
  float_zero := (0, 0);
  sscanf_f := scan_f;
  sscanf_d := scan_d;
  sscanf_u := scan_u;
  HashTable := list (list Z * Z);
  get_symbol := symbol_of;
  JSON_SYMBOL_BASE := 1
|}.

(** A lexer object as declared by parse, fields not yet assigned. *)
Definition fresh_lexer : Lexer.t :=
  Lexer.mk [] 0 0 0 0 0 0 0 (0, 0) [].

(** A pool of [k] slots, just initialised. *)
Definition fresh_pool (k : Z) : Pool :=
  initialise_json_pool (Some (replicate (Z.to_nat k) zero_node)) k.

End ExampleHost.

(** * The vocabulary of the properties *)

Section Vocabulary.
Context `{Host}.
Variable mem : Z -> Z.

(** A pool descriptor that matches its buffer: the cursor is within the
    capacity, and the buffer holds at least as many slots. *)
Definition pool_ok (p : Pool) : Prop :=
  0 <= json_pool_size p <= json_pool_length p
  /\ json_pool_length p <= UINT_MAX
  /\ forall slots, json_pool p = Some slots ->
       json_pool_length p <= Z.of_nat (List.length slots).

(** The pool has a buffer and a slot left. *)
Definition room (p : Pool) : bool :=
  match json_pool p with
  | Some _ => json_pool_size p <? json_pool_length p
  | None => false
  end.

(** What new_node makes of the slot it hands out. *)
Definition fresh (x : JSON) : JSON :=
  set_variant (U_number float_zero) (set_tag Null_t x).

(** The successor of [p] in the order of pool states: same capacity,
    cursor not lower, descriptor still matching the buffer. *)
Definition pool_le (p p' : Pool) : Prop :=
  json_pool_length p' = json_pool_length p
  /\ json_pool_size p <= json_pool_size p'
  /\ (pool_ok p -> pool_ok p').

(** An allocation: new_node itself, or a constructor built on it. *)
Definition allocation (init : option (JSON -> JSON)) : Pool -> result (ptr * Pool) :=
  match init with
  | Some f => construct f
  | None => new_node
  end.

(** A run of allocations, with the pointers they return. *)
Fixpoint allocations (inits : list (option (JSON -> JSON))) (p : Pool)
  : result (list ptr * Pool) :=
  match inits with
  | [] => Done ([], p)
  | init :: inits' =>
      '(q, p1) ← allocation init p;
      '(qs, p2) ← allocations inits' p1;
      Done (q :: qs, p2)
  end.

(** The pointers a run of [n] allocations returns when the cursor
    starts at [c] and the capacity is [k]. *)
Fixpoint handed_out (n : nat) (c k : Z) : list ptr :=
  match n with
  | O => []
  | S n' =>
      if c <? k then Some (Z.to_nat c) :: handed_out n' (c + 1) k
      else null :: handed_out n' c k
  end.

(** A parser that only moves the pool forward. *)
Definition parser_le (pp : parser) : Prop :=
  forall s q s', pool_ok (pool s) -> pp s = Done (q, s') ->
                 pool_le (pool s) (pool s').

(** [pp'] completes wherever [pp] does, with the same result. *)
Definition parser_mono (pp pp' : parser) : Prop :=
  forall s r, pp s = Done r -> pp' s = Done r.

(** [l'] is [l] with the cursor moved forward by [k] bytes; nothing but
    [src], [length] and the record of reads differs. *)
Definition moved (k : Z) (l l' : Lexer.t) : Prop :=
  Lexer.src l' = Lexer.src l + k
  /\ Lexer.length l' = Lexer.length l - k
  /\ Lexer.table l' = Lexer.table l
  /\ Lexer.symcount l' = Lexer.symcount l
  /\ Lexer.token_src l' = Lexer.token_src l
  /\ Lexer.token_len l' = Lexer.token_len l
  /\ Lexer.unsigned_num l' = Lexer.unsigned_num l
  /\ Lexer.signed_num l' = Lexer.signed_num l
  /\ Lexer.float_num l' = Lexer.float_num l.

(** The byte under the cursor, or 256 at the end of the input. *)
Definition current (l : Lexer.t) : Z :=
  if 0 <? Lexer.length l then mem (Lexer.src l) else 256.

(** The tokens parse_private turns into a node without reading on. *)
Definition scalar_token (token : Json_Token) : bool :=
  match token with
  | String_token | Null_token | True_token | False_token
  | Float_token | Unsigned_token | Signed_token => true
  | _ => false
  end.

(** Keys in strictly ascending order: what insert_key maintains. *)
Fixpoint ascending (t : AvlNode.tree) : bool :=
  match t with
  | [] => true
  | (k, _) :: t' =>
      match t' with
      | [] => true
      | (k', _) :: _ => (k <? k') && ascending t'
      end
  end.

(** The separator print emits behind a member. *)
Definition separator (context value : ptr) : list out :=
  if negb (ptr_eqb value context) then [Text ","] else [].

(** What print emits for one entry, [o] giving the text of each value:
    for an object the name part, then the value, then the separator. *)
Definition member (object : bool) (o : ptr -> list out) (context : ptr)
    (e : AvlNode.AvlKey * AvlNode.AvlValue) : list out :=
  (if object then [Text "  "; Num (to_int (- fst e)); Text " : "] else [])
  ++ o (snd e) ++ separator context (snd e).

(** The members as the specification words them: the separator is left out for the
    entry under the largest key, and for no other. *)
Definition member_by_key (object : bool) (o : ptr -> list out)
    (largest : Z) (e : AvlNode.AvlKey * AvlNode.AvlValue) : list out :=
  (if object then [Text "  "; Num (to_int (- fst e)); Text " : "] else [])
  ++ o (snd e) ++ (if fst e =? largest then [] else [Text ","]).

(** The offsets [l'] has recorded since [l] all lie in the input as [l]
    sees it: from the cursor up to, not including, cursor plus length. *)
Definition reads_within (l l' : Lexer.t) : Prop :=
  exists new,
    Lexer.reads l' = new ++ Lexer.reads l
    /\ Forall (fun r => Lexer.src l <= r < Lexer.src l + Lexer.length l) new.

(** The cursor has not moved back and the end of the input, cursor plus
    length, is where it was. *)
Definition keeps_end (l l' : Lexer.t) : Prop :=
  Lexer.src l <= Lexer.src l'
  /\ Lexer.src l' + Lexer.length l' = Lexer.src l + Lexer.length l
  /\ 0 <= Lexer.length l'.

(** Both together: a step of the lexer that stays inside the input. *)
Definition inside (l l' : Lexer.t) : Prop :=
  keeps_end l l' /\ reads_within l l'.

(** The three tokens of get_special, with the length of their literal. *)
Definition keyword_length (token : Json_Token) : option Z :=
  match token with
  | Null_token | True_token => Some 4
  | False_token => Some 5
  | _ => None
  end.

(** A change of fields other than the cursor, the length and the reads. *)
Definition same_cursor (l l' : Lexer.t) : Prop :=
  Lexer.src l' = Lexer.src l /\ Lexer.length l' = Lexer.length l
  /\ Lexer.reads l' = Lexer.reads l.

(** The nodes below slot [c] are in [p'] what they were in [p]; the
    capacity is the same and the cursor is not lower. *)
Definition frame (c : Z) (p p' : Pool) : Prop :=
  json_pool_length p' = json_pool_length p
  /\ json_pool_size p <= json_pool_size p'
  /\ forall j : nat, Z.of_nat j < c ->
       node_at p' (Some j) = node_at p (Some j).

(** The allocation [f] succeeds on [p]: it hands out the slot under the
    cursor, now a node of tag [g] holding [u], moves the cursor by one and
    leaves every other slot as it was. *)
Definition allocates (f : Pool -> result (ptr * Pool)) (p : Pool)
    (g : Json_Tag) (u : js_union) : Prop :=
  exists p' node,
    f p = Done (Some (Z.to_nat (json_pool_size p)), p')
    /\ node_at p' (Some (Z.to_nat (json_pool_size p))) = Done node
    /\ get_tag node = tag_code g
    /\ variant node = u
    /\ json_pool_size p' = json_pool_size p + 1
    /\ forall j, j <> Z.to_nat (json_pool_size p) ->
         node_at p' (Some j) = node_at p (Some j).

(** What parse_object and parse_array know of the container they fill:
    the pointer is null because the pool had no room, or it points to a
    node of tag [g], allocated at or after slot [c], that holds a map. *)
Definition container_at (g : Json_Tag) (c : Z) (q : ptr) (p : Pool) : Prop :=
  match q with
  | None => room p = false
  | Some i =>
      c <= Z.of_nat i < json_pool_size p
      /\ exists y t, node_at p (Some i) = Done y
                     /\ get_tag y = tag_code g /\ variant y = U_object t
  end.

(** A pointer stored in the container at slot [lo]: not null, and to a
    slot allocated after the container and before the cursor [hi]. *)
Definition child_ok (lo hi : Z) (v : ptr) : Prop :=
  match v with
  | Some j => lo < Z.of_nat j < hi
  | None => False
  end.

(** The node [y] at slot [lo] holds the union member print reads under
    its tag, and a container holds a map in key order whose pointers
    differ from each other and are [child_ok]. *)
Definition node_ok (lo hi : Z) (y : JSON) : Prop :=
  match tag_of_code (get_tag y) with
  | Some Object_t | Some Array_t =>
      exists t, variant y = U_object t
                /\ ascending t = true
                /\ List.NoDup (map snd t)
                /\ forall k v, In (k, v) t -> child_ok lo hi v
  | Some String_t => exists str, variant y = U_str str
  | Some Unsigned_t => exists n, variant y = U_u n
  | Some Signed_t => exists n, variant y = U_i n
  | Some Float_t => exists n, variant y = U_number n
  | Some Boolean_t => exists b, variant y = U_truth b
  | _ => True
  end.

(** Every slot from [c] up to the cursor holds a node that is [node_ok]. *)
Definition heap_ok (c : Z) (p : Pool) : Prop :=
  forall i : nat, c <= Z.of_nat i < json_pool_size p ->
    exists y, node_at p (Some i) = Done y
              /\ node_ok (Z.of_nat i) (json_pool_size p) y.

(** A run of calls of one of the two insert methods on one node, each
    with its symbol or index and its value. *)
Fixpoint insert_each (insert : Z -> ptr -> JSON -> result JSON)
    (calls : list (Z * ptr)) (x : JSON) : result JSON :=
  match calls with
  | [] => Done x
  | (n, v) :: calls' => x' ← insert n v x; insert_each insert calls' x'
  end.

(** An Object or Array node whose map has no entries. *)
Definition empty_container (y : JSON) : bool :=
  match tag_of_code (get_tag y), variant y with
  | Some Object_t, U_object [] | Some Array_t, U_object [] => true
  | _, _ => false
  end.

(** The slots the pool can still hand out. *)
Definition free_slots (p : Pool) : Z :=
  if room p then json_pool_length p - json_pool_size p else 0.

(** What bounds the work left to parse_private: the bytes left to read,
    and six for every slot still free (a literal adds up to five to the
    length and takes a slot). *)
Definition budget (s : State) : Z :=
  Lexer.length (lexer s) + 6 * free_slots (pool s).

Definition state_ok (s : State) : Prop :=
  pool_ok (pool s) /\ 0 <= Lexer.length (lexer s).

(** What a call of the parser from [s] may come back with: the nodes
    allocated before the call are as they were and those allocated during
    it are well formed; the node returned, if
    any, was allocated during the call, and then the budget is lower; a
    pool without room gives null and stays as it is. *)
Definition outcome_safe (s : State) (q : ptr) (s' : State) : Prop :=
  state_ok s'
  /\ frame (json_pool_size (pool s)) (pool s) (pool s')
  /\ heap_ok (json_pool_size (pool s)) (pool s')
  /\ match q with
     | Some i => json_pool_size (pool s) <= Z.of_nat i
                                         < json_pool_size (pool s')
                 /\ budget s' < budget s
     | None => True
     end
  /\ (room (pool s) = false -> q = None /\ pool s' = pool s).

(** A parser that never does anything undefined, comes back as
    [outcome_safe] says, and runs out of the [b] units of fuel it was
    given only on a state whose budget is at least [b]. *)
Definition parser_safe (b : Z) (pp : parser) : Prop :=
  forall s, state_ok s ->
    match pp s with
    | Undefined => False
    | Timeout => b <= budget s
    | Done (q, s') => outcome_safe s q s'
    end.

(** The outcome of the loop of parse_object or parse_array, entered at
    [s] with the container [object]. *)
Definition loop_outcome (c : Z) (object : ptr) (s : State)
    (q : ptr) (s' : State) : Prop :=
  state_ok s'
  /\ frame c (pool s) (pool s')
  /\ heap_ok c (pool s')
  /\ (q = None \/ q = object)
  /\ (room (pool s) = false -> pool s' = pool s)
  /\ (q <> None -> budget s' <= budget s).

(** What print emits for the node parse_private makes of a scalar token,
    in terms of the lexer the token read left behind. *)
Definition scalar_text (token : Json_Token) (l : Lexer.t) : list out :=
  match token with
  | String_token =>
      print_string mem (Lexer.token_src l) (Lexer.token_len l mod 2 ^ 28)
  | Null_token => [Text " null "]
  | True_token => [Text " true "]
  | False_token => [Text " false "]
  | Float_token => [Flt (Lexer.float_num l)]
  | Unsigned_token => [Num (Lexer.unsigned_num l)]
  | Signed_token => [Num (Lexer.signed_num l)]
  | _ => []
  end.

(** What a number token leaves behind.  The text handed to sscanf starts
    at the token's first byte, which lies in the input as [l] sees it, and
    goes on through the memory with no regard to the end of the input.
    The number sscanf finds there is stored in the field of the token;
    when it finds none the field stays as it was. *)
Definition number_scanned (token : Json_Token) (l l' : Lexer.t) : Prop :=
  let text := Lexer.text_at mem (Lexer.token_src l') in
  let starts_inside :=
    Lexer.src l <= Lexer.token_src l' < Lexer.src l + Lexer.length l in
  match token with
  | Unsigned_token =>
      starts_inside
      /\ Lexer.unsigned_num l'
         = default (Lexer.unsigned_num l) (sscanf_u text)
  | Signed_token =>
      starts_inside
      /\ Lexer.signed_num l' = default (Lexer.signed_num l) (sscanf_d text)
  | Float_token =>
      starts_inside
      /\ Lexer.float_num l' = default (Lexer.float_num l) (sscanf_f text)
  | _ => True
  end.

(** The symbol table and the three number fields are as they were. *)
Definition nums_kept (l l' : Lexer.t) : Prop :=
  Lexer.table l' = Lexer.table l
  /\ Lexer.symcount l' = Lexer.symcount l
  /\ Lexer.unsigned_num l' = Lexer.unsigned_num l
  /\ Lexer.signed_num l' = Lexer.signed_num l
  /\ Lexer.float_num l' = Lexer.float_num l.

(** So are the two fields that describe the token. *)
Definition untouched (l l' : Lexer.t) : Prop :=
  nums_kept l l'
  /\ Lexer.token_src l' = Lexer.token_src l
  /\ Lexer.token_len l' = Lexer.token_len l.

(** The fields a call that returned [token] may have written. *)
Definition token_writes (token : Json_Token) (l l' : Lexer.t) : Prop :=
  Lexer.table l' = Lexer.table l
  /\ Lexer.symcount l' = Lexer.symcount l
  /\ (token <> Unsigned_token -> Lexer.unsigned_num l' = Lexer.unsigned_num l)
  /\ (token <> Signed_token -> Lexer.signed_num l' = Lexer.signed_num l)
  /\ (token <> Float_token -> Lexer.float_num l' = Lexer.float_num l)
  /\ match token with
     | String_token | Error_token => True
     | Unsigned_token | Signed_token | Float_token => Lexer.token_len l' = 0
     | _ => Lexer.token_src l' = Lexer.token_src l
            /\ Lexer.token_len l' = Lexer.token_len l
     end.

(** What get_number can return. *)
Definition number_or_error (token : Json_Token) : bool :=
  match token with
  | Error_token | Float_token | Unsigned_token | Signed_token => true
  | _ => false
  end.

(** The two tokens that open a container. *)
Definition opening (token : Json_Token) : bool :=
  match token with
  | Object_start_token | Array_start_token => true
  | _ => false
  end.

(** What the switch of parse_private comes back with: every case
    returns, and only a container can take more than one step. *)
Definition switch_outcome (b : Z) (token : Json_Token) (s : State)
    (r : result (flow ptr * State)) : Prop :=
  match r with
  | Undefined => False
  | Timeout => opening token = true /\ b <= budget s
  | Done (fl, s') =>
      exists v,
        fl = Return v
        /\ state_ok s'
        /\ frame (json_pool_size (pool s)) (pool s) (pool s')
        /\ heap_ok (json_pool_size (pool s)) (pool s')
        /\ (room (pool s) = false -> v = None /\ pool s' = pool s)
        /\ match v with
           | Some i =>
               json_pool_size (pool s) <= Z.of_nat i
                                       < json_pool_size (pool s')
               /\ budget s' + (if opening token then 1 else 6) <= budget s
           | None => True
           end
  end.

End Vocabulary.

(** What can happen to the pool between two initialisations: an
    allocation (new_node or a constructor), a method updating a node
    through a pointer (insert_property, insert_array_item), or a parse. *)
Inductive pool_step `{Host} : Pool -> Pool -> Prop :=
| step_allocation init p q p' :
    allocation init p = Done (q, p') -> pool_step p p'
| step_update q f p p' :
    update_at q f p = Done p' -> pool_step p p'
| step_parse mem fuel l len p q s :
    parse mem fuel p l len = Done (q, s) -> pool_step p (pool s).

(** The length the token would have if a quote preceded by a backslash
    did not end it, as the specification words it: the offset, in the bytes after the
    opening quote, of the first quote not preceded by a backslash. *)
Fixpoint unescaped_quote_offset (text : list Z) (previous : Z) (i : Z)
  : option Z :=
  match text with
  | [] => None
  | c :: text' =>
      if (c =? 34) && negb (previous =? 92) then Some i
      else unescaped_quote_offset text' c (i + 1)
  end.

(** An array whose two elements are one and the same node, built with
    the constructors and insert_array_item, and printed. *)
Definition shared_item_printed : result (list (out (H := ExampleHost.host))) :=
  '(a, p1) ← new_array (ExampleHost.fresh_pool 2);
  '(n, p2) ← new_null p1;
  p3 ← update_at a (insert_array_item 0 n) p2;
  p4 ← update_at a (insert_array_item 1 n) p3;
  print (terminated []) 2 p4 a.

(** * Properties *)

(** ** Machine integers *)

Lemma two_pow_bits : 2 ^ UINT_BITS = 4294967296.
Proof. reflexivity. Qed.

Lemma two_pow_bits_pred : 2 ^ (UINT_BITS - 1) = 2147483648.
Proof. reflexivity. Qed.

Ltac unfold_ints :=
  unfold to_int, to_uint, UINT_MAX, INT_MAX, INT_MIN in *;
  rewrite ?two_pow_bits, ?two_pow_bits_pred in *.

Lemma to_uint_small z : 0 <= z <= UINT_MAX -> to_uint z = z.
Proof. intros. unfold_ints. apply Z.mod_small. lia. Qed.

Lemma to_int_small z : INT_MIN <= z <= INT_MAX -> to_int z = z.
Proof. intros. unfold_ints. rewrite Z.mod_small; lia. Qed.

Lemma to_int_congr a b :
  to_int a = to_int b -> a mod 2 ^ UINT_BITS = b mod 2 ^ UINT_BITS.
Proof.
  unfold_ints. intros E.
  assert (E' : (a + 2147483648) mod 4294967296
               = (b + 2147483648) mod 4294967296) by lia.
  clear E. Z.div_mod_to_equations. lia.
Qed.

Lemma to_int_neg_to_int z : to_int (- to_int z) = to_int (- z).
Proof. unfold_ints. Z.div_mod_to_equations. lia. Qed.

(** ** The ordered map *)

Module AvlFacts.
Import AvlNode.

Lemma find_insert_eq t key value : find_key (insert_key t key value) key = value.
Proof.
  induction t as [|[k v] t IH]; simpl.
  - now rewrite Z.eqb_refl.
  - destruct (key <? k) eqn:L; simpl.
    + now rewrite Z.eqb_refl.
    + destruct (key =? k) eqn:E; simpl.
      * now rewrite Z.eqb_refl.
      * now rewrite E.
Qed.

Lemma find_insert_ne t key value key' :
  key' <> key -> find_key (insert_key t key value) key' = find_key t key'.
Proof.
  intros N. induction t as [|[k v] t IH]; simpl.
  - destruct (key' =? key) eqn:E; [lia | reflexivity].
  - destruct (key <? k) eqn:L; simpl.
    + destruct (key' =? key) eqn:E; [lia | reflexivity].
    + destruct (key =? k) eqn:E; simpl.
      * destruct (key' =? key) eqn:E1; [lia|].
        destruct (key' =? k) eqn:E2; [lia | reflexivity].
      * now rewrite IH.
Qed.

Lemma insert_key_In t key value : In (key, value) (insert_key t key value).
Proof.
  induction t as [|[k v] t IH]; simpl; [now left|].
  destruct (key <? k); [now left|].
  destruct (key =? k); [now left | now right].
Qed.

End AvlFacts.

(** ** Typed accessors *)

Section AccessorFacts.
Context `{Host}.
Import AvlNode.

Lemma property_key_positive s :
  1 <= s <= INT_MAX -> property_key s = - s.
Proof.
  intros R. unfold property_key. rewrite to_int_neg_to_int.
  apply to_int_small. unfold_ints. lia.
Qed.

Lemma item_key_small index :
  0 <= index <= INT_MAX -> item_key index = index.
Proof. intros R. apply to_int_small. unfold_ints. lia. Qed.

Lemma property_key_inj s s' :
  0 <= s <= UINT_MAX -> 0 <= s' <= UINT_MAX ->
  property_key s = property_key s' -> s = s'.
Proof.
  unfold property_key. rewrite !to_int_neg_to_int. intros R R' E.
  apply to_int_congr in E. unfold_ints.
  Z.div_mod_to_equations. lia.
Qed.

Lemma insert_property_object x t s v :
  get_tag x = tag_code Object_t -> variant x = U_object t ->
  insert_property s v x
  = Done (set_variant (U_object (insert_key t (property_key s) v)) x).
Proof.
  intros T V. unfold insert_property, variant_object.
  rewrite T, V, Z.eqb_refl. reflexivity.
Qed.

Lemma retrieve_property_object x t s :
  get_tag x = tag_code Object_t -> variant x = U_object t ->
  retrieve_property x s = Done (find_key t (property_key s)).
Proof.
  intros T V. unfold retrieve_property, variant_object.
  rewrite T, V, Z.eqb_refl. reflexivity.
Qed.

Lemma item_key_inj index index' :
  0 <= index <= UINT_MAX -> 0 <= index' <= UINT_MAX ->
  item_key index = item_key index' -> index = index'.
Proof.
  unfold item_key. intros R R' E.
  apply to_int_congr in E. unfold_ints.
  Z.div_mod_to_equations. lia.
Qed.

Lemma insert_array_item_array index value x t :
  get_tag x = tag_code Array_t -> variant x = U_object t ->
  insert_array_item index value x
  = Done (set_variant (U_object (insert_key t (item_key index) value)) x).
Proof.
  intros T V. unfold insert_array_item, variant_object.
  rewrite T, V, Z.eqb_refl. reflexivity.
Qed.

Lemma retrieve_array_item_map x t index :
  get_tag x = tag_code Array_t -> variant x = U_object t ->
  retrieve_array_item x index = Done (find_key t (item_key index)).
Proof.
  intros T V. unfold retrieve_array_item, variant_object.
  rewrite T, V, Z.eqb_refl. reflexivity.
Qed.

(** A run of inserts under other symbols, or other indices, leaves what
    is stored under the key of [n] where it is. *)
Lemma insert_each_keeps (ins : Z -> ptr -> JSON -> result JSON)
    (keyf : Z -> AvlKey) (g : Json_Tag) (n : Z) (v : ptr) :
  (forall m w x t,
     get_tag x = tag_code g -> variant x = U_object t ->
     ins m w x = Done (set_variant (U_object (insert_key t (keyf m) w)) x)) ->
  (forall m, 0 <= m <= UINT_MAX -> m <> n -> keyf m <> keyf n) ->
  forall calls x t,
    get_tag x = tag_code g -> variant x = U_object t ->
    Forall (fun c => 0 <= fst c <= UINT_MAX /\ fst c <> n) calls ->
    find_key t (keyf n) = v ->
    exists x'' t'',
      insert_each ins calls x = Done x''
      /\ get_tag x'' = tag_code g
      /\ variant x'' = U_object t''
      /\ find_key t'' (keyf n) = v.
Proof.
  intros I K. induction calls as [|[m w] calls IH]; intros x t T V F E.
  - exists x, t. now repeat split.
  - apply Forall_cons in F as [(R & N) F']. cbn [fst] in R, N.
    cbn [insert_each]. rewrite (I m w x t T V). cbn [mbind result_bind].
    apply (IH _ (insert_key t (keyf m) w)); [exact T | reflexivity | exact F'|].
    rewrite AvlFacts.find_insert_ne; [exact E|].
    intros Q. exact (K m R N (eq_sym Q)).
Qed.

End AccessorFacts.

(** C10.  On a value whose tag is not Object_t, retrieve_property returns
    null and insert_property leaves the value as it is; on a value whose
    tag is not Array_t, retrieve_array_item returns null and
    insert_array_item leaves the value as it is.  Both calls complete
    whatever member the union holds: the payload is not looked at. *)
Theorem wrong_tag_accessor_is_noop `{Host} (x : JSON) (n : Z) (value : ptr) :
  (get_tag x <> tag_code Object_t ->
     retrieve_property x n = Done null /\ insert_property n value x = Done x)
  /\ (get_tag x <> tag_code Array_t ->
     retrieve_array_item x n = Done null
     /\ insert_array_item n value x = Done x).
Proof.
  split; intros N.
  - unfold retrieve_property, insert_property.
    destruct (get_tag x =? tag_code Object_t) eqn:E; [lia | split; reflexivity].
  - unfold retrieve_array_item, insert_array_item.
    destruct (get_tag x =? tag_code Array_t) eqn:E; [lia | split; reflexivity].
Qed.

Lemma wrong_tag_accessor_is_noop_witness :
  let x := mkJSON (H := ExampleHost.host) 39 (U_str 2) in
  (retrieve_property x 3 = Done null /\ insert_property 3 (Some 1%nat) x = Done x)
  /\ (retrieve_array_item x 3 = Done null
      /\ insert_array_item 3 (Some 1%nat) x = Done x).
Proof.
  intros x.
  destruct (wrong_tag_accessor_is_noop x 3 (Some 1%nat)) as [A B].
  split; [apply A | apply B]; vm_compute; discriminate.
Defined.

(** C8, as stated, fails: the symbol 0 is stored under the key 0, which is
    also the key of the array index 0, so the keys of objects and the keys
    of arrays are not in disjoint sign ranges for every symbol. *)
Lemma property_key_zero_is_item_key :
  ~ (forall s index : Z,
        0 <= s <= UINT_MAX -> 0 <= index <= UINT_MAX ->
        property_key s < 0 /\ 0 <= item_key index)
  /\ property_key 0 = item_key 0.
Proof.
  split; [|reflexivity].
  intros C. destruct (C 0 0) as [C1 _]; [vm_compute; split; discriminate ..|].
  vm_compute in C1. discriminate.
Qed.

(** C8, amended.  On a value whose tag is Object (holding its map),
    insert_property(s, v) stores v in the map under the key -(int)s, and a
    retrieve_property(s) that follows returns v, also after any run of
    inserts under other symbols.  On a value whose tag is Array,
    insert_array_item(s, v) stores v under the key (int)s, and a
    retrieve_array_item(s) that follows returns v, also after any run of
    inserts at other indices.  For a symbol in 1 .. INT_MAX the object's
    key is -s, a negative number, and for an index in 0 .. INT_MAX the
    array's key is the index, which is not negative: within these ranges
    the keys of objects and of arrays are disjoint.  Symbols and indices
    are values of unsigned int, 0 .. UINT_MAX. *)
Theorem insert_then_retrieve_property `{Host}
    (x : JSON) (t : AvlNode.tree) (s : Z) (v : ptr)
    (calls : list (Z * ptr)) :
  variant x = U_object t ->
  0 <= s <= UINT_MAX ->
  Forall (fun c => 0 <= fst c <= UINT_MAX /\ fst c <> s) calls ->
  (get_tag x = tag_code Object_t ->
   exists x' x'',
     insert_property s v x = Done x'
     /\ get_tag x' = tag_code Object_t
     /\ variant x' = U_object (AvlNode.insert_key t (to_int (- to_int s)) v)
     /\ In (to_int (- to_int s), v)
           (AvlNode.insert_key t (to_int (- to_int s)) v)
     /\ retrieve_property x' s = Done v
     /\ insert_each insert_property calls x' = Done x''
     /\ retrieve_property x'' s = Done v)
  /\ (get_tag x = tag_code Array_t ->
      exists x' x'',
        insert_array_item s v x = Done x'
        /\ get_tag x' = tag_code Array_t
        /\ variant x' = U_object (AvlNode.insert_key t (to_int s) v)
        /\ In (to_int s, v) (AvlNode.insert_key t (to_int s) v)
        /\ retrieve_array_item x' s = Done v
        /\ insert_each insert_array_item calls x' = Done x''
        /\ retrieve_array_item x'' s = Done v)
  /\ (1 <= s <= INT_MAX -> to_int (- to_int s) = - s /\ - s < 0)
  /\ (0 <= s <= INT_MAX -> to_int s = s /\ 0 <= s)
  /\ (forall symbol index,
        1 <= symbol <= INT_MAX -> 0 <= index <= INT_MAX ->
        property_key symbol < 0 /\ 0 <= item_key index
        /\ property_key symbol <> item_key index).
Proof.
  intros V R F.
  split; [|split; [|split; [|split]]].
  - intros T.
    destruct (insert_each_keeps insert_property property_key Object_t s v
                (fun m w x0 t0 => insert_property_object x0 t0 m w)
                (fun m Rm N E => N (property_key_inj m s Rm R E))
                calls
                (set_variant
                   (U_object (AvlNode.insert_key t (property_key s) v)) x)
                (AvlNode.insert_key t (property_key s) v)
                T eq_refl F (AvlFacts.find_insert_eq t (property_key s) v))
      as (x'' & t'' & E & T'' & V'' & Fd).
    exists (set_variant
              (U_object (AvlNode.insert_key t (property_key s) v)) x), x''.
    split; [now apply insert_property_object|].
    split; [exact T|]. split; [reflexivity|].
    split; [apply AvlFacts.insert_key_In|].
    split.
    { erewrite retrieve_property_object; [|exact T|reflexivity].
      now rewrite AvlFacts.find_insert_eq. }
    split; [exact E|].
    rewrite (retrieve_property_object x'' t'' s T'' V''). now rewrite Fd.
  - intros T.
    destruct (insert_each_keeps insert_array_item item_key Array_t s v
                insert_array_item_array
                (fun m Rm N E => N (item_key_inj m s Rm R E))
                calls
                (set_variant
                   (U_object (AvlNode.insert_key t (item_key s) v)) x)
                (AvlNode.insert_key t (item_key s) v)
                T eq_refl F (AvlFacts.find_insert_eq t (item_key s) v))
      as (x'' & t'' & E & T'' & V'' & Fd).
    exists (set_variant
              (U_object (AvlNode.insert_key t (item_key s) v)) x), x''.
    split; [now apply insert_array_item_array|].
    split; [exact T|]. split; [reflexivity|].
    split; [apply AvlFacts.insert_key_In|].
    split.
    { erewrite retrieve_array_item_map; [|exact T|reflexivity].
      now rewrite AvlFacts.find_insert_eq. }
    split; [exact E|].
    rewrite (retrieve_array_item_map x'' t'' s T'' V''). now rewrite Fd.
  - intros Rs. pose proof (property_key_positive s Rs) as P.
    unfold property_key in P. rewrite P. split; [reflexivity | lia].
  - intros Rs. pose proof (item_key_small s Rs) as P.
    unfold item_key in P. rewrite P. split; [reflexivity | lia].
  - intros symbol index Rs Ri.
    rewrite (property_key_positive symbol Rs), (item_key_small index Ri).
    lia.
Qed.

Lemma insert_then_retrieve_property_witness :
  (let x := mkJSON (H := ExampleHost.host) 0 (U_object [(-7, Some 2%nat)]) in
   exists x' x'',
     insert_property 5 (Some 1%nat) x = Done x'
     /\ retrieve_property x' 5 = Done (Some 1%nat)
     /\ insert_each insert_property [(7, Some 3%nat); (9, Some 4%nat)] x'
        = Done x''
     /\ retrieve_property x'' 5 = Done (Some 1%nat))
  /\ (let a := mkJSON (H := ExampleHost.host) 1 (U_object [(0, Some 2%nat)]) in
      exists a' a'',
        insert_array_item 5 (Some 1%nat) a = Done a'
        /\ retrieve_array_item a' 5 = Done (Some 1%nat)
        /\ insert_each insert_array_item [(0, Some 3%nat); (6, Some 4%nat)] a'
           = Done a''
        /\ retrieve_array_item a'' 5 = Done (Some 1%nat)).
Proof.
  assert (R : 0 <= 5 <= UINT_MAX) by (vm_compute; split; discriminate).
  split.
  - intros x.
    destruct (insert_then_retrieve_property x [(-7, Some 2%nat)] 5
                (Some 1%nat) [(7, Some 3%nat); (9, Some 4%nat)])
      as (O & _); [reflexivity | exact R | |].
    + repeat constructor; cbn; first [discriminate | lia].
    + destruct (O eq_refl) as (x' & x'' & I & _ & _ & _ & G & E & G').
      exists x', x''. repeat split; assumption.
  - intros a.
    destruct (insert_then_retrieve_property a [(0, Some 2%nat)] 5
                (Some 1%nat) [(0, Some 3%nat); (6, Some 4%nat)])
      as (_ & A & _); [reflexivity | exact R | |].
    + repeat constructor; cbn; first [discriminate | lia].
    + destruct (A eq_refl) as (a' & a'' & I & _ & _ & _ & G & E & G').
      exists a', a''. repeat split; assumption.
Defined.

(** ** The node pool *)

Lemma bind_Done {A B : Type} (r : result A) (k : A -> result B) (b : B) :
  r ≫= k = Done b -> exists a, r = Done a /\ k a = Done b.
Proof. destruct r; simpl; intros E; [eauto | discriminate ..]. Qed.

Section PoolFacts.
Context `{Host}.

Lemma pool_le_refl p : pool_le p p.
Proof. unfold pool_le. auto with zarith. Qed.

Lemma pool_le_trans p1 p2 p3 : pool_le p1 p2 -> pool_le p2 p3 -> pool_le p1 p3.
Proof.
  unfold pool_le. intros (?&?&?) (?&?&?).
  split; [congruence|]. split; [lia | auto].
Qed.

Lemma update_at_Some p slots i x y f :
  json_pool p = Some slots -> slots !! i = Some x -> f x = Done y ->
  update_at (Some i) f p
  = Done (mkPool (Some (<[i := y]> slots))
                 (json_pool_length p) (json_pool_size p)).
Proof.
  intros P L F. unfold update_at, node_at. rewrite P, L. simpl.
  rewrite F. reflexivity.
Qed.

Lemma update_at_Done q f p p' :
  update_at q f p = Done p' ->
  exists i slots x y,
    q = Some i /\ json_pool p = Some slots /\ slots !! i = Some x
    /\ f x = Done y
    /\ p' = mkPool (Some (<[i := y]> slots))
                   (json_pool_length p) (json_pool_size p).
Proof.
  unfold update_at, node_at. intros E.
  destruct q as [i|]; [|discriminate].
  destruct (json_pool p) as [slots|] eqn:P; [|discriminate].
  destruct (slots !! i) as [x|] eqn:L; [|discriminate].
  simpl in E. destruct (f x) as [y| |] eqn:F; [|discriminate ..].
  simpl in E. inversion E. exists i, slots, x, y. auto.
Qed.

Lemma update_at_le q f p p' : update_at q f p = Done p' -> pool_le p p'.
Proof.
  intros E. apply update_at_Done in E.
  destruct E as (i & slots & x & y & _ & P & _ & _ & ->).
  unfold pool_le, pool_ok. simpl. repeat split; try lia.
  all: destruct H0 as (? & ? & S); try lia.
  intros slots' E. inversion E. rewrite length_insert. now apply S.
Qed.

Lemma slot_exists p slots :
  pool_ok p -> json_pool p = Some slots ->
  json_pool_size p < json_pool_length p ->
  exists x, slots !! Z.to_nat (json_pool_size p) = Some x.
Proof.
  intros (R & _ & S) P L. specialize (S _ P).
  apply lookup_lt_is_Some_2. lia.
Qed.

Lemma new_node_room p slots x :
  json_pool p = Some slots ->
  json_pool_size p < json_pool_length p ->
  slots !! Z.to_nat (json_pool_size p) = Some x ->
  new_node p
  = Done (Some (Z.to_nat (json_pool_size p)),
          mkPool (Some (<[Z.to_nat (json_pool_size p) := fresh x]> slots))
                 (json_pool_length p) (to_uint (json_pool_size p + 1))).
Proof.
  intros P L X. unfold new_node. rewrite P.
  destruct (json_pool_size p <? json_pool_length p) eqn:E; [|lia].
  erewrite update_at_Some; [reflexivity | reflexivity | exact X | reflexivity].
Qed.

Lemma new_node_full p : room p = false -> new_node p = Done (null, p).
Proof.
  unfold room, new_node. destruct (json_pool p); [|reflexivity].
  now intros ->.
Qed.

Lemma construct_room init p slots x :
  json_pool p = Some slots ->
  json_pool_size p < json_pool_length p ->
  slots !! Z.to_nat (json_pool_size p) = Some x ->
  construct init p
  = Done (Some (Z.to_nat (json_pool_size p)),
          mkPool (Some (<[Z.to_nat (json_pool_size p) := init (fresh x)]> slots))
                 (json_pool_length p) (to_uint (json_pool_size p + 1))).
Proof.
  intros P L X. unfold construct. rewrite (new_node_room p slots x P L X).
  simpl. erewrite update_at_Some; [| reflexivity | | reflexivity].
  - simpl. now rewrite list_insert_insert_eq.
  - apply list_lookup_insert_eq. now apply lookup_lt_Some in X.
Qed.

Lemma construct_full init p : room p = false -> construct init p = Done (null, p).
Proof. intros R. unfold construct. now rewrite new_node_full. Qed.

Lemma room_true p :
  room p = true ->
  exists slots, json_pool p = Some slots
                /\ json_pool_size p < json_pool_length p.
Proof.
  unfold room. destruct (json_pool p) as [slots|]; [|discriminate].
  intros L. exists slots. split; [reflexivity | lia].
Qed.

(** What an allocation does to a pool that matches its buffer. *)
Lemma allocation_spec init p :
  pool_ok p ->
  if room p then
    exists p', allocation init p = Done (Some (Z.to_nat (json_pool_size p)), p')
               /\ json_pool_size p' = json_pool_size p + 1
               /\ json_pool_length p' = json_pool_length p
               /\ pool_ok p'
  else allocation init p = Done (null, p).
Proof.
  intros OK. destruct (room p) eqn:R.
  - destruct (room_true p R) as (slots & P & L).
    destruct (slot_exists p slots OK P L) as (x & X).
    destruct OK as (R1 & R2 & S).
    assert (U : to_uint (json_pool_size p + 1) = json_pool_size p + 1)
      by (apply to_uint_small; lia).
    destruct init as [f|]; simpl;
      [rewrite (construct_room f p slots x P L X)
      |rewrite (new_node_room p slots x P L X)];
      (eexists; split; [reflexivity|]; unfold pool_ok; simpl; rewrite U;
       split; [reflexivity|]; split; [reflexivity|];
       split; [lia|]; split; [lia|];
       intros slots' E; inversion E; rewrite length_insert; now apply S).
  - destruct init; simpl; [now apply construct_full | now apply new_node_full].
Qed.

Lemma allocation_le init p q p' :
  pool_ok p -> allocation init p = Done (q, p') -> pool_le p p'.
Proof.
  intros OK E. pose proof (allocation_spec init p OK) as S.
  destruct (room p).
  - destruct S as (p'' & E' & S1 & S2 & S3). rewrite E in E'.
    inversion E'; subst. unfold pool_le. split; [lia|]. split; [lia | auto].
  - rewrite E in S. inversion S. apply pool_le_refl.
Qed.

Lemma allocations_spec inits : forall p slots,
  pool_ok p -> json_pool p = Some slots ->
  exists p',
    allocations inits p
    = Done (handed_out (List.length inits) (json_pool_size p)
                       (json_pool_length p), p')
    /\ json_pool_size p'
       = Z.min (json_pool_size p + Z.of_nat (List.length inits))
               (json_pool_length p)
    /\ json_pool_length p' = json_pool_length p
    /\ pool_ok p'.
Proof.
  induction inits as [|init inits IH]; intros p slots OK P.
  - exists p. simpl. pose proof OK as (? & ? & ?).
    split; [reflexivity|]. split; [lia|]. split; [reflexivity | exact OK].
  - pose proof (allocation_spec init p OK) as S.
    unfold room in S. rewrite P in S. cbn [allocations List.length handed_out].
    destruct (json_pool_size p <? json_pool_length p) eqn:L.
    + destruct S as (p1 & E & S1 & S2 & OK1). rewrite E. simpl.
      assert (exists slots1, json_pool p1 = Some slots1) as (slots1 & P1).
      { destruct (slot_exists p slots OK P ltac:(lia)) as (x & X).
        destruct init as [f|]; simpl in E;
          [rewrite (construct_room f p slots x P ltac:(lia) X) in E
          |rewrite (new_node_room p slots x P ltac:(lia) X) in E];
          inversion E; subst p1; simpl; eauto. }
      destruct (IH p1 slots1 OK1 P1) as (p' & E' & T1 & T2 & OK').
      rewrite E'. simpl. exists p'. rewrite S1, S2 in *.
      split; [reflexivity|]. split; [lia|]. split; [assumption | exact OK'].
    + rewrite S. simpl.
      destruct (IH p slots OK P) as (p' & E' & T1 & T2 & OK').
      rewrite E'. simpl. exists p'. destruct OK as (? & ? & ?).
      split; [reflexivity|]. split; [lia|]. split; [assumption | exact OK'].
Qed.

End PoolFacts.

(** ** The parser and the pool *)

Section ParserPool.
Context `{Host}.
Variable mem : Z -> Z.

Lemma lex_pool {A : Type} (f : Lexer.t -> A * Lexer.t) s a s' :
  lex f s = (a, s') -> pool s' = pool s /\ (a, lexer s') = f (lexer s).
Proof.
  unfold lex. destruct (f (lexer s)) as [a' l'].
  intros E. inversion E. auto.
Qed.

Lemma alloc_Done f s q s' :
  alloc f s = Done (q, s') ->
  f (pool s) = Done (q, pool s') /\ lexer s' = lexer s.
Proof.
  unfold alloc. intros E. apply bind_Done in E.
  destruct E as ([q' p'] & E1 & E2). inversion E2; subst; simpl.
  split; [exact E1 | reflexivity].
Qed.

Lemma method_Done q f s s' :
  method q f s = Done s' ->
  update_at q f (pool s) = Done (pool s') /\ lexer s' = lexer s.
Proof.
  unfold method. intros E. apply bind_Done in E.
  destruct E as (p' & E1 & E2). inversion E2; subst; simpl.
  split; [exact E1 | reflexivity].
Qed.

Lemma pool_le_ok p p' : pool_le p p' -> pool_ok p -> pool_ok p'.
Proof. intros (_ & _ & K). exact K. Qed.

Lemma alloc_le init s q s' :
  pool_ok (pool s) -> alloc (allocation init) s = Done (q, s') ->
  pool_le (pool s) (pool s').
Proof.
  intros OK E. apply alloc_Done in E. destruct E as (E & _).
  now apply allocation_le in E.
Qed.

Lemma method_le q f s s' :
  method q f s = Done s' -> pool_le (pool s) (pool s').
Proof.
  intros E. apply method_Done in E. destruct E as (E & _).
  now apply update_at_le in E.
Qed.

Ltac lex_step E tok s1 L :=
  match type of E with
  | context [lex ?f ?s] =>
      destruct (lex f s) as [tok s1] eqn:L;
      apply lex_pool in L; destruct L as (L & _); simpl in L
  end.

Ltac finish :=
  match goal with
  | E : Done _ = Done _ |- _ => inversion E; subst; clear E
  end;
  repeat match goal with
         | L : pool _ = pool _ |- _ => rewrite L in *; clear L
         end;
  try apply pool_le_refl; try assumption.

Lemma parse_object_loop_le pp : parser_le pp ->
  forall n symcount object token,
    parser_le (parse_object_loop mem pp n symcount object token).
Proof.
  intros PP. induction n as [|n IH]; intros symcount object token s q s' OK E;
    simpl in E; [discriminate|].
  destruct (Json_Token_eqb token Error_token); [finish|].
  destruct (Json_Token_eqb token Object_stop_token); [finish|].
  destruct (negb (Json_Token_eqb token String_token)); [finish|].
  destruct (get_symbol _ _ _) as [symbol [tbl sc]].
  lex_step E tok s1 L1.
  destruct (negb (Json_Token_eqb tok Colon_token)); [finish|].
  apply bind_Done in E. destruct E as ([value s2] & E2 & E).
  assert (OK1 : pool_ok (pool s1)) by now rewrite L1.
  pose proof (PP _ _ _ OK1 E2) as LE2. rewrite L1 in LE2.
  destruct value as [v|]; [|finish].
  apply bind_Done in E. destruct E as (s3 & E3 & E).
  pose proof (method_le _ _ _ _ E3) as LE3.
  pose proof (pool_le_trans _ _ _ LE2 LE3) as LE.
  lex_step E tok2 s4 L4.
  assert (OK4 : pool_ok (pool s4))
    by (rewrite L4; now apply (pool_le_ok _ _ LE)).
  rewrite <- L4 in LE.
  destruct (Json_Token_eqb tok2 Object_stop_token).
  { eapply pool_le_trans; [exact LE | eapply IH; eassumption]. }
  destruct (negb (Json_Token_eqb tok2 Comma_token)); [finish|].
  lex_step E tok3 s5 L5.
  eapply pool_le_trans; [exact LE|]. rewrite <- L5.
  eapply IH; [|eassumption]. now rewrite L5.
Qed.

Lemma parse_object_le pp n : parser_le pp -> parser_le (parse_object mem pp n).
Proof.
  intros PP s q s' OK E. unfold parse_object in E.
  apply bind_Done in E. destruct E as ([object s1] & E1 & E).
  apply (alloc_le (Some _)) in E1; [|assumption].
  lex_step E tok s2 L2.
  eapply pool_le_trans; [exact E1|]. rewrite <- L2.
  eapply parse_object_loop_le; [exact PP | | exact E].
  rewrite L2. now apply (pool_le_ok _ _ E1).
Qed.

Lemma parse_array_loop_le pp : parser_le pp ->
  forall n array index, parser_le (parse_array_loop mem pp n array index).
Proof.
  intros PP. induction n as [|n IH]; intros array index s q s' OK E;
    simpl in E; [discriminate|].
  apply bind_Done in E. destruct E as ([item s1] & E1 & E).
  pose proof (PP _ _ _ OK E1) as LE1.
  destruct item as [v|]; [|finish].
  apply bind_Done in E. destruct E as (s2 & E2 & E).
  pose proof (method_le _ _ _ _ E2) as LE2.
  pose proof (pool_le_trans _ _ _ LE1 LE2) as LE.
  lex_step E tok s3 L3. rewrite <- L3 in LE.
  destruct (Json_Token_eqb tok Array_stop_token); [finish|].
  destruct (negb (Json_Token_eqb tok Comma_token)); [finish|].
  eapply pool_le_trans; [exact LE|].
  eapply IH; [|exact E]. now apply (pool_le_ok _ _ LE).
Qed.

Lemma parse_array_le pp n : parser_le pp -> parser_le (parse_array mem pp n).
Proof.
  intros PP s q s' OK E. unfold parse_array in E.
  apply bind_Done in E. destruct E as ([array s1] & E1 & E).
  apply (alloc_le (Some _)) in E1; [|assumption].
  lex_step E closing s2 L2. rewrite <- L2 in E1.
  destruct closing; [finish|].
  eapply pool_le_trans; [exact E1|].
  eapply parse_array_loop_le; [exact PP | | exact E].
  now apply (pool_le_ok _ _ E1).
Qed.

Lemma parse_private_switch_le po pa token s fl s' :
  parser_le po -> parser_le pa -> pool_ok (pool s) ->
  parse_private_switch po pa token s = Done (fl, s') ->
  pool_le (pool s) (pool s').
Proof.
  intros PO PA OK E. unfold parse_private_switch in E.
  destruct token;
    try (inversion E; subst; apply pool_le_refl);
    apply bind_Done in E; destruct E as ([v s1] & E1 & E);
    inversion E; subst; clear E;
    try (now apply (alloc_le (Some _)) in E1).
  - now apply PO in E1.
  - now apply PA in E1.
Qed.

Lemma parse_private_le fuel : parser_le (parse_private mem fuel).
Proof.
  induction fuel as [|f IH]; intros s q s' OK E; simpl in E; [discriminate|].
  unfold parse_private_body, switch_then in E.
  lex_step E tok s1 L1.
  apply bind_Done in E. destruct E as ([fl s2] & E2 & E).
  apply parse_private_switch_le in E2;
    [| now apply parse_object_le | now apply parse_array_le | now rewrite L1].
  rewrite L1 in E2.
  destruct fl as [v|]; [finish|].
  unfold after_switch in E. lex_step E tok2 s3 L3.
  rewrite <- L3 in E2.
  destruct (negb (Json_Token_eqb tok2 Error_token)); finish.
Qed.

Lemma parse_le fuel p l len q s :
  pool_ok p -> parse mem fuel p l len = Done (q, s) -> pool_le p (pool s).
Proof. intros OK E. now apply parse_private_le in E. Qed.

End ParserPool.


Section PoolInvariant.
Context `{Host}.

Lemma pool_step_le p p' : pool_ok p -> pool_step p p' -> pool_le p p'.
Proof.
  intros OK St.
  inversion St as [init p1 q p2 E | q f p1 p2 E | mem fuel l len p1 q s E];
    subst.
  - exact (allocation_le _ _ _ _ OK E).
  - exact (update_at_le _ _ _ _ E).
  - exact (parse_le _ _ _ _ _ _ _ OK E).
Qed.

Lemma initialise_ok buffer k :
  0 <= k <= UINT_MAX -> k <= Z.of_nat (List.length buffer) ->
  pool_ok (initialise_json_pool (Some buffer) k).
Proof.
  intros R B. unfold pool_ok, initialise_json_pool. simpl.
  split; [lia|]. split; [lia|].
  intros slots E. inversion E.
  rewrite length_app, length_replicate, length_drop. lia.
Qed.

Lemma reachable_ok p0 p :
  pool_ok p0 -> rtc pool_step p0 p ->
  pool_ok p /\ json_pool_length p = json_pool_length p0
  /\ json_pool_size p0 <= json_pool_size p.
Proof.
  intros OK R. induction R as [p | p1 p2 p3 S R IH].
  - split; [assumption|]. split; [reflexivity | lia].
  - destruct (pool_step_le _ _ OK S) as (L & C & K).
    destruct (IH (K OK)) as (OK3 & L3 & C3).
    split; [assumption|]. split; [congruence | lia].
Qed.

Lemma handed_out_lookup n : forall c k i,
  0 <= c -> (i < n)%nat ->
  handed_out n c k !! i
  = Some (if c + Z.of_nat i <? k then Some (Z.to_nat c + i)%nat else null).
Proof.
  induction n as [|n IH]; intros c k i C I; [lia|].
  cbn [handed_out]. destruct (c <? k) eqn:L.
  - destruct i as [|i].
    + cbn [lookup list_lookup]. rewrite Nat2Z.inj_0, Z.add_0_r, L.
      f_equal. f_equal. lia.
    + change ((Some (Z.to_nat c) :: handed_out n (c + 1) k) !! S i)
        with (handed_out n (c + 1) k !! i).
      rewrite IH by lia.
      replace (c + 1 + Z.of_nat i) with (c + Z.of_nat (S i)) by lia.
      destruct (c + Z.of_nat (S i) <? k); [|reflexivity].
      f_equal. f_equal. lia.
  - destruct i as [|i].
    + cbn [lookup list_lookup]. now rewrite Nat2Z.inj_0, Z.add_0_r, L.
    + change ((null :: handed_out n c k) !! S i)
        with (handed_out n c k !! i).
      rewrite IH by lia.
      destruct (c + Z.of_nat i <? k) eqn:L1; [lia|].
      destruct (c + Z.of_nat (S i) <? k) eqn:L2; [|reflexivity].
      apply Z.ltb_lt in L2. apply Z.ltb_ge in L. lia.
Qed.

End PoolInvariant.

(** C6.  For a pool initialised with capacity K (on a buffer of at least
    K nodes): in every state reached by allocations, node updates and
    parses the capacity is K and the cursor json_pool_size lies between 0
    and K; no such operation lowers the cursor; a run of allocations hands
    out the slots 0, 1, .., K-1 in this order and null from the (K+1)-th
    call on, leaving the cursor at the number of calls or at K; and a
    pointer handed out in any reachable state is the slot at the old
    cursor, which is below K, while a failed allocation leaves the pool as
    it was. *)
Theorem pool_cursor_bounded `{Host} (buffer : list JSON) (K : Z) :
  0 <= K <= UINT_MAX ->
  K <= Z.of_nat (List.length buffer) ->
  let p0 := initialise_json_pool (Some buffer) K in
  (forall p, rtc pool_step p0 p ->
     json_pool_length p = K
     /\ 0 <= json_pool_size p <= K
     /\ forall p', pool_step p p' ->
          json_pool_size p <= json_pool_size p' <= K)
  /\ (forall inits, exists p,
        allocations inits p0 = Done (handed_out (List.length inits) 0 K, p)
        /\ json_pool_size p = Z.min (Z.of_nat (List.length inits)) K)
  /\ (forall n i, (i < n)%nat ->
        handed_out n 0 K !! i
        = Some (if Z.of_nat i <? K then Some i else null))
  /\ (forall p init q p',
        rtc pool_step p0 p -> allocation init p = Done (q, p') ->
        match q with
        | Some i => Z.of_nat i = json_pool_size p /\ Z.of_nat i < K
                    /\ json_pool_size p' = json_pool_size p + 1
        | None => p' = p
        end).
Proof.
  intros R B p0.
  pose proof (initialise_ok buffer K R B) as OK0. fold p0 in OK0.
  split; [|split; [|split]].
  - intros p Re. destruct (reachable_ok p0 p OK0 Re) as (OK & L & C).
    simpl in L, C. split; [exact L|].
    destruct OK as (R1 & R2 & S). split; [lia|].
    intros p' St.
    destruct (pool_step_le p p' (conj R1 (conj R2 S)) St) as (L' & C' & K').
    destruct (K' (conj R1 (conj R2 S))) as (R1' & _). lia.
  - intros inits.
    destruct (allocations_spec inits p0 _ OK0 eq_refl) as (p & E & S & _).
    exists p. split; [exact E | exact S].
  - intros n i I. rewrite handed_out_lookup by lia. reflexivity.
  - intros p init q p' Re E.
    destruct (reachable_ok p0 p OK0 Re) as (OK & L & C). simpl in L.
    pose proof (allocation_spec init p OK) as S.
    destruct (room p) eqn:Ro.
    + destruct S as (p'' & E' & S1 & S2 & _). rewrite E in E'.
      inversion E'; subst q p''.
      apply room_true in Ro. destruct Ro as (_ & _ & Lt).
      destruct OK as (R1 & _). split; [lia|]. split; [lia | exact S1].
    + rewrite E in S. inversion S. reflexivity.
Qed.

Lemma pool_cursor_bounded_witness :
  let p0 := ExampleHost.fresh_pool 2 in
  exists p,
    allocations (H := ExampleHost.host)
      [None; Some (set_tag Object_t); None] p0
    = Done ([Some 0%nat; Some 1%nat; null], p)
    /\ json_pool_size p = 2.
Proof.
  intros p0.
  destruct (pool_cursor_bounded (H := ExampleHost.host)
              (replicate 2 zero_node) 2) as (_ & A & _);
    [vm_compute; split; discriminate | vm_compute; discriminate |].
  destruct (A [None; Some (set_tag Object_t); None]) as (p & E & S).
  exists p. split; [exact E | exact S].
Defined.

(** ** More fuel does not change a result *)

Section Fuel.
Context `{Host}.
Variable mem : Z -> Z.

Ltac same_bind E :=
  match type of E with
  | (?r ≫= _) = Done _ =>
      let R := fresh "R" in
      destruct r as [[? ?]| |] eqn:R; simpl in E; try discriminate
  end.

Lemma parse_object_loop_mono pp pp' : parser_mono pp pp' ->
  forall n n' symcount object token, (n <= n')%nat ->
    parser_mono (parse_object_loop mem pp n symcount object token)
                (parse_object_loop mem pp' n' symcount object token).
Proof.
  intros M. induction n as [|n IH];
    intros n' symcount object token LE s r E; simpl in E; [discriminate|].
  destruct n' as [|n']; [lia|]. simpl.
  destruct (Json_Token_eqb token Error_token); [exact E|].
  destruct (Json_Token_eqb token Object_stop_token); [exact E|].
  destruct (negb (Json_Token_eqb token String_token)); [exact E|].
  destruct (get_symbol _ _ _) as [symbol [tbl sc]].
  destruct (lex _ _) as [tok s1].
  destruct (negb (Json_Token_eqb tok Colon_token)); [exact E|].
  same_bind E. rewrite (M _ _ R). simpl.
  match goal with v : ptr |- _ => destruct v as [v|]; [|exact E] end.
  destruct (method _ _ _) as [s3| |]; simpl in *; try discriminate.
  destruct (lex _ s3) as [tok2 s4].
  destruct (Json_Token_eqb tok2 Object_stop_token).
  { eapply IH; [lia | exact E]. }
  destruct (negb (Json_Token_eqb tok2 Comma_token)); [exact E|].
  destruct (lex _ s4) as [tok3 s5].
  eapply IH; [lia | exact E].
Qed.

Lemma parse_object_mono pp pp' n n' :
  parser_mono pp pp' -> (n <= n')%nat ->
  parser_mono (parse_object mem pp n) (parse_object mem pp' n').
Proof.
  intros M LE s r E. unfold parse_object in *.
  destruct (alloc new_object s) as [[object s1]| |]; simpl in *;
    try discriminate.
  destruct (lex _ s1) as [tok s2].
  eapply parse_object_loop_mono; eassumption.
Qed.

Lemma parse_array_loop_mono pp pp' : parser_mono pp pp' ->
  forall n n' array index, (n <= n')%nat ->
    parser_mono (parse_array_loop mem pp n array index)
                (parse_array_loop mem pp' n' array index).
Proof.
  intros M. induction n as [|n IH];
    intros n' array index LE s r E; simpl in E; [discriminate|].
  destruct n' as [|n']; [lia|]. simpl.
  same_bind E. rewrite (M _ _ R). simpl.
  match goal with v : ptr |- _ => destruct v as [v|]; [|exact E] end.
  destruct (method _ _ _) as [s3| |]; simpl in *; try discriminate.
  destruct (lex _ s3) as [tok2 s4].
  destruct (Json_Token_eqb tok2 Array_stop_token); [exact E|].
  destruct (negb (Json_Token_eqb tok2 Comma_token)); [exact E|].
  eapply IH; [lia | exact E].
Qed.

Lemma parse_array_mono pp pp' n n' :
  parser_mono pp pp' -> (n <= n')%nat ->
  parser_mono (parse_array mem pp n) (parse_array mem pp' n').
Proof.
  intros M LE s r E. unfold parse_array in *.
  destruct (alloc new_array s) as [[array s1]| |]; simpl in *;
    try discriminate.
  destruct (lex _ s1) as [closing s2].
  destruct closing; [exact E|].
  eapply parse_array_loop_mono; eassumption.
Qed.

Lemma switch_then_mono rest po po' pa pa' :
  parser_mono po po' -> parser_mono pa pa' ->
  parser_mono (switch_then mem rest po pa) (switch_then mem rest po' pa').
Proof.
  intros MO MA s r E. unfold switch_then, parse_private_switch in *.
  destruct (lex _ s) as [tok s1].
  destruct tok; try exact E.
  - destruct (po s1) as [[v s2]| |] eqn:R; simpl in E; try discriminate.
    now rewrite (MO _ _ R).
  - destruct (pa s1) as [[v s2]| |] eqn:R; simpl in E; try discriminate.
    now rewrite (MA _ _ R).
Qed.

Lemma parse_private_mono fuel : forall fuel', (fuel <= fuel')%nat ->
  parser_mono (parse_private mem fuel) (parse_private mem fuel').
Proof.
  induction fuel as [|f IH]; intros fuel' LE s r E; simpl in E;
    [discriminate|].
  destruct fuel' as [|f']; [lia|]. simpl.
  revert E. apply switch_then_mono.
  - apply parse_object_mono; [apply IH|]; lia.
  - apply parse_array_mono; [apply IH|]; lia.
Qed.

(** Enough fuel gives the result: a result obtained with some fuel is
    the result with any larger fuel. *)
Lemma parse_mono fuel fuel' p l len r :
  (fuel <= fuel')%nat ->
  parse mem fuel p l len = Done r -> parse mem fuel' p l len = Done r.
Proof. intros LE E. eapply parse_private_mono; eassumption. Qed.

End Fuel.

(** ** Running the parser on a given text *)

Section Execution.
Context `{Host}.

Lemma get_tag_set_tag g x : get_tag (set_tag g x) = tag_code g.
Proof.
  unfold get_tag, set_tag. simpl.
  rewrite Z.land_lor_distr_l, <- Z.land_assoc.
  change (Z.land (to_uint (Z.lnot 15)) 15) with 0.
  rewrite Z.land_0_r, Z.lor_0_l. now destruct g.
Qed.

Lemma get_tag_set_variant u x : get_tag (set_variant u x) = get_tag x.
Proof. reflexivity. Qed.

Lemma alloc_room init L slots len size x n :
  0 <= size < len -> len <= UINT_MAX ->
  n = Z.to_nat size -> slots !! n = Some x ->
  alloc (construct init) (mkState (mkPool (Some slots) len size) L)
  = Done (Some n,
          mkState (mkPool (Some (<[n := init (fresh x)]> slots)) len (size + 1))
                  L).
Proof.
  intros R U -> X. unfold alloc. simpl.
  erewrite construct_room; [| reflexivity | simpl; lia | exact X].
  simpl. rewrite to_uint_small by lia. reflexivity.
Qed.

Lemma alloc_full init p L :
  room p = false -> alloc (construct init) (mkState p L) = Done (null, mkState p L).
Proof. intros R. unfold alloc. simpl. now rewrite construct_full. Qed.

Lemma method_at i f L slots len size x y :
  slots !! i = Some x -> f x = Done y ->
  method (Some i) f (mkState (mkPool (Some slots) len size) L)
  = Done (mkState (mkPool (Some (<[i := y]> slots)) len size) L).
Proof.
  intros X F. unfold method. simpl.
  erewrite update_at_Some; [reflexivity | reflexivity | exact X | exact F].
Qed.

End Execution.

(** One step of the lexer on a state whose lexer is known.  The call is
    evaluated, except for the conversions left to the host; the memory,
    where it is only passed on, is kept as it was written. *)
Ltac run_lexer :=
  match goal with
  | |- context [lex (?g ?m) (mkState ?P ?L)] =>
      let r := eval cbv -[Lexer.text_at sscanf_u sscanf_d sscanf_f] in (g m L) in
      let m' := eval cbv -[Lexer.text_at sscanf_u sscanf_d sscanf_f] in m in
      let r' := eval pattern m' in r in
      match r' with
      | ?F _ =>
          let r'' := eval cbv beta in (F m) in
          change (lex (g m) (mkState P L))
            with (let (a, l) := r'' in (a, mkState P l));
          cbv beta iota
      end
  end.

Lemma parse_private_S `{Host} mem f s :
  parse_private mem (S f) s
  = parse_private_body mem (parse_object mem (parse_private mem f) f)
                           (parse_array mem (parse_private mem f) f) s.
Proof. reflexivity. Qed.

Lemma parse_object_eq `{Host} mem pp n s :
  parse_object mem pp n s
  = alloc new_object s
    ≫= λ '(object, s),
         let (token, s) := lex (Lexer.get_token mem) s in
         parse_object_loop mem pp n JSON_SYMBOL_BASE object token s.
Proof. reflexivity. Qed.

Lemma parse_array_eq `{Host} mem pp n s :
  parse_array mem pp n s
  = alloc new_array s
    ≫= λ '(array, s),
         let (closing, s) := lex (Lexer.end_of_array mem) s in
         if closing then Done (array, s)
         else parse_array_loop mem pp n array 0 s.
Proof. reflexivity. Qed.

(** Unfold the parser's control flow up to the next call. *)
Ltac parser_step :=
  try unfold parse_private_body; try unfold switch_then;
  cbn [parse_private_switch parse_object_loop parse_array_loop
       mbind result_bind Json_Token_eqb negb];
  rewrite ?parse_object_eq, ?parse_array_eq;
  cbn [parse_private_switch parse_object_loop parse_array_loop
       mbind result_bind Json_Token_eqb negb].

(** A pool with room, taken apart: its buffer, the bounds on its cursor
    and the slot under the cursor. *)
Ltac open_pool p OK R slots len size x X :=
  let P := fresh "P" in
  let L := fresh "L" in
  let jp := fresh "jp" in
  destruct (room_true p R) as (slots & P & L);
  destruct (slot_exists p slots OK P L) as (x & X);
  destruct p as [jp len size]; simpl in P, L, X; subst jp.

Lemma print_S `{Host} mem f p q :
  print mem (S f) p q = node_at p q ≫= print_body mem (print mem f p).
Proof. reflexivity. Qed.

(** C5.  With a free slot in the pool, parse of the two bytes of an empty
    object returns a non-null value with tag Object and a map without
    entries, and parse of the two bytes of an empty array a non-null value
    with tag Array and a map without entries.  print on either does not
    get as far as the closing text: before the traversal it evaluates
    AvlNode::last(tree)->get_value() for the tree without nodes, a member
    call through no node.  The same holds for every Object or Array node
    whose map has no entries. *)
Theorem print_of_empty_container `{Host}
    (behind : Z -> Z) (p : Pool) (l : Lexer.t) (fuel : nat) :
  pool_ok p -> room p = true -> (2 <= fuel)%nat ->
  let n := Z.to_nat (json_pool_size p) in
  (exists s node,
      parse (buffer [123; 125] behind) fuel p l 2 = Done (Some n, s)
      /\ node_at (pool s) (Some n) = Done node
      /\ get_tag node = tag_code Object_t
      /\ variant node = U_object []
      /\ forall mem f, print mem (S f) (pool s) (Some n) = Undefined)
  /\ (exists s node,
      parse (buffer [91; 93] behind) fuel p l 2 = Done (Some n, s)
      /\ node_at (pool s) (Some n) = Done node
      /\ get_tag node = tag_code Array_t
      /\ variant node = U_object []
      /\ forall mem f, print mem (S f) (pool s) (Some n) = Undefined)
  /\ (forall mem pr x,
        get_tag x = tag_code Object_t \/ get_tag x = tag_code Array_t ->
        variant x = U_object [] ->
        print_body mem pr x = Undefined).
Proof.
  intros OK R F n.
  assert (G : forall mem pr x,
            get_tag x = tag_code Object_t \/ get_tag x = tag_code Array_t ->
            variant x = U_object [] ->
            print_body mem pr x = Undefined).
  { intros mem pr x [T|T] V; unfold print_body, variant_object;
      rewrite T, V; reflexivity. }
  pose proof OK as ((R1 & _) & R2 & _).
  open_pool p OK R slots cap cur x X. simpl in R1, R2. subst n.
  simpl json_pool_size.
  destruct l as [tbl sc src0 len0 ts tl un sn fn rd].
  assert (N : forall q, (<[Z.to_nat cur := q]> slots) !! Z.to_nat cur = Some q)
    by (intros q; apply list_lookup_insert_eq; now apply lookup_lt_Some in X).
  split; [|split; [|exact G]].
  - eexists. eexists. split.
    { apply (parse_mono _ 2 fuel); [exact F|].
      unfold parse. rewrite parse_private_S. parser_step.
      run_lexer. parser_step. unfold new_object.
      erewrite alloc_room; [| lia | lia | reflexivity | exact X].
      parser_step. run_lexer. parser_step. reflexivity. }
    split; [unfold node_at; cbn [json_pool pool]; rewrite N; reflexivity|].
    split; [apply get_tag_set_tag|]. split; [reflexivity|].
    intros mem f. rewrite print_S. unfold node_at. cbn [json_pool pool].
    rewrite N. cbn [mbind result_bind].
    apply G; [left; apply get_tag_set_tag | reflexivity].
  - eexists. eexists. split.
    { apply (parse_mono _ 2 fuel); [exact F|].
      unfold parse. rewrite parse_private_S. parser_step.
      run_lexer. parser_step. unfold new_array.
      erewrite alloc_room; [| lia | lia | reflexivity | exact X].
      parser_step. run_lexer. parser_step. reflexivity. }
    split; [unfold node_at; cbn [json_pool pool]; rewrite N; reflexivity|].
    split; [apply get_tag_set_tag|]. split; [reflexivity|].
    intros mem f. rewrite print_S. unfold node_at. cbn [json_pool pool].
    rewrite N. cbn [mbind result_bind].
    apply G; [right; apply get_tag_set_tag | reflexivity].
Qed.

(** ** The lexer's cursor *)

Section LexerFacts.
Context `{Host}.
Variable mem : Z -> Z.

Lemma moved_refl l : moved 0 l l.
Proof. unfold moved. repeat split; lia. Qed.

Lemma moved_trans a b l1 l2 l3 :
  moved a l1 l2 -> moved b l2 l3 -> moved (a + b) l1 l3.
Proof.
  unfold moved.
  intros (?&?&?&?&?&?&?&?&?) (?&?&?&?&?&?&?&?&?).
  repeat split; try congruence; lia.
Qed.

Lemma peek_byte_spec l :
  fst (Lexer.peek_byte mem l) = current mem l
  /\ moved 0 l (snd (Lexer.peek_byte mem l)).
Proof.
  unfold Lexer.peek_byte, current, Lexer.deref.
  destruct (0 <? Lexer.length l); simpl.
  - rewrite Z.add_0_r. split; [reflexivity|].
    unfold moved. simpl. repeat split; lia.
  - split; [reflexivity | apply moved_refl].
Qed.

Lemma next_byte_spec l :
  0 < Lexer.length l -> moved 1 l (Lexer.next_byte l).
Proof.
  intros P. unfold Lexer.next_byte.
  destruct (0 <? Lexer.length l) eqn:E; [|lia].
  unfold moved. simpl. repeat split; lia.
Qed.

Lemma isspace_256 : isspace 256 = false.
Proof. reflexivity. Qed.

Lemma current_space l : isspace (current mem l) = true -> 0 < Lexer.length l.
Proof.
  unfold current. destruct (0 <? Lexer.length l) eqn:E; [lia|].
  rewrite isspace_256. discriminate.
Qed.


(** The whitespace loop stops at the first byte that is not white
    space, or at the end of the input. *)
Lemma while_isspace_spec n : forall l c,
  (Z.to_nat (Lexer.length l) <= n)%nat ->
  0 <= Lexer.length l ->
  c = current mem l ->
  exists k,
    0 <= k <= Lexer.length l
    /\ (forall j, 0 <= j < k -> isspace (mem (Lexer.src l + j)) = true)
    /\ moved k l (snd (Lexer.while_isspace mem n c l))
    /\ fst (Lexer.while_isspace mem n c l)
       = current mem (snd (Lexer.while_isspace mem n c l))
    /\ isspace (fst (Lexer.while_isspace mem n c l)) = false.
Proof.
  induction n as [|n IH]; intros l c B P0 C.
  - destruct (isspace c) eqn:W.
    + subst c. apply current_space in W. lia.
    + exists 0. simpl. rewrite W. simpl.
      split; [lia|]. split; [intros; lia|].
      split; [apply moved_refl|]. split; [exact C | exact W].
  - simpl. destruct (isspace c) eqn:W.
    + pose proof W as P. rewrite C in P. apply current_space in P.
      destruct (peek_byte_spec (Lexer.next_byte l)) as (C1 & M1).
      destruct (Lexer.peek_byte mem (Lexer.next_byte l)) as [c1 l1].
      simpl in C1, M1.
      pose proof (next_byte_spec l P) as M0.
      pose proof (moved_trans _ _ _ _ _ M0 M1) as M.
      assert (C1' : c1 = current mem l1).
      { rewrite C1. unfold current.
        destruct M1 as (S1 & L1 & _). rewrite S1, L1, Z.add_0_r, Z.sub_0_r.
        reflexivity. }
      assert (L1 : Lexer.length l1 = Lexer.length l - 1)
        by (destruct M as (_ & L & _); lia).
      destruct (IH l1 c1) as (k & K0 & Sp & Mk & Ck & Wk);
        [lia | lia | exact C1' |].
      exists (1 + 0 + k). split; [lia|]. split.
      { intros j J. destruct (Z.eq_dec j 0) as [->|NZ].
        - rewrite Z.add_0_r. unfold current in C.
          destruct (0 <? Lexer.length l) eqn:E; [|lia]. now rewrite <- C.
        - destruct M as (S & _). specialize (Sp (j - 1) ltac:(lia)).
          rewrite S in Sp.
          now replace (Lexer.src l + (1 + 0) + (j - 1))
            with (Lexer.src l + j) in Sp by lia. }
      split; [exact (moved_trans _ _ _ _ _ M Mk)|].
      split; [exact Ck | exact Wk].
    + exists 0. simpl.
      split; [lia|]. split; [intros; lia|].
      split; [apply moved_refl|]. split; [exact C | exact W].
Qed.

End LexerFacts.

Lemma print_of_empty_container_witness :
  exists s node,
    parse (H := ExampleHost.host) (buffer [123; 125] (fun _ => 0)) 2
          (ExampleHost.fresh_pool 1) ExampleHost.fresh_lexer 2
    = Done (Some 0%nat, s)
    /\ node_at (pool s) (Some 0%nat) = Done node
    /\ get_tag node = tag_code Object_t
    /\ variant node = U_object []
    /\ print (buffer [123; 125] (fun _ => 0)) 1 (pool s) (Some 0%nat)
       = Undefined.
Proof.
  destruct (print_of_empty_container (H := ExampleHost.host) (fun _ => 0)
              (ExampleHost.fresh_pool 1) ExampleHost.fresh_lexer 2)
    as ((s & node & E & N & T & V & P) & _).
  - apply initialise_ok; vm_compute; [split|]; discriminate.
  - reflexivity.
  - lia.
  - exists s, node. repeat split; try assumption. apply P.
Defined.



(** ** String tokens *)

Section StringFacts.
Context `{Host}.
Variable mem : Z -> Z.

Lemma get_string_loop_found k : forall n l,
  (k < n)%nat ->
  Z.of_nat k < Lexer.length l ->
  (forall j, 0 <= j < Z.of_nat k -> mem (Lexer.src l + j) <> 34) ->
  mem (Lexer.src l + Z.of_nat k) = 34 ->
  fst (Lexer.get_string_loop mem n l) = String_token
  /\ moved (Z.of_nat k + 1) (Lexer.set_token_len (Lexer.token_len l + Z.of_nat k) l)
           (snd (Lexer.get_string_loop mem n l)).
Proof.
induction k as [|k IH]; intros n l N L Before At.
- destruct n as [|n]; [lia|]. simpl.
  destruct (0 <? Lexer.length l) eqn:E; [|lia].
  change (Z.of_nat 0) with 0 in At. rewrite At. simpl.
  split; [reflexivity|]. unfold moved. simpl. repeat split; lia.
- destruct n as [|n]; [lia|]. simpl.
  destruct (0 <? Lexer.length l) eqn:E; [|lia].
  destruct (mem (Lexer.src l + 0) =? 34) eqn:Q.
  { exfalso. apply (Before 0); [lia|]. lia. }
  match goal with
  | |- context [Lexer.get_string_loop mem n ?l1] =>
      destruct (IH n l1) as (T & M)
  end.
  + lia.
  + simpl. lia.
  + simpl. intros j J.
    replace (Lexer.src l + 1 + j) with (Lexer.src l + (j + 1)) by lia.
    apply Before. lia.
  + simpl.
    replace (Lexer.src l + 1 + Z.of_nat k)
      with (Lexer.src l + Z.of_nat (S k)) by lia.
    exact At.
  + split; [exact T|]. revert M. unfold moved. simpl.
    intros (?&?&?&?&?&?&?&?&?). repeat split; try assumption; lia.
Qed.

Lemma get_string_loop_missing n : forall l,
  (forall j, 0 <= j < Lexer.length l -> mem (Lexer.src l + j) <> 34) ->
  fst (Lexer.get_string_loop mem n l) = Error_token.
Proof.
induction n as [|n IH]; intros l No; [reflexivity|]. simpl.
destruct (0 <? Lexer.length l) eqn:E; [|reflexivity].
destruct (mem (Lexer.src l + 0) =? 34) eqn:Q.
{ exfalso. apply (No 0); lia. }
apply IH. simpl. intros j J.
replace (Lexer.src l + 1 + j) with (Lexer.src l + (j + 1)) by lia.
apply No. lia.
Qed.

End StringFacts.

(** C7, as stated, fails: in the six bytes quote, a, backslash, quote, b,
    quote the token ends at the quote that follows the backslash.  Its
    length is 2, not 4, and the byte that ended it is preceded by a
    backslash. *)
Lemma escaped_quote_ends_string :
  let text := [34; 97; 92; 34; 98; 34] in
  let r := Lexer.get_token (H := ExampleHost.host) (terminated text)
             (Lexer.set_length 6 ExampleHost.fresh_lexer) in
  fst r = String_token
  /\ Lexer.token_src (snd r) = 1
  /\ Lexer.token_len (snd r) = 2
  /\ unescaped_quote_offset (tl text) 34 0 = Some 4
  /\ terminated text (Lexer.token_src (snd r) + Lexer.token_len (snd r)) = 34
  /\ terminated text (Lexer.token_src (snd r) + Lexer.token_len (snd r) - 1)
     = 92.
Proof. vm_compute. repeat split; reflexivity. Qed.

(** C7, amended.  get_string, called with the cursor on the opening
    quote, returns a String token whose (token_src, token_len) view covers
    exactly the bytes between the opening quote and the first quote byte
    after it, whether or not a backslash precedes that quote; the view is
    a pair of offsets into the input, the cursor stops behind the closing
    quote and nothing else in the lexer changes.  If the input ends before
    a quote is found, get_string returns the Error token. *)
Theorem get_string_stops_at_first_quote `{Host} (mem : Z -> Z) (l : Lexer.t) :
  0 < Lexer.length l ->
  let r := Lexer.get_string mem l in
  (forall k,
      0 <= k < Lexer.length l - 1 ->
      (forall j, 0 <= j < k -> mem (Lexer.src l + 1 + j) <> 34) ->
      mem (Lexer.src l + 1 + k) = 34 ->
      fst r = String_token
      /\ Lexer.token_src (snd r) = Lexer.src l + 1
      /\ Lexer.token_len (snd r) = k
      /\ Lexer.src (snd r) = Lexer.src l + 1 + k + 1
      /\ Lexer.length (snd r) = Lexer.length l - 1 - k - 1
      /\ Lexer.table (snd r) = Lexer.table l
      /\ Lexer.unsigned_num (snd r) = Lexer.unsigned_num l
      /\ Lexer.signed_num (snd r) = Lexer.signed_num l
      /\ Lexer.float_num (snd r) = Lexer.float_num l)
  /\ ((forall j, 0 <= j < Lexer.length l - 1 ->
                 mem (Lexer.src l + 1 + j) <> 34) ->
      fst r = Error_token).
Proof.
intros P r. subst r. unfold Lexer.get_string.
pose proof (next_byte_spec l P) as M0.
remember (Lexer.next_byte l) as l1 eqn:Hl1. clear Hl1.
assert (S1 : Lexer.src l1 = Lexer.src l + 1) by (destruct M0 as (S & _); lia).
assert (L1 : Lexer.length l1 = Lexer.length l - 1)
  by (destruct M0 as (_ & L & _); lia).
remember (Lexer.set_token_len 0 (Lexer.set_token_src (Lexer.src l1) l1))
  as l2 eqn:Hl2.
assert (F2 : Lexer.src l2 = Lexer.src l1
             /\ Lexer.length l2 = Lexer.length l1
             /\ Lexer.table l2 = Lexer.table l1
             /\ Lexer.unsigned_num l2 = Lexer.unsigned_num l1
             /\ Lexer.signed_num l2 = Lexer.signed_num l1
             /\ Lexer.float_num l2 = Lexer.float_num l1
             /\ Lexer.token_src l2 = Lexer.src l1
             /\ Lexer.token_len l2 = 0).
{ subst l2. simpl. repeat split. }
clear Hl2. destruct F2 as (S2' & L2' & Tb2 & Un2 & Sn2 & Fn2 & Ts2 & Tl2).
assert (S2 : Lexer.src l2 = Lexer.src l + 1) by lia.
assert (L2 : Lexer.length l2 = Lexer.length l - 1) by lia.
split.
- intros k K Before At.
  destruct (get_string_loop_found mem (Z.to_nat k)
              (Z.to_nat (Lexer.length l2)) l2) as (T & M).
  + lia.
  + lia.
  + intros j J. rewrite S2. apply Before. lia.
  + rewrite S2, Z2Nat.id by lia. exact At.
  + split; [exact T|]. revert M. unfold moved. rewrite Z2Nat.id by lia.
    intros (Sr & Lr & Tb & _ & Ts & Tl & Un & Sn & Fn).
    destruct M0 as (_ & _ & Tb0 & _ & _ & _ & Un0 & Sn0 & Fn0).
    simpl in Sr, Lr, Tb, Ts, Tl, Un, Sn, Fn.
    repeat split; try lia; congruence.
- intros No. apply get_string_loop_missing.
  intros j J. rewrite S2. apply No. lia.
Qed.

Lemma get_string_stops_at_first_quote_witness :
  let mem := terminated [34; 97; 92; 34; 98; 34] in
  let r := Lexer.get_string (H := ExampleHost.host) mem
             (Lexer.set_length 6 ExampleHost.fresh_lexer) in
  fst r = String_token
  /\ Lexer.token_src (snd r) = 1
  /\ Lexer.token_len (snd r) = 2.
Proof.
intros mem r.
destruct (get_string_stops_at_first_quote (H := ExampleHost.host) mem
            (Lexer.set_length 6 ExampleHost.fresh_lexer)) as (A & _).
- vm_compute. reflexivity.
- destruct (A 2) as (T & S & L & _).
  + vm_compute. split; [discriminate | reflexivity].
  + intros j J. assert (j = 0 \/ j = 1) as [-> | ->] by lia;
      vm_compute; discriminate.
  + reflexivity.
  + repeat split; assumption.
Defined.

(** ** The statements after the switch *)

Section SwitchFacts.
Context `{Host}.

Lemma switch_returns po pa token s s' :
  parse_private_switch po pa token s <> Done (Fallthrough, s').
Proof.
unfold parse_private_switch.
destruct token; try discriminate;
  match goal with
  | |- (?r ≫= _) <> _ => destruct r as [[v s1]| |]; simpl; discriminate
  end.
Qed.

Lemma switch_then_any_rest mem rest rest' po pa s :
  switch_then mem rest po pa s = switch_then mem rest' po pa s.
Proof.
unfold switch_then. destruct (lex (Lexer.get_token mem) s) as [token s1].
pose proof (switch_returns po pa token s1) as N.
destruct (parse_private_switch po pa token s1) as [[[v|] s2]| |];
  try reflexivity.
now destruct (N s2).
Qed.

Lemma scalar_keeps_lexer mem fuel s q s' :
  parse_private mem (S fuel) s = Done (q, s') ->
  scalar_token (fst (Lexer.get_token mem (lexer s))) = true ->
  lexer s' = snd (Lexer.get_token mem (lexer s)).
Proof.
rewrite parse_private_S. unfold parse_private_body, switch_then, lex.
destruct (Lexer.get_token mem (lexer s)) as [token l1]. simpl.
intros E Sc. apply bind_Done in E. destruct E as ([fl s2] & E1 & E).
unfold parse_private_switch in E1.
destruct token; try discriminate;
  apply bind_Done in E1; destruct E1 as ([v s3] & E1 & E2);
  apply alloc_Done in E1; destruct E1 as (_ & E1);
  inversion E2; subst; inversion E; subst; exact E1.
Qed.

End SwitchFacts.

(** C3.  Every case of the switch in parse_private returns, so control
    never reaches the second token read and the test written after it:
    parse_private is the first token read followed by the switch, whatever
    statements follow the switch.  Hence a top-level value followed by
    other bytes is returned as that value and those bytes are not looked
    at: after a scalar token the lexer is left exactly as the first token
    read left it, and for the texts made of the literal true, a space and
    an x, and of an empty object and an x, parse returns the Boolean,
    respectively the Object, with the cursor behind the value. *)
Theorem after_switch_unreachable `{Host} :
  (forall po pa token s s',
      parse_private_switch po pa token s <> Done (Fallthrough, s'))
  /\ (forall mem rest fuel s,
        parse_private mem (S fuel) s
        = switch_then mem rest
            (parse_object mem (parse_private mem fuel) fuel)
            (parse_array mem (parse_private mem fuel) fuel) s)
  /\ (forall mem fuel s q s',
        parse_private mem (S fuel) s = Done (q, s') ->
        scalar_token (fst (Lexer.get_token mem (lexer s))) = true ->
        lexer s' = snd (Lexer.get_token mem (lexer s)))
  /\ (forall behind p l fuel,
        pool_ok p -> room p = true -> (2 <= fuel)%nat ->
        let n := Z.to_nat (json_pool_size p) in
        (exists s node,
            parse (buffer [116; 114; 117; 101; 32; 120] behind) fuel p l 6
            = Done (Some n, s)
            /\ node_at (pool s) (Some n) = Done node
            /\ get_tag node = tag_code Boolean_t
            /\ variant node = U_truth true
            /\ Lexer.src (lexer s) = 4
            /\ Lexer.reads (lexer s) = [3; 2; 1; 0] ++ Lexer.reads l)
        /\ (exists s node,
            parse (buffer [123; 125; 120] behind) fuel p l 3
            = Done (Some n, s)
            /\ node_at (pool s) (Some n) = Done node
            /\ get_tag node = tag_code Object_t
            /\ variant node = U_object []
            /\ Lexer.src (lexer s) = 2
            /\ Lexer.reads (lexer s) = [1; 0] ++ Lexer.reads l)).
Proof.
split; [exact switch_returns|].
split; [intros; rewrite parse_private_S; apply switch_then_any_rest|].
split; [exact scalar_keeps_lexer|].
intros behind p l fuel OK R F n.
pose proof OK as ((R1 & _) & R2 & _).
open_pool p OK R slots cap cur x X. simpl in R1, R2. subst n.
simpl json_pool_size.
destruct l as [tbl sc src0 len0 ts tl un sn fn rd].
assert (N : forall q, (<[Z.to_nat cur := q]> slots) !! Z.to_nat cur = Some q)
  by (intros q; apply list_lookup_insert_eq; now apply lookup_lt_Some in X).
split.
- eexists. eexists. split.
  { apply (parse_mono _ 2 fuel); [exact F|].
    unfold parse. rewrite parse_private_S. parser_step.
    run_lexer. parser_step. unfold new_boolean.
    erewrite alloc_room; [| lia | lia | reflexivity | exact X].
    parser_step. reflexivity. }
  unfold node_at. cbn [pool lexer json_pool Lexer.src Lexer.reads].
  rewrite N. split; [reflexivity|]. split; [apply get_tag_set_tag|].
  repeat split; reflexivity.
- eexists. eexists. split.
  { apply (parse_mono _ 2 fuel); [exact F|].
    unfold parse. rewrite parse_private_S. parser_step.
    run_lexer. parser_step. unfold new_object.
    erewrite alloc_room; [| lia | lia | reflexivity | exact X].
    parser_step. run_lexer. parser_step. reflexivity. }
  unfold node_at. cbn [pool lexer json_pool Lexer.src Lexer.reads].
  rewrite N. split; [reflexivity|]. split; [apply get_tag_set_tag|].
  repeat split; reflexivity.
Qed.

Lemma after_switch_unreachable_witness :
  (exists s,
      parse (H := ExampleHost.host) (buffer [116; 114; 117; 101; 32; 120] (fun _ => 0)) 2
            (ExampleHost.fresh_pool 1) ExampleHost.fresh_lexer 6
      = Done (Some 0%nat, s)
      /\ Lexer.src (lexer s) = 4)
  /\ forall q s',
       parse_private (H := ExampleHost.host) (terminated [49; 32; 120]) 1
         (mkState (ExampleHost.fresh_pool 1)
                  (Lexer.set_length 3 ExampleHost.fresh_lexer))
       = Done (q, s') ->
       Lexer.src (lexer s') = 1.
Proof.
destruct (after_switch_unreachable (H := ExampleHost.host))
  as (_ & _ & Sc & Ex).
split.
- destruct (Ex (fun _ => 0) (ExampleHost.fresh_pool 1)
               ExampleHost.fresh_lexer 2%nat)
    as ((s & node & E & _ & _ & _ & S & _) & _).
  + apply initialise_ok; vm_compute; [split|]; discriminate.
  + reflexivity.
  + lia.
  + exists s. split; assumption.
- intros q s' E. rewrite (Sc _ _ _ _ _ E); reflexivity.
Defined.

(** ** Allocation inside a run of the parser *)

Section ExecutionCases.
Context `{Host}.

Lemma alloc_room_ex init L slots len cur :
  0 <= cur < len -> len <= UINT_MAX -> len <= Z.of_nat (List.length slots) ->
  exists x,
    slots !! Z.to_nat cur = Some x
    /\ alloc (construct init) (mkState (mkPool (Some slots) len cur) L)
       = Done (Some (Z.to_nat cur),
               mkState (mkPool (Some (<[Z.to_nat cur := init (fresh x)]> slots))
                               len (cur + 1)) L).
Proof.
intros R U S.
destruct (lookup_lt_is_Some_2 slots (Z.to_nat cur)) as (x & X); [lia|].
exists x. split; [exact X|]. now apply alloc_room.
Qed.

Lemma alloc_exhausted init L slots len cur :
  len <= cur ->
  alloc (construct init) (mkState (mkPool (Some slots) len cur) L)
  = Done (null, mkState (mkPool (Some slots) len cur) L).
Proof.
intros F. apply alloc_full. unfold room. simpl. apply Z.ltb_ge. lia.
Qed.

Lemma method_insert_array_item i index value L slots len cur y t :
  slots !! i = Some y ->
  get_tag y = tag_code Array_t -> variant y = U_object t ->
  method (Some i) (insert_array_item index value)
         (mkState (mkPool (Some slots) len cur) L)
  = Done (mkState
            (mkPool (Some (<[i := set_variant
                                    (U_object (AvlNode.insert_key t (item_key index) value))
                                    y]> slots))
                    len cur) L).
Proof.
intros X T V. apply method_at with (x := y); [exact X|].
now apply insert_array_item_array.
Qed.

End ExecutionCases.

(** An allocation in a pool known to have room, or known to be full. *)
Ltac alloc_yes x X :=
  match goal with
  | |- context [alloc (construct ?i) (mkState (mkPool (Some ?sl) ?cap ?c) ?L)] =>
      let E := fresh "E" in
      destruct (alloc_room_ex i L sl cap c) as (x & X & E);
      [lia | lia | rewrite ?length_insert; lia | rewrite E; clear E]
  end.

Ltac alloc_no :=
  match goal with
  | |- context [alloc (construct ?i) (mkState (mkPool (Some ?sl) ?cap ?c) ?L)] =>
      rewrite (alloc_exhausted i L sl cap c) by lia
  end.

Lemma alloc_total `{Host} init p L :
  pool_ok p ->
  exists q p', alloc (construct init) (mkState p L) = Done (q, mkState p' L)
               /\ pool_ok p'.
Proof.
intros OK. pose proof (allocation_spec (Some init) p OK) as A.
unfold alloc. simpl in *. destruct (room p).
- destruct A as (p' & E & _ & _ & OK'). rewrite E. simpl. eauto.
- rewrite A. simpl. eauto.
Qed.

Ltac alloc_any q p' OK' :=
  match goal with
  | OK : pool_ok ?P |- context [alloc (construct ?i) (mkState ?P ?L)] =>
      let E := fresh "E" in
      destruct (alloc_total i P L OK) as (q & p' & E & OK');
      rewrite E; clear E
  end.

(** The result of a conversion by sscanf, whatever it is. *)
Ltac any_scan :=
  match goal with
  | |- context [sscanf_u ?t] => destruct (sscanf_u t)
  | |- context [sscanf_d ?t] => destruct (sscanf_d t)
  | |- context [sscanf_f ?t] => destruct (sscanf_f t)
  end.

(** Evaluate a parse whose arguments are all known.  Only the call is
    evaluated: the type of its result mentions the host, whose functions
    have no small normal form. *)
Ltac run_parse :=
  match goal with
  | |- context [parse ?m ?f ?p ?l ?n] =>
      let v := eval vm_compute in (parse m f p l n) in
      change (parse m f p l n) with v
  end.

(** ** Malformed texts *)

(** C2, as stated, fails: parse of the five bytes 1.2.3 returns a non-null
    value, a Float node, when the pool has a free slot. *)
Lemma second_decimal_point_accepted :
  exists s node,
    parse (H := ExampleHost.host) (terminated [49; 46; 50; 46; 51]) 1
          (ExampleHost.fresh_pool 1) ExampleHost.fresh_lexer 5
    = Done (Some 0%nat, s)
    /\ node_at (pool s) (Some 0%nat) = Done node
    /\ get_tag node = tag_code Float_t
    /\ Lexer.src (lexer s) = 3.
Proof.
run_parse. eexists. eexists.
split; [reflexivity|]. split; [reflexivity|]. split; reflexivity.
Qed.

Lemma parse_enough `{Host} mem fuel0 fuel p l len q :
  (fuel0 <= fuel)%nat ->
  (exists s, parse mem fuel0 p l len = Done (q, s)) ->
  exists s, parse mem fuel p l len = Done (q, s).
Proof.
intros LE (s & E). exists s. now apply (parse_mono _ fuel0 fuel).
Qed.

(** C2, amended.  Each of the three inputs made of an object whose only
    property has no value, of an array cut off after its second element,
    and of the three letters tru is rejected by parse: it returns null.
    The input 1.2.3 is not rejected: the lexer ends the number token in
    front of the second decimal point and parse returns a Float node
    without looking at the rest, unless the pool has no free slot, when
    it returns null as every construction does. *)
Theorem malformed_inputs `{Host}
    (behind : Z -> Z) (p : Pool) (l : Lexer.t) (fuel : nat) :
  pool_ok p -> (3 <= fuel)%nat ->
  (exists s,
      parse (buffer [123; 34; 97; 34; 58; 125] behind) fuel p l 6
      = Done (null, s))
  /\ (exists s,
      parse (buffer [91; 49; 44; 50] behind) fuel p l 4 = Done (null, s))
  /\ (exists s,
      parse (buffer [116; 114; 117] behind) fuel p l 3 = Done (null, s))
  /\ (if room p then
        exists s node,
          parse (buffer [49; 46; 50; 46; 51] behind) fuel p l 5
          = Done (Some (Z.to_nat (json_pool_size p)), s)
          /\ node_at (pool s) (Some (Z.to_nat (json_pool_size p))) = Done node
          /\ get_tag node = tag_code Float_t
          /\ Lexer.src (lexer s) = 3
          /\ Lexer.token_src (lexer s) = 0
      else
        exists s,
          parse (buffer [49; 46; 50; 46; 51] behind) fuel p l 5
          = Done (null, s)).
Proof.
intros OK F.
destruct l as [tbl sc src0 len0 ts tl un sn fn rd].
split; [|split; [|split]].
- apply (parse_enough _ 2 fuel); [lia|].
  unfold parse. rewrite parse_private_S. parser_step.
  run_lexer. parser_step. unfold new_object. alloc_any q p' OK'.
  parser_step. run_lexer. parser_step. cbn [lexer pool Lexer.table].
  destruct (get_symbol _ _ _) as [symbol [tbl' sc']].
  run_lexer. parser_step. rewrite parse_private_S. parser_step.
  run_lexer. parser_step. eexists. reflexivity.
- destruct (room p) eqn:R.
  + pose proof OK as ((R1 & _) & R2 & Sl).
    open_pool p OK R slots cap cur x X. simpl in R1, R2, Sl.
    specialize (Sl _ eq_refl). clear x X.
    apply (parse_enough _ 3 fuel); [lia|].
    unfold parse. rewrite parse_private_S. parser_step.
    run_lexer. parser_step. unfold new_array. alloc_yes x X.
    parser_step. run_lexer. parser_step.
    rewrite parse_private_S. parser_step. run_lexer. any_scan.
    all: parser_step; unfold new_unsigned.
    all: destruct (Z_lt_dec (cur + 1) cap) as [Lt1|Ge1];
      [alloc_yes x1 X1 | alloc_no; parser_step; eexists; reflexivity].
    all: parser_step.
    all: erewrite method_insert_array_item;
      [| rewrite list_lookup_insert_ne by lia;
         apply list_lookup_insert_eq; lia
       | apply get_tag_set_tag | reflexivity].
    all: parser_step; run_lexer; parser_step.
    all: rewrite parse_private_S; parser_step; run_lexer; any_scan.
    all: parser_step; unfold new_unsigned.
    all: destruct (Z_lt_dec (cur + 1 + 1) cap) as [Lt2|Ge2];
      [alloc_yes x2 X2 | alloc_no; parser_step; eexists; reflexivity].
    all: parser_step.
    all: erewrite method_insert_array_item;
      [| rewrite list_lookup_insert_ne by lia;
         apply list_lookup_insert_eq; rewrite ?length_insert; lia
       | apply get_tag_set_tag | reflexivity].
    all: parser_step; run_lexer; parser_step; eexists; reflexivity.
  + apply (parse_enough _ 3 fuel); [lia|].
    unfold parse. rewrite parse_private_S. parser_step.
    run_lexer. parser_step. unfold new_array.
    rewrite alloc_full by exact R.
    parser_step. run_lexer. parser_step.
    rewrite parse_private_S. parser_step. run_lexer. any_scan.
    all: parser_step; unfold new_unsigned; rewrite alloc_full by exact R.
    all: parser_step; eexists; reflexivity.
- apply (parse_enough _ 1 fuel); [lia|].
  unfold parse. rewrite parse_private_S. parser_step.
  run_lexer. parser_step. eexists. reflexivity.
- destruct (room p) eqn:R.
  + pose proof OK as ((R1 & _) & R2 & Sl).
    open_pool p OK R slots cap cur x X. simpl in R1, R2, Sl.
    simpl json_pool_size.
    assert (N : forall q, (<[Z.to_nat cur := q]> slots) !! Z.to_nat cur
                          = Some q)
      by (intros q; apply list_lookup_insert_eq; now apply lookup_lt_Some in X).
    assert (E : exists s,
      parse (buffer [49; 46; 50; 46; 51] behind) 1
            (mkPool (Some slots) cap cur)
            (Lexer.mk tbl sc src0 len0 ts tl un sn fn rd) 5
      = Done (Some (Z.to_nat cur), s)
      /\ (exists node, node_at (pool s) (Some (Z.to_nat cur)) = Done node
                       /\ get_tag node = tag_code Float_t)
      /\ Lexer.src (lexer s) = 3 /\ Lexer.token_src (lexer s) = 0).
    { unfold parse. rewrite parse_private_S. parser_step.
      run_lexer. any_scan.
      all: parser_step; unfold new_float.
      all: erewrite alloc_room; [| lia | lia | reflexivity | exact X].
      all: parser_step; eexists; split; [reflexivity|].
      all: unfold node_at;
        cbn [pool lexer json_pool Lexer.src Lexer.token_src]; rewrite N.
      all: split; [eexists; split; [reflexivity | apply get_tag_set_tag]|].
      all: split; reflexivity. }
    destruct E as (s & E & (node & Nd & T) & S & Ts).
    exists s, node. split; [|auto].
    apply (parse_mono _ 1 fuel); [lia | exact E].
  + apply (parse_enough _ 1 fuel); [lia|].
    unfold parse. rewrite parse_private_S. parser_step.
    run_lexer. any_scan.
    all: parser_step; unfold new_float; rewrite alloc_full by exact R.
    all: parser_step; eexists; reflexivity.
Qed.

Lemma malformed_inputs_witness :
  (exists s,
      parse (H := ExampleHost.host) (buffer [123; 34; 97; 34; 58; 125] (fun _ => 0)) 3
            (ExampleHost.fresh_pool 1) ExampleHost.fresh_lexer 6
      = Done (null, s))
  /\ (exists s,
      parse (H := ExampleHost.host) (buffer [91; 49; 44; 50] (fun _ => 0)) 3
            (ExampleHost.fresh_pool 1) ExampleHost.fresh_lexer 4
      = Done (null, s))
  /\ (exists s,
      parse (H := ExampleHost.host) (buffer [116; 114; 117] (fun _ => 0)) 3
            (ExampleHost.fresh_pool 1) ExampleHost.fresh_lexer 3
      = Done (null, s)).
Proof.
destruct (malformed_inputs (H := ExampleHost.host) (fun _ => 0)
            (ExampleHost.fresh_pool 1) ExampleHost.fresh_lexer 3)
  as (A & B & C & _).
- apply initialise_ok; vm_compute; [split|]; discriminate.
- lia.
- split; [exact A|]. split; [exact B | exact C].
Defined.

(** ** Reads behind the buffer *)

(** C1 at the failing inputs.  On the four bytes of the literal null,
    with length 4, get_token returns the Null token and leaves the cursor
    at offset 4 with the length counter at 8 instead of 0; the next
    peek_byte therefore dereferences offset 4, the first byte behind the
    buffer.  Within one parse: on the five bytes of an opening bracket
    followed by null, with length 5, the token read that follows the
    literal dereferences offset 5. *)
Theorem keyword_adds_to_length `{Host} (behind : Z -> Z) (l : Lexer.t) :
  let mem := buffer [110; 117; 108; 108] behind in
  let r := Lexer.get_token mem (Lexer.set_length 4 (Lexer.set_src 0 l)) in
  fst r = Null_token
  /\ Lexer.src (snd r) = 4
  /\ Lexer.length (snd r) = 8
  /\ Lexer.reads (snd r) = [3; 2; 1; 0] ++ Lexer.reads l
  /\ fst (Lexer.peek_byte mem (snd r)) = behind 0
  /\ Lexer.reads (snd (Lexer.peek_byte mem (snd r)))
     = [4; 3; 2; 1; 0] ++ Lexer.reads l
  /\ exists s,
       parse (H := ExampleHost.host) (terminated [91; 110; 117; 108; 108]) 3
             (ExampleHost.fresh_pool 2) ExampleHost.fresh_lexer 5
       = Done (null, s)
       /\ Lexer.reads (lexer s) = [5; 4; 3; 2; 1; 1; 0]
       /\ Lexer.length (lexer s) = 8.
Proof.
intros mem r. subst mem r.
destruct l as [tbl sc src0 len0 ts tl un sn fn rd].
split; [vm_compute; reflexivity|].
split; [vm_compute; reflexivity|].
split; [vm_compute; reflexivity|].
split; [vm_compute; reflexivity|].
split; [vm_compute; reflexivity|].
split; [vm_compute; reflexivity|].
run_parse. eexists. split; [reflexivity|]. split; reflexivity.
Qed.

(** ** Printing the members of a container *)

Section PrintFacts.
Context `{Host}.

Lemma ptr_eqb_eq a b : ptr_eqb a b = true <-> a = b.
Proof.
destruct a as [i|], b as [j|]; simpl; split; intros E;
  try discriminate; try reflexivity.
- apply Nat.eqb_eq in E. now subst.
- inversion E. apply Nat.eqb_refl.
Qed.

Lemma separator_nil context value :
  separator context value = [] <-> value = context.
Proof.
unfold separator. destruct (ptr_eqb value context) eqn:E; simpl.
- apply ptr_eqb_eq in E. now split.
- split; [discriminate|]. intros ->.
  assert (T : ptr_eqb context context = true) by now apply ptr_eqb_eq.
  congruence.
Qed.

Lemma print_name_value_eq (pr : printer) o context k v acc :
  pr v = Done (o v) ->
  print_name_value pr k v context acc
  = Done (acc ++ member true o context (k, v)).
Proof.
intros P. unfold print_name_value, member, separator. rewrite P.
cbn [mbind result_bind fst snd].
destruct (negb (ptr_eqb v context)); f_equal;
  rewrite <- ?app_assoc; cbn [app]; rewrite ?app_nil_r; reflexivity.
Qed.

Lemma print_array_item_eq (pr : printer) o context k v acc :
  pr v = Done (o v) ->
  print_array_item pr k v context acc
  = Done (acc ++ member false o context (k, v)).
Proof.
intros P. unfold print_array_item, member, separator. rewrite P.
cbn [mbind result_bind fst snd].
destruct (negb (ptr_eqb v context)); f_equal;
  rewrite <- ?app_assoc; cbn [app]; rewrite ?app_nil_r; reflexivity.
Qed.

Lemma apply_name_value (pr : printer) o context t : forall acc,
  (forall k v, In (k, v) t -> pr v = Done (o v)) ->
  AvlNode.apply t (print_name_value pr) context acc
  = Done (acc ++ flat_map (member true o context) t).
Proof.
induction t as [|[k v] t IH]; intros acc P; cbn [AvlNode.apply flat_map].
- now rewrite app_nil_r.
- rewrite (print_name_value_eq pr o) by (apply (P k v); now left).
  cbn [mbind result_bind].
  rewrite IH by (intros k' v' I; apply (P k' v'); now right).
  now rewrite <- app_assoc.
Qed.

Lemma apply_array_item (pr : printer) o context t : forall acc,
  (forall k v, In (k, v) t -> pr v = Done (o v)) ->
  AvlNode.apply t (print_array_item pr) context acc
  = Done (acc ++ flat_map (member false o context) t).
Proof.
induction t as [|[k v] t IH]; intros acc P; cbn [AvlNode.apply flat_map].
- now rewrite app_nil_r.
- rewrite (print_array_item_eq pr o) by (apply (P k v); now left).
  cbn [mbind result_bind].
  rewrite IH by (intros k' v' I; apply (P k' v'); now right).
  now rewrite <- app_assoc.
Qed.

Lemma ascending_tail e t : ascending (e :: t) = true -> ascending t = true.
Proof.
destruct e as [k v]. cbn [ascending]. destruct t as [|[k' v'] t];
  [reflexivity|]. intros A. apply andb_true_iff in A. tauto.
Qed.

Lemma ascending_head k v t k' v' :
  ascending ((k, v) :: t) = true -> In (k', v') t -> k < k'.
Proof.
revert k v. induction t as [|[k1 v1] t IH]; intros k v A I; [destruct I|].
cbn [ascending] in A. apply andb_true_iff in A. destruct A as (A1 & A2).
destruct I as [I|I].
- inversion I; subst. lia.
- specialize (IH k1 v1 A2 I). lia.
Qed.

Lemma ascending_cons k v t :
  ascending t = true -> (forall k' v', In (k', v') t -> k < k') ->
  ascending ((k, v) :: t) = true.
Proof.
intros A B. destruct t as [|[k1 v1] t]; [reflexivity|].
change (((k <? k1) && ascending ((k1, v1) :: t)) = true).
rewrite A. assert (k < k1) by (apply (B k1 v1); now left).
apply andb_true_iff. split; [lia | reflexivity].
Qed.

Lemma insert_key_In_inv t key value k v :
  In (k, v) (AvlNode.insert_key t key value) ->
  (k, v) = (key, value) \/ In (k, v) t.
Proof.
induction t as [|[k1 v1] t IH]; cbn [AvlNode.insert_key].
- intros [I|[]]. now left.
- destruct (key <? k1).
  + intros [I|I]; [now left | now right].
  + destruct (key =? k1).
    * intros [I|I]; [now left | right; now right].
    * intros [I|I]; [right; now left|].
      destruct (IH I) as [E|I']; [now left | right; now right].
Qed.

Lemma insert_key_ascending t key value :
  ascending t = true -> ascending (AvlNode.insert_key t key value) = true.
Proof.
induction t as [|[k v] t IH]; intros A; [reflexivity|].
cbn [AvlNode.insert_key]. destruct (key <? k) eqn:L.
- apply ascending_cons; [exact A|]. intros k' v' [I|I].
  + inversion I; subst. lia.
  + pose proof (ascending_head _ _ _ _ _ A I). lia.
- destruct (key =? k) eqn:E.
  + apply ascending_cons; [now apply ascending_tail in A|].
    intros k' v' I. pose proof (ascending_head _ _ _ _ _ A I). lia.
  + apply ascending_cons; [apply IH; now apply ascending_tail in A|].
    intros k' v' I. apply insert_key_In_inv in I. destruct I as [I|I].
    * inversion I; subst. lia.
    * exact (ascending_head _ _ _ _ _ A I).
Qed.

Lemma last_cons e e' (t : AvlNode.tree) :
  AvlNode.last (e :: e' :: t) = AvlNode.last (e' :: t).
Proof. reflexivity. Qed.

Lemma last_In t e : AvlNode.last t = Some e -> In e t.
Proof.
induction t as [|e1 t IH]; [discriminate|].
destruct t as [|e2 t].
- intros E. inversion E. now left.
- rewrite last_cons. intros E. right. now apply IH.
Qed.

Lemma last_is_Some e t : exists e', AvlNode.last (e :: t) = Some e'.
Proof.
revert e. induction t as [|e2 t IH]; intros e; [now exists e|].
rewrite last_cons. apply IH.
Qed.

Lemma last_largest t kmax vmax k v :
  ascending t = true -> AvlNode.last t = Some (kmax, vmax) ->
  In (k, v) t -> k <= kmax.
Proof.
induction t as [|[k1 v1] t IH]; intros A L I; [destruct I|].
destruct t as [|e2 t].
- inversion L; subst. destruct I as [I|[]]. inversion I. lia.
- rewrite last_cons in L. destruct I as [I|I].
  + inversion I; subst.
    pose proof (ascending_head _ _ _ _ _ A (last_In _ _ L)). lia.
  + apply IH; [now apply ascending_tail in A | exact L | exact I].
Qed.

Lemma ascending_key_value t k v v' :
  ascending t = true -> In (k, v) t -> In (k, v') t -> v = v'.
Proof.
induction t as [|[k1 v1] t IH]; intros A I I'; [destruct I|].
destruct I as [I|I], I' as [I'|I'].
- congruence.
- inversion I; subst. pose proof (ascending_head _ _ _ _ _ A I'). lia.
- inversion I'; subst. pose proof (ascending_head _ _ _ _ _ A I). lia.
- apply IH; [now apply ascending_tail in A | assumption ..].
Qed.

Lemma distinct_values_key (t : AvlNode.tree) k k' v :
  List.NoDup (map snd t) -> In (k, v) t -> In (k', v) t -> k = k'.
Proof.
induction t as [|[k1 v1] t IH]; intros N I I'; [destruct I|].
simpl in N. inversion N as [|? ? N1 N2]; subst.
destruct I as [I|I], I' as [I'|I'].
- congruence.
- inversion I; subst. exfalso. apply N1.
  change v with (snd (k', v)). now apply in_map.
- inversion I'; subst. exfalso. apply N1.
  change v with (snd (k, v)). now apply in_map.
- now apply IH.
Qed.

End PrintFacts.

Lemma flat_map_agree {A B : Type} (f g : A -> list B) (l : list A) :
  (forall a, In a l -> f a = g a) -> flat_map f l = flat_map g l.
Proof.
induction l as [|a l IH]; intros E; [reflexivity|]. simpl.
rewrite (E a) by now left. rewrite IH; [reflexivity|].
intros b I. apply E. now right.
Qed.

(** C4.  print decides on the separator by comparing the pointer stored
    in an entry with the pointer stored under the largest key, not the
    keys.  For an array built with new_array, new_null and two calls of
    insert_array_item that store the same node under the keys 0 and 1,
    print emits no separator behind either element, where the rule of
    the largest key asks for one behind the element under key 0: the
    output has the two elements run together. *)
Lemma shared_value_drops_separator :
  shared_item_printed
  = Done [Text " [ "; Text " null "; Text " null "; Text "] "]
  /\ [Text " [ "]
     ++ flat_map (member_by_key (H := ExampleHost.host) false
                    (fun _ => [Text " null "]) 1)
          [(0, Some 1%nat); (1, Some 1%nat)]
     ++ [Text "] "]
     = [Text " [ "; Text " null "; Text ","; Text " null "; Text "] "].
Proof.
split; [|reflexivity].
let v := eval vm_compute in shared_item_printed in
change shared_item_printed with v.
reflexivity.
Qed.

(** X14.  Printing a non-empty Object or Array emits its members in
    ascending order of their map keys, each followed by a comma unless
    the pointer stored in the entry equals the pointer stored under the
    largest key.  When no two entries hold the same pointer, the
    separator is left out for the entry under the largest key and for no
    other. *)
Theorem separator_follows_last_value `{Host}
    (mem : Z -> Z) (pr : printer) (o : ptr -> list out)
    (x : JSON) (t : AvlNode.tree) :
  variant x = U_object t ->
  t <> [] ->
  ascending t = true ->
  (forall k v, In (k, v) t -> pr v = Done (o v)) ->
  exists kmax vmax,
    AvlNode.last t = Some (kmax, vmax)
    /\ (forall k v, In (k, v) t -> k <= kmax)
    /\ (get_tag x = tag_code Object_t ->
        print_body mem pr x
        = Done ([Text " { "] ++ flat_map (member true o vmax) t
                ++ [Text " } "]))
    /\ (get_tag x = tag_code Array_t ->
        print_body mem pr x
        = Done ([Text " [ "] ++ flat_map (member false o vmax) t
                ++ [Text "] "]))
    /\ (forall k v, In (k, v) t ->
          (separator vmax v = [] <-> v = vmax)
          /\ (v <> vmax -> separator vmax v = [Text ","])
          /\ (List.NoDup (map snd t) -> (v = vmax <-> k = kmax)))
    /\ (List.NoDup (map snd t) ->
        forall object,
          flat_map (member object o vmax) t
          = flat_map (member_by_key object o kmax) t).
Proof.
intros V NE A P. destruct t as [|e t']; [congruence|].
destruct (last_is_Some e t') as ([kmax vmax] & L).
pose proof (last_In _ _ L) as IL.
assert (Distinct : forall k v, In (k, v) (e :: t') ->
          List.NoDup (map snd (e :: t')) -> (v = vmax <-> k = kmax)).
{ intros k v I N. split; intros E.
  - subst v. exact (distinct_values_key _ _ _ _ N I IL).
  - subst k. exact (ascending_key_value _ _ _ _ A I IL). }
exists kmax, vmax. split; [exact L|].
split; [intros k v I; exact (last_largest _ _ _ _ _ A L I)|].
split; [|split; [|split]].
- intros T. unfold print_body. rewrite T.
  change (tag_of_code (tag_code Object_t)) with (Some Object_t). cbv iota.
  unfold variant_object. rewrite V. cbn [mbind result_bind].
  unfold last_value. rewrite L. cbn [mbind result_bind].
  rewrite (apply_name_value pr o) by exact P.
  cbn [mbind result_bind]. now rewrite <- app_assoc.
- intros T. unfold print_body. rewrite T.
  change (tag_of_code (tag_code Array_t)) with (Some Array_t). cbv iota.
  unfold variant_object. rewrite V. cbn [mbind result_bind].
  unfold last_value. rewrite L. cbn [mbind result_bind].
  rewrite (apply_array_item pr o) by exact P.
  cbn [mbind result_bind]. now rewrite <- app_assoc.
- intros k v I. split; [apply separator_nil|]. split.
  + intros N. unfold separator. destruct (ptr_eqb v vmax) eqn:E;
      [apply ptr_eqb_eq in E; contradiction | reflexivity].
  + now apply Distinct.
- intros N object. apply flat_map_agree. intros [k v] I.
  unfold member, member_by_key, separator. cbn [fst snd].
  do 2 f_equal. destruct (Distinct k v I N) as (D1 & D2).
  destruct (ptr_eqb v vmax) eqn:E, (k =? kmax) eqn:K; try reflexivity.
  + apply ptr_eqb_eq in E. specialize (D1 E). lia.
  + apply Z.eqb_eq in K. specialize (D2 K). apply ptr_eqb_eq in D2. congruence.
Qed.

Lemma separator_follows_last_value_witness :
  let x := mkJSON (H := ExampleHost.host) 1
             (U_object [(0, Some 1%nat); (1, Some 2%nat)]) in
  print_body (terminated []) (fun _ => Done [Text " null "]) x
  = Done [Text " [ "; Text " null "; Text ","; Text " null "; Text "] "].
Proof.
intros x.
destruct (separator_follows_last_value (H := ExampleHost.host)
            (terminated []) (fun _ => Done [Text " null "])
            (fun _ => [Text " null "]) x
            [(0, Some 1%nat); (1, Some 2%nat)])
  as (kmax & vmax & L & _ & _ & Arr & _).
- reflexivity.
- discriminate.
- reflexivity.
- intros k v _. reflexivity.
- inversion L; subst. rewrite Arr by reflexivity. reflexivity.
Defined.

(** * Further properties of the code *)

(** ** The lexer stays inside the input it is given *)

Section LexerBounds.
Context `{Host}.
Variable mem : Z -> Z.

Lemma inside_refl l : 0 <= Lexer.length l -> inside l l.
Proof.
intros P. split; [unfold keeps_end; lia|]. exists []. split; [reflexivity|].
constructor.
Qed.

Lemma inside_trans l1 l2 l3 : inside l1 l2 -> inside l2 l3 -> inside l1 l3.
Proof.
intros ((S1 & E1 & P1) & (n1 & R1 & F1)) ((S2 & E2 & P2) & (n2 & R2 & F2)).
split; [unfold keeps_end; lia|].
exists (n2 ++ n1). split; [rewrite R2, R1; now rewrite app_assoc|].
apply Forall_app. split; [|exact F1].
eapply Forall_impl; [exact F2|]. simpl. intros r B. lia.
Qed.

Lemma same_cursor_inside l l' :
  0 <= Lexer.length l -> same_cursor l l' -> inside l l'.
Proof.
intros P (S & L & R). split; [unfold keeps_end; lia|].
exists []. split; [exact R | constructor].
Qed.

Lemma next_byte_inside l : 0 <= Lexer.length l -> inside l (Lexer.next_byte l).
Proof.
intros P. unfold Lexer.next_byte. destruct (0 <? Lexer.length l) eqn:E.
- split; [unfold keeps_end; simpl; lia|]. exists []. split; [reflexivity|].
  constructor.
- now apply inside_refl.
Qed.

Lemma peek_byte_inside l :
  0 <= Lexer.length l -> inside l (snd (Lexer.peek_byte mem l)).
Proof.
intros P. unfold Lexer.peek_byte, Lexer.deref.
destruct (0 <? Lexer.length l) eqn:E; simpl.
- split; [unfold keeps_end; simpl; lia|].
  exists [Lexer.src l + 0]. split; [reflexivity|].
  constructor; [lia | constructor].
- now apply inside_refl.
Qed.

Lemma inside_length l l' : inside l l' -> 0 <= Lexer.length l'.
Proof. intros ((_ & _ & P) & _). exact P. Qed.

Lemma advance_inside l :
  0 <= Lexer.length l -> inside l (snd (Lexer.advance mem l)).
Proof.
intros P. unfold Lexer.advance.
pose proof (next_byte_inside l P) as I.
exact (inside_trans _ _ _ I (peek_byte_inside _ (inside_length _ _ I))).
Qed.

Lemma maybe_advance_inside (b : bool) c l :
  0 <= Lexer.length l ->
  inside l (snd (if b then Lexer.advance mem l else (c, l))).
Proof.
intros P. destruct b; [now apply advance_inside | now apply inside_refl].
Qed.

Lemma while_isspace_inside n : forall c l,
  0 <= Lexer.length l -> inside l (snd (Lexer.while_isspace mem n c l)).
Proof.
induction n as [|n IH]; intros c l P; simpl.
- destruct (isspace c); now apply inside_refl.
- destruct (isspace c); [|now apply inside_refl].
  pose proof (advance_inside l P) as I. unfold Lexer.advance in I.
  destruct (Lexer.peek_byte mem (Lexer.next_byte l)) as [c1 l1]. simpl in I.
  exact (inside_trans _ _ _ I (IH c1 l1 (inside_length _ _ I))).
Qed.

Lemma while_isdigit_inside n : forall count c l,
  0 <= Lexer.length l ->
  inside l (snd (Lexer.while_isdigit mem n count c l)).
Proof.
induction n as [|n IH]; intros count c l P; simpl.
- destruct (isdigit c); now apply inside_refl.
- destruct (isdigit c); [|now apply inside_refl].
  pose proof (advance_inside l P) as I. unfold Lexer.advance in I.
  destruct (Lexer.peek_byte mem (Lexer.next_byte l)) as [c1 l1]. simpl in I.
  exact (inside_trans _ _ _ I (IH (count + 1) c1 l1 (inside_length _ _ I))).
Qed.

Lemma get_number_result_inside negative real d e l :
  0 <= Lexer.length l ->
  inside l (snd (Lexer.get_number_result mem negative real d e l)).
Proof.
intros P. unfold Lexer.get_number_result.
destruct (Z.lor d e =? 0); [now apply inside_refl|].
destruct real; simpl.
{ destruct (sscanf_f _); [|now apply inside_refl].
  apply same_cursor_inside; [exact P | now repeat split]. }
destruct negative; simpl.
{ destruct (sscanf_d _); [|now apply inside_refl].
  apply same_cursor_inside; [exact P | now repeat split]. }
destruct (sscanf_u _); [|now apply inside_refl].
apply same_cursor_inside; [exact P | now repeat split].
Qed.

(** One binding of get_number: the lexer it yields is inside the input
    if the one it starts from is. *)
Ltac number_step I :=
  match goal with
  | |- context [if ?b then Lexer.advance ?m ?lx else (?c, ?lx)] =>
      let J := fresh "J" in
      pose proof (maybe_advance_inside b c lx (inside_length _ _ I)) as J;
      destruct (if b then Lexer.advance m lx else (c, lx)) as [? ?];
      cbn [snd] in J;
      apply (inside_trans _ _ _ I) in J; clear I; rename J into I
  | |- context [Lexer.while_isdigit ?m ?n ?count ?c ?lx] =>
      let J := fresh "J" in
      pose proof (while_isdigit_inside n count c lx (inside_length _ _ I))
        as J;
      destruct (Lexer.while_isdigit m n count c lx) as [[? ?] ?];
      cbn [snd] in J;
      apply (inside_trans _ _ _ I) in J; clear I; rename J into I
  | |- context [Lexer.advance ?m ?lx] =>
      let J := fresh "J" in
      pose proof (advance_inside lx (inside_length _ _ I)) as J;
      destruct (Lexer.advance m lx) as [? ?];
      cbn [snd] in J;
      apply (inside_trans _ _ _ I) in J; clear I; rename J into I
  end.

Lemma get_number_inside c l :
  0 <= Lexer.length l -> inside l (snd (Lexer.get_number mem c l)).
Proof.
intros P. unfold Lexer.get_number.
assert (I : inside l (Lexer.set_token_len 0
                        (Lexer.set_token_src (Lexer.src l) l)))
  by (apply same_cursor_inside; [exact P | now repeat split]).
cbv zeta.
do 5 number_step I.
match goal with
| |- context [if ?b then _ else _] => destruct b
end.
- match goal with
  | |- context [if ?b then _ else _] => destruct b
  end; [exact I|].
  do 3 number_step I.
  exact (inside_trans _ _ _ I
           (get_number_result_inside _ _ _ _ _ (inside_length _ _ I))).
- do 2 number_step I.
  exact (inside_trans _ _ _ I
           (get_number_result_inside _ _ _ _ _ (inside_length _ _ I))).
Qed.

Lemma get_string_loop_inside n : forall l,
  0 <= Lexer.length l -> inside l (snd (Lexer.get_string_loop mem n l)).
Proof.
induction n as [|n IH]; intros l P; simpl; [now apply inside_refl|].
destruct (0 <? Lexer.length l) eqn:E; [|now apply inside_refl].
assert (I : inside l
              (Lexer.set_src
                 (Lexer.src (snd (Lexer.deref mem 0
                                    (Lexer.set_length (Lexer.length l - 1) l)))
                  + 1)
                 (snd (Lexer.deref mem 0
                         (Lexer.set_length (Lexer.length l - 1) l))))).
{ split; [unfold keeps_end; simpl; lia|].
  exists [Lexer.src l + 0]. split; [reflexivity|].
  constructor; [lia | constructor]. }
simpl in I |- *.
destruct (mem (Lexer.src l + 0) =? 34); [exact I|].
eapply inside_trans; [exact I|].
eapply inside_trans; [|apply IH; simpl; lia].
apply same_cursor_inside; [simpl; lia | now repeat split].
Qed.

Lemma get_string_inside l :
  0 <= Lexer.length l -> inside l (snd (Lexer.get_string mem l)).
Proof.
intros P. unfold Lexer.get_string.
pose proof (next_byte_inside l P) as I.
eapply inside_trans; [exact I|].
eapply inside_trans; [|apply get_string_loop_inside; simpl;
                        exact (inside_length _ _ I)].
apply same_cursor_inside; [exact (inside_length _ _ I) | now repeat split].
Qed.

(** The comparisons of get_special read the bytes behind the cursor one
    by one and touch nothing but the record of reads. *)
Lemma rest_is_reads chars : forall i l,
  exists new,
    Lexer.reads (snd (Lexer.rest_is mem i chars l)) = new ++ Lexer.reads l
    /\ Forall (fun r => Lexer.src l + i <= r
                        < Lexer.src l + i + Z.of_nat (List.length chars)) new
    /\ Lexer.src (snd (Lexer.rest_is mem i chars l)) = Lexer.src l
    /\ Lexer.length (snd (Lexer.rest_is mem i chars l)) = Lexer.length l.
Proof.
induction chars as [|ch chars IH]; intros i l.
- exists []. simpl. repeat split. constructor.
- cbn [Lexer.rest_is]. unfold Lexer.byte_is, Lexer.deref.
  destruct (mem (Lexer.src l + i) =? ch).
  + destruct (IH (i + 1)
                (Lexer.set_reads ((Lexer.src l + i) :: Lexer.reads l) l))
      as (new & R & F & S & L).
    exists (new ++ [Lexer.src l + i]). simpl in R, F, S, L.
    split; [rewrite R; now rewrite <- app_assoc|].
    split; [|split; assumption].
    apply Forall_app. split.
    * eapply Forall_impl; [exact F|]. simpl. intros r B.
      cbn [List.length]. lia.
    * constructor; [|constructor]. cbn [List.length]. lia.
  + exists [Lexer.src l + i]. cbn [snd Lexer.reads Lexer.set_reads].
    split; [reflexivity|]. split; [|split; reflexivity].
    constructor; [|constructor]. cbn [List.length]. lia.
Qed.

(** What get_special does with one literal of [n] bytes: the reads stay
    inside the input; on failure the cursor and the length are untouched,
    on success the cursor moves by [n] and the length grows by [n]. *)
Lemma keyword_spec n chars tok l :
  n = 1 + Z.of_nat (List.length chars) ->
  0 <= Lexer.length l ->
  reads_within l (snd (Lexer.keyword mem n chars tok l))
  /\ (fst (Lexer.keyword mem n chars tok l) = Error_token
      /\ Lexer.src (snd (Lexer.keyword mem n chars tok l)) = Lexer.src l
      /\ Lexer.length (snd (Lexer.keyword mem n chars tok l)) = Lexer.length l
      \/ fst (Lexer.keyword mem n chars tok l) = tok
         /\ n <= Lexer.length l
         /\ Lexer.src (snd (Lexer.keyword mem n chars tok l)) = Lexer.src l + n
         /\ Lexer.length (snd (Lexer.keyword mem n chars tok l))
            = to_uint (Lexer.length l + n)).
Proof.
intros N P. unfold Lexer.keyword.
destruct (n <=? Lexer.length l) eqn:E.
- destruct (rest_is_reads chars 1 l) as (new & R & F & S & L).
  assert (W : reads_within l (snd (Lexer.rest_is mem 1 chars l))).
  { exists new. split; [exact R|].
    eapply Forall_impl; [exact F|]. simpl. intros r B. lia. }
  destruct (Lexer.rest_is mem 1 chars l) as [b l']. simpl in *.
  destruct b; simpl.
  + split; [destruct W as (nw & Rw & Fw); exists nw; now split|].
    right. rewrite S, L. repeat split. lia.
  + split; [exact W|]. left. now repeat split.
- simpl. split; [exists []; split; [reflexivity | constructor]|].
  left. now repeat split.
Qed.

Lemma get_string_loop_kind n : forall l,
  keyword_length (fst (Lexer.get_string_loop mem n l)) = None.
Proof.
induction n as [|n IH]; intros l; simpl; [reflexivity|].
destruct (0 <? Lexer.length l); [|reflexivity].
destruct (mem (Lexer.src l + 0) =? 34); [reflexivity | apply IH].
Qed.

Lemma get_number_result_kind negative real d e l :
  keyword_length (fst (Lexer.get_number_result mem negative real d e l))
  = None.
Proof.
unfold Lexer.get_number_result.
destruct (Z.lor d e =? 0); [reflexivity|].
destruct real; [reflexivity|]. now destruct negative.
Qed.

Lemma get_number_kind c l :
  keyword_length (fst (Lexer.get_number mem c l)) = None.
Proof.
unfold Lexer.get_number. cbv zeta.
repeat match goal with
       | |- context [match ?e with (_, _) => _ end] => destruct e
       end.
repeat match goal with
       | |- context [if ?b then _ else _] => destruct b
       end;
  try reflexivity;
  repeat match goal with
         | |- context [match ?e with (_, _) => _ end] => destruct e
         end;
  apply get_number_result_kind.
Qed.

End LexerBounds.

(** ** Input without a value *)

Lemma get_token_blank `{Host} (mem : Z -> Z) (l : Lexer.t) :
  0 <= Lexer.length l ->
  (forall j, 0 <= j < Lexer.length l ->
             isspace (mem (Lexer.src l + j)) = true) ->
  fst (Lexer.get_token mem l) = Error_token
  /\ moved (Lexer.length l) l (snd (Lexer.get_token mem l)).
Proof.
intros P Blank. unfold Lexer.get_token.
destruct (peek_byte_spec mem l) as (C0 & M0).
destruct (Lexer.peek_byte mem l) as [c0 l0]. cbn [fst snd] in C0, M0.
assert (L0 : Lexer.length l0 = Lexer.length l)
  by (destruct M0 as (_ & L & _); lia).
assert (S0 : Lexer.src l0 = Lexer.src l) by (destruct M0 as (S & _); lia).
assert (C0' : c0 = current mem l0).
{ rewrite C0. unfold current. now rewrite S0, L0. }
destruct (while_isspace_spec mem (Z.to_nat (Lexer.length l0)) l0 c0)
  as (k & K & Sp & Mk & Ck & Wk); [lia | lia | exact C0' |].
destruct (Lexer.while_isspace mem (Z.to_nat (Lexer.length l0)) c0 l0)
  as [c1 l1]. cbn [fst snd] in Mk, Ck, Wk.
assert (L1 : Lexer.length l1 = Lexer.length l0 - k)
  by (destruct Mk as (_ & L & _); lia).
assert (S1 : Lexer.src l1 = Lexer.src l0 + k)
  by (destruct Mk as (S & _); lia).
assert (End : k = Lexer.length l).
{ destruct (Z.eq_dec k (Lexer.length l)) as [E|N]; [exact E|].
  exfalso. rewrite Ck in Wk. unfold current in Wk.
  destruct (0 <? Lexer.length l1) eqn:E; [|lia].
  rewrite S1, S0, Blank in Wk by lia. discriminate. }
assert (C1 : c1 = 256).
{ rewrite Ck. unfold current.
  destruct (0 <? Lexer.length l1) eqn:E; [lia | reflexivity]. }
subst c1. rewrite C1. cbn. split; [reflexivity|].
rewrite <- End. replace k with (0 + k) by lia.
exact (moved_trans _ _ _ _ _ M0 Mk).
Qed.

(** X2.  An input of length zero, or made of white space only, has no
    value: parse returns null, allocates nothing and leaves the pool as it
    was, with the cursor at the end of the input. *)
Theorem blank_input_is_rejected `{Host}
    (mem : Z -> Z) (p : Pool) (l : Lexer.t) (len : Z) (fuel : nat) :
  0 <= len ->
  (forall j, 0 <= j < len -> isspace (mem j) = true) ->
  (1 <= fuel)%nat ->
  exists s,
    parse mem fuel p l len = Done (null, s)
    /\ pool s = p
    /\ Lexer.src (lexer s) = len
    /\ Lexer.length (lexer s) = 0.
Proof.
intros P Blank F.
destruct (get_token_blank mem (Lexer.set_length len (Lexer.set_src 0 l)))
  as (T & M); [exact P | intros j J; apply Blank; exact J |].
cbn [Lexer.length Lexer.set_length Lexer.src Lexer.set_src] in M.
exists (mkState p (snd (Lexer.get_token mem
                          (Lexer.set_length len (Lexer.set_src 0 l))))).
split.
- apply (parse_mono _ 1 fuel); [exact F|].
  unfold parse. rewrite parse_private_S.
  unfold parse_private_body, switch_then, lex. cbn [lexer pool].
  destruct (Lexer.get_token mem (Lexer.set_length len (Lexer.set_src 0 l)))
    as [token l1]. cbn [fst] in T. subst token. reflexivity.
- cbn [pool lexer]. destruct M as (S & L & _). simpl in S, L.
  split; [reflexivity|]. split; [exact S | lia].
Qed.

Lemma blank_input_is_rejected_witness :
  exists s,
    parse (H := ExampleHost.host) (terminated [32; 10; 9]) 1
          (ExampleHost.fresh_pool 1) ExampleHost.fresh_lexer 3
    = Done (null, s)
    /\ pool s = ExampleHost.fresh_pool 1.
Proof.
destruct (blank_input_is_rejected (H := ExampleHost.host)
            (terminated [32; 10; 9]) (ExampleHost.fresh_pool 1)
            ExampleHost.fresh_lexer 3 1) as (s & E & Q & _).
- lia.
- intros j J.
  assert (j = 0 \/ j = 1 \/ j = 2) as [-> | [-> | ->]] by lia; reflexivity.
- lia.
- exists s. split; [exact E | exact Q].
Defined.

(** ** The packed tag and string length *)

Section Packing.
Context `{Host}.

Lemma tag_code_small g : Z.shiftr (tag_code g) 4 = 0 /\ Z.land (tag_code g) 15 = tag_code g.
Proof. now destruct g. Qed.

Lemma shifted_length len :
  0 <= len ->
  Z.land (to_uint (Z.shiftl len 4)) 15 = 0
  /\ Z.shiftr (to_uint (Z.shiftl len 4)) 4 = len mod 2 ^ 28.
Proof.
intros P. rewrite Z.shiftl_mul_pow2, Z.shiftr_div_pow2 by lia.
change 15 with (Z.ones 4). rewrite Z.land_ones by lia.
unfold to_uint. rewrite two_pow_bits.
change (2 ^ 4) with 16. change (2 ^ 28) with 268435456.
split; Z.div_mod_to_equations; lia.
Qed.

Lemma get_str_length_set_tag g x :
  0 <= taglen x <= UINT_MAX ->
  get_str_length (set_tag g x) = get_str_length x.
Proof.
intros R. unfold get_str_length, set_tag. cbn [taglen].
rewrite Z.shiftr_lor, Z.shiftr_land, (proj1 (tag_code_small g)), Z.lor_0_r.
change (Z.shiftr (to_uint (Z.lnot 15)) 4) with (Z.ones 28).
rewrite Z.land_ones by lia. apply Z.mod_small.
rewrite Z.shiftr_div_pow2 by lia. unfold_ints.
change (2 ^ 4) with 16. change (2 ^ 28) with 268435456.
Z.div_mod_to_equations. lia.
Qed.

Lemma get_tag_set_str_length len x :
  0 <= len -> get_tag (set_str_length len x) = get_tag x.
Proof.
intros P. unfold get_tag, set_str_length. cbn [taglen].
rewrite Z.land_lor_distr_l, (proj1 (shifted_length len P)), Z.lor_0_r.
rewrite <- Z.land_assoc. reflexivity.
Qed.

Lemma get_str_length_set_str_length len x :
  0 <= len -> get_str_length (set_str_length len x) = len mod 2 ^ 28.
Proof.
intros P. unfold get_str_length, set_str_length. cbn [taglen].
rewrite Z.shiftr_lor, Z.shiftr_land, (proj2 (shifted_length len P)).
change (Z.shiftr 15 4) with 0. now rewrite Z.land_0_r, Z.lor_0_l.
Qed.

(** Whatever the length, its bits lie above the four of the tag. *)
Lemma get_tag_set_str_length_any len x :
  get_tag (set_str_length len x) = get_tag x.
Proof.
unfold get_tag, set_str_length. cbn [taglen].
rewrite Z.land_lor_distr_l, <- Z.land_assoc. change (Z.land 15 15) with 15.
assert (E : Z.land (to_uint (Z.shiftl len 4)) 15 = 0).
{ rewrite Z.shiftl_mul_pow2 by lia.
  change 15 with (Z.ones 4). rewrite Z.land_ones by lia.
  unfold to_uint. rewrite two_pow_bits. change (2 ^ 4) with 16.
  Z.div_mod_to_equations. lia. }
rewrite E. apply Z.lor_0_r.
Qed.

End Packing.

(** X3.  The tag and the string length share one unsigned field: setting
    the tag leaves the length as it was and yields that tag; setting the
    length leaves the tag as it was and stores the length in the upper 28
    bits, so a length is read back unchanged if it is below 2^28 and
    reduced modulo 2^28 otherwise. *)
Theorem tag_and_length_share_a_field `{Host} (x : JSON) (g : Json_Tag) (len : Z) :
  0 <= taglen x <= UINT_MAX ->
  0 <= len ->
  get_tag (set_tag g x) = tag_code g
  /\ get_str_length (set_tag g x) = get_str_length x
  /\ get_tag (set_str_length len x) = get_tag x
  /\ get_str_length (set_str_length len x) = len mod 2 ^ 28
  /\ (len < 2 ^ 28 -> get_str_length (set_str_length len x) = len)
  /\ get_tag (set_str_length len (set_tag g x)) = tag_code g.
Proof.
intros R P.
split; [apply get_tag_set_tag|].
split; [now apply get_str_length_set_tag|].
split; [now apply get_tag_set_str_length|].
split; [now apply get_str_length_set_str_length|].
split.
- intros B. rewrite get_str_length_set_str_length by exact P.
  apply Z.mod_small. lia.
- rewrite get_tag_set_str_length by exact P. apply get_tag_set_tag.
Qed.

Lemma tag_and_length_share_a_field_witness :
  let x := mkJSON (H := ExampleHost.host) 39 (U_str 2) in
  get_str_length (set_tag Null_t x) = 2
  /\ get_str_length (set_str_length (2 ^ 28 + 3) x) = 3.
Proof.
intros x.
destruct (tag_and_length_share_a_field (H := ExampleHost.host) x Null_t
            (2 ^ 28 + 3)) as (_ & A & _ & B & _).
- vm_compute. split; discriminate.
- vm_compute. discriminate.
- split; [rewrite A; reflexivity | rewrite B; reflexivity].
Defined.

(** ** What an allocation and an update leave alone *)

Section Frames.
Context `{Host}.

Lemma frame_refl c p : frame c p p.
Proof. unfold frame. split; [reflexivity|]. split; [lia | reflexivity]. Qed.

Lemma frame_trans c p1 p2 p3 : frame c p1 p2 -> frame c p2 p3 -> frame c p1 p3.
Proof.
intros (L1 & S1 & N1) (L2 & S2 & N2). split; [congruence|]. split; [lia|].
intros j J. rewrite N2, N1 by exact J. reflexivity.
Qed.

Lemma frame_weaken c c' p p' : c' <= c -> frame c p p' -> frame c' p p'.
Proof.
intros LE (L & S & N). split; [exact L|]. split; [exact S|].
intros j J. apply N. lia.
Qed.

Lemma update_at_node i f p p' :
  update_at (Some i) f p = Done p' ->
  exists x y, node_at p (Some i) = Done x /\ f x = Done y
              /\ node_at p' (Some i) = Done y
              /\ json_pool_size p' = json_pool_size p
              /\ json_pool_length p' = json_pool_length p
              /\ (json_pool p = None <-> json_pool p' = None)
              /\ forall j, j <> i -> node_at p' (Some j) = node_at p (Some j).
Proof.
intros E. apply update_at_Done in E.
destruct E as (i' & slots & x & y & Q & P & X & F & ->).
inversion Q; subst i'. exists x, y. unfold node_at. cbn [json_pool].
rewrite P, X.
rewrite list_lookup_insert_eq by now apply lookup_lt_Some in X.
split; [reflexivity|]. split; [exact F|]. split; [reflexivity|].
split; [reflexivity|]. split; [reflexivity|]. split; [split; discriminate|].
intros j N. now rewrite list_lookup_insert_ne by congruence.
Qed.

Lemma update_at_frame c i f p p' :
  update_at (Some i) f p = Done p' -> c <= Z.of_nat i -> frame c p p'.
Proof.
intros E LE. apply update_at_node in E.
destruct E as (x & y & _ & _ & _ & S & L & _ & N).
split; [exact L|]. split; [lia|]. intros j J. apply N. lia.
Qed.

Lemma update_at_ok q f p p' : update_at q f p = Done p' -> pool_ok p -> pool_ok p'.
Proof. intros E. apply update_at_le in E. now destruct E as (_ & _ & K). Qed.

Lemma update_at_room q f p p' : update_at q f p = Done p' -> room p' = room p.
Proof.
intros E. apply update_at_Done in E.
destruct E as (i & slots & x & y & _ & P & _ & _ & ->).
unfold room. cbn. now rewrite P.
Qed.

(** An allocation with room, in full. *)
Lemma construct_node init p :
  pool_ok p -> room p = true ->
  exists x p',
    node_at p (Some (Z.to_nat (json_pool_size p))) = Done x
    /\ construct init p = Done (Some (Z.to_nat (json_pool_size p)), p')
    /\ node_at p' (Some (Z.to_nat (json_pool_size p))) = Done (init (fresh x))
    /\ json_pool_size p' = json_pool_size p + 1
    /\ json_pool_length p' = json_pool_length p
    /\ pool_ok p'
    /\ forall j, j <> Z.to_nat (json_pool_size p) ->
         node_at p' (Some j) = node_at p (Some j).
Proof.
intros OK R. destruct (room_true p R) as (slots & P & L).
destruct (slot_exists p slots OK P L) as (x & X).
pose proof (allocation_spec (Some init) p OK) as A. rewrite R in A.
destruct A as (p' & E & S & Ln & OK').
cbn [allocation] in E.
rewrite (construct_room init p slots x P L X) in E. inversion E as [Q].
exists x. eexists. rewrite (construct_room init p slots x P L X).
split; [unfold node_at; now rewrite P, X|].
split; [reflexivity|]. unfold node_at at 1. cbn [json_pool].
rewrite list_lookup_insert_eq by now apply lookup_lt_Some in X.
split; [reflexivity|]. rewrite Q. split; [exact S|]. split; [exact Ln|].
split; [exact OK'|]. rewrite <- Q.
intros j N. unfold node_at. cbn [json_pool]. rewrite P.
now rewrite list_lookup_insert_ne by congruence.
Qed.

End Frames.

(** X4.  In a pool with room each constructor hands out the slot under
    the cursor as a node of its own tag holding its argument (a string
    node also holds the length, modulo 2^28; an object or an array holds a
    map without entries), moves the cursor by one and leaves every other
    slot as it was. *)
Theorem constructors_fill_one_slot `{Host} (p : Pool) :
  pool_ok p -> room p = true ->
  (forall n, allocates (new_float n) p Float_t (U_number n))
  /\ (forall n, allocates (new_unsigned n) p Unsigned_t (U_u n))
  /\ (forall n, allocates (new_signed n) p Signed_t (U_i n))
  /\ (forall b, allocates (new_boolean b) p Boolean_t (U_truth b))
  /\ allocates new_null p Null_t (U_number float_zero)
  /\ (forall str len, 0 <= len ->
        allocates (new_string str len) p String_t (U_str str)
        /\ exists p' node,
             new_string str len p
             = Done (Some (Z.to_nat (json_pool_size p)), p')
             /\ node_at p' (Some (Z.to_nat (json_pool_size p))) = Done node
             /\ get_str_length node = len mod 2 ^ 28)
  /\ allocates new_object p Object_t (U_object [])
  /\ allocates new_array p Array_t (U_object []).
Proof.
intros OK R.
assert (A : forall init g u,
          (forall x, get_tag (init (fresh x)) = tag_code g) ->
          (forall x, variant (init (fresh x)) = u) ->
          allocates (construct init) p g u).
{ intros init g u T V.
  destruct (construct_node init p OK R) as (x & p' & _ & E & N & S & _ & _ & Fr).
  exists p', (init (fresh x)). repeat split; auto. }
split; [intros n; apply A; intros x; [apply get_tag_set_tag | reflexivity]|].
split; [intros n; apply A; intros x; [apply get_tag_set_tag | reflexivity]|].
split; [intros n; apply A; intros x; [apply get_tag_set_tag | reflexivity]|].
split; [intros b; apply A; intros x; [apply get_tag_set_tag | reflexivity]|].
split; [apply A; intros x; [apply get_tag_set_tag | reflexivity]|].
split.
{ intros str len P. split.
  - apply A; intros x; [|reflexivity].
    rewrite get_tag_set_str_length by exact P. apply get_tag_set_tag.
  - destruct (construct_node
                (fun x => set_str_length len
                            (set_variant (U_str str) (set_tag String_t x)))
                p OK R) as (x & p' & _ & E & N & _).
    exists p'. eexists. split; [exact E|]. split; [exact N|].
    now apply get_str_length_set_str_length. }
split; apply A; intros x; first [apply get_tag_set_tag | reflexivity].
Qed.

Lemma constructors_fill_one_slot_witness :
  allocates (H := ExampleHost.host) (new_unsigned 7)
            (ExampleHost.fresh_pool 2) Unsigned_t (U_u 7).
Proof.
destruct (constructors_fill_one_slot (H := ExampleHost.host)
            (ExampleHost.fresh_pool 2)) as (_ & A & _).
- apply initialise_ok; vm_compute; [split|]; discriminate.
- reflexivity.
- apply A.
Defined.

(** ** How far one token moves the length *)

Section TokenLength.
Context `{Host}.
Variable mem : Z -> Z.

Lemma to_uint_le x : 0 <= x -> 0 <= to_uint x <= x.
Proof.
intros P. unfold to_uint.
split; [apply Z.mod_pos_bound; reflexivity | apply Z.mod_le; [exact P | reflexivity]].
Qed.

Lemma get_string_loop_token n : forall l,
  fst (Lexer.get_string_loop mem n l) = String_token
  \/ fst (Lexer.get_string_loop mem n l) = Error_token.
Proof.
induction n as [|n IH]; intros l; simpl; [now right|].
destruct (0 <? Lexer.length l); [|now right].
destruct (mem (Lexer.src l + 0) =? 34); [now left | apply IH].
Qed.

Lemma get_string_kind l :
  keyword_length (fst (Lexer.get_string mem l)) = None.
Proof. unfold Lexer.get_string. apply get_string_loop_kind. Qed.

Lemma get_string_opening l : opening (fst (Lexer.get_string mem l)) = false.
Proof.
unfold Lexer.get_string. cbv zeta.
match goal with
| |- context [Lexer.get_string_loop mem ?n ?x] =>
    destruct (get_string_loop_token n x) as [T|T]; rewrite T; reflexivity
end.
Qed.

Lemma get_number_opening c l :
  opening (fst (Lexer.get_number mem c l)) = false.
Proof.
unfold Lexer.get_number. cbv zeta.
repeat match goal with
       | |- context [match ?e with (_, _) => _ end] => destruct e
       end.
repeat match goal with
       | |- context [if ?b then _ else _] => destruct b
       end;
  try reflexivity;
  repeat match goal with
         | |- context [match ?e with (_, _) => _ end] => destruct e
         end;
  unfold Lexer.get_number_result;
  repeat match goal with
         | |- context [if ?b then _ else _] => destruct b
         end; reflexivity.
Qed.

Lemma end_of_array_inside l :
  0 <= Lexer.length l -> inside l (snd (Lexer.end_of_array mem l)).
Proof.
intros P. unfold Lexer.end_of_array.
pose proof (peek_byte_inside mem l P) as I0.
destruct (Lexer.peek_byte mem l) as [c0 l0]. cbn [snd] in I0.
pose proof (while_isspace_inside mem (Z.to_nat (Lexer.length l0)) c0 l0
              (inside_length _ _ I0)) as I1.
destruct (Lexer.while_isspace mem (Z.to_nat (Lexer.length l0)) c0 l0)
  as [c1 l1]. cbn [snd] in I1.
destruct (c1 =? 93); exact (inside_trans _ _ _ I0 I1).
Qed.

(** One token: the length stays a length; it grows by at most the
    length of a literal, and not at all for another token; a token that
    opens a container lowers it. *)
Lemma get_token_length l :
  0 <= Lexer.length l ->
  0 <= Lexer.length (snd (Lexer.get_token mem l))
  /\ Lexer.length (snd (Lexer.get_token mem l))
     <= Lexer.length l
        + match keyword_length (fst (Lexer.get_token mem l)) with
          | Some n => n
          | None => 0
          end
  /\ (opening (fst (Lexer.get_token mem l)) = true ->
      Lexer.length (snd (Lexer.get_token mem l)) < Lexer.length l).
Proof.
intros P. unfold Lexer.get_token.
destruct (peek_byte_spec mem l) as (C0 & M0).
pose proof (peek_byte_inside mem l P) as I0.
destruct (Lexer.peek_byte mem l) as [c0 l0]. cbn [fst snd] in C0, M0, I0.
assert (C0' : c0 = current mem l0).
{ rewrite C0. unfold current. destruct M0 as (S0 & L0 & _).
  rewrite S0, L0. now rewrite Z.add_0_r, Z.sub_0_r. }
pose proof (inside_length _ _ I0) as P0.
destruct (while_isspace_spec mem (Z.to_nat (Lexer.length l0)) l0 c0
            (Nat.le_refl _) P0 C0') as (k & _ & _ & _ & C1 & _).
pose proof (while_isspace_inside mem (Z.to_nat (Lexer.length l0)) c0 l0 P0)
  as I1.
destruct (Lexer.while_isspace mem (Z.to_nat (Lexer.length l0)) c0 l0)
  as [c1 l1]. cbn [fst snd] in C1, I1.
pose proof (inside_trans _ _ _ I0 I1) as ((S1 & E1 & P1) & _).
assert (Nx : 0 <= Lexer.length (Lexer.next_byte l1) <= Lexer.length l).
{ unfold Lexer.next_byte. destruct (0 <? Lexer.length l1) eqn:E; simpl; lia. }
assert (Op : c1 <> 256 -> Lexer.length (Lexer.next_byte l1) < Lexer.length l).
{ intros N. unfold Lexer.next_byte. unfold current in C1.
  destruct (0 <? Lexer.length l1) eqn:E; [simpl; lia | congruence]. }
destruct (c1 =? 58); [cbn; split; [lia|]; split; [lia | discriminate]|].
destruct (c1 =? 44); [cbn; split; [lia|]; split; [lia | discriminate]|].
destruct (c1 =? 123) eqn:E1'.
{ cbn. split; [lia|]. split; [lia|]. intros _. apply Op. lia. }
destruct (c1 =? 125); [cbn; split; [lia|]; split; [lia | discriminate]|].
destruct (c1 =? 91) eqn:E2'.
{ cbn. split; [lia|]. split; [lia|]. intros _. apply Op. lia. }
destruct (c1 =? 93); [cbn; split; [lia|]; split; [lia | discriminate]|].
destruct (c1 =? 34).
{ pose proof (get_string_inside mem l1 P1) as ((S2 & E2 & P2) & _).
  rewrite get_string_kind, get_string_opening.
  split; [exact P2|]. split; [lia | discriminate]. }
destruct ((c1 =? 45) || (c1 =? 46) || isdigit c1).
{ pose proof (get_number_inside mem c1 l1 P1) as ((S2 & E2 & P2) & _).
  rewrite get_number_kind, get_number_opening.
  split; [exact P2|]. split; [lia | discriminate]. }
assert (K : forall n chars tok,
          n = 1 + Z.of_nat (List.length chars) ->
          keyword_length tok = Some n -> opening tok = false ->
          0 <= Lexer.length (snd (Lexer.keyword mem n chars tok l1))
          /\ Lexer.length (snd (Lexer.keyword mem n chars tok l1))
             <= Lexer.length l
                + match keyword_length
                          (fst (Lexer.keyword mem n chars tok l1)) with
                  | Some n0 => n0
                  | None => 0
                  end
          /\ (opening (fst (Lexer.keyword mem n chars tok l1)) = true ->
              Lexer.length (snd (Lexer.keyword mem n chars tok l1))
              < Lexer.length l)).
{ intros n chars tok N KL O.
  destruct (keyword_spec mem n chars tok l1 N P1)
    as (_ & [(T & S & L) | (T & B & S & L)]); rewrite T.
  - cbn. split; [lia|]. split; [lia | discriminate].
  - rewrite KL, O, L.
    pose proof (to_uint_le (Lexer.length l1 + n)).
    split; [lia|]. split; [lia | discriminate]. }
unfold Lexer.get_special.
destruct (c1 =? 110); [now apply K|].
destruct (c1 =? 116); [now apply K|].
destruct (c1 =? 102); [now apply K|].
cbn. split; [lia|]. split; [lia | discriminate].
Qed.

End TokenLength.

(** ** Nodes that print can read *)

Section Heap.
Context `{Host}.

Lemma tag_of_code_tag_code g : tag_of_code (tag_code g) = Some g.
Proof. now destruct g. Qed.

Lemma child_ok_mono lo hi hi' v : hi <= hi' -> child_ok lo hi v -> child_ok lo hi' v.
Proof. intros LE. destruct v as [j|]; cbn [child_ok]; [lia | easy]. Qed.

Lemma node_ok_mono lo hi hi' y : hi <= hi' -> node_ok lo hi y -> node_ok lo hi' y.
Proof.
intros LE. unfold node_ok.
destruct (tag_of_code (get_tag y)) as [[]|]; try easy;
  intros (t & V & A & N & C); exists t; (split; [exact V|]);
  (split; [exact A|]); (split; [exact N|]);
  intros k v I; exact (child_ok_mono _ _ _ _ LE (C k v I)).
Qed.

Lemma heap_ok_empty c p : json_pool_size p <= c -> heap_ok c p.
Proof. intros LE i I. lia. Qed.

Lemma heap_ok_weaken c c' p : c <= c' -> heap_ok c p -> heap_ok c' p.
Proof. intros LE HP i I. apply HP. lia. Qed.

(** The nodes of [p] stay well formed when more are allocated. *)
Lemma heap_ok_extend c p p' :
  heap_ok c p -> frame (json_pool_size p) p p' ->
  heap_ok (json_pool_size p) p' -> heap_ok c p'.
Proof.
intros HP (_ & S & N) HP' i I.
destruct (Z.lt_ge_cases (Z.of_nat i) (json_pool_size p)) as [Lt|Ge].
- destruct (HP i ltac:(lia)) as (y & Y & K). exists y.
  split; [now rewrite N|]. exact (node_ok_mono _ _ _ _ S K).
- apply HP'. lia.
Qed.

(** One node is replaced by a well-formed one. *)
Lemma heap_ok_update c p p' i y' :
  heap_ok c p -> json_pool_size p' = json_pool_size p ->
  node_at p' (Some i) = Done y' ->
  node_ok (Z.of_nat i) (json_pool_size p) y' ->
  (forall j, j <> i -> node_at p' (Some j) = node_at p (Some j)) ->
  heap_ok c p'.
Proof.
intros HP S Y K N j J. rewrite S in J |- *.
destruct (Nat.eq_dec j i) as [->|D].
- exists y'. now split.
- rewrite (N j D). now apply HP.
Qed.

(** What the constructors write is well formed. *)
Lemma node_ok_made lo hi y g :
  get_tag y = tag_code g ->
  match g with
  | Object_t | Array_t => variant y = U_object []
  | String_t => exists str, variant y = U_str str
  | Unsigned_t => exists n, variant y = U_u n
  | Signed_t => exists n, variant y = U_i n
  | Float_t => exists n, variant y = U_number n
  | Boolean_t => exists b, variant y = U_truth b
  | _ => True
  end ->
  node_ok lo hi y.
Proof.
intros T. unfold node_ok. rewrite T, tag_of_code_tag_code.
destruct g; try easy; intros V; exists []; (split; [exact V|]);
  (split; [reflexivity|]); (split; [constructor|]); intros k v [].
Qed.

Lemma insert_key_children lo hi t key v :
  (forall k' v', In (k', v') t -> child_ok lo hi v') ->
  child_ok lo hi v ->
  forall k' v', In (k', v') (AvlNode.insert_key t key v) -> child_ok lo hi v'.
Proof.
intros C V k' v' I. apply insert_key_In_inv in I.
destruct I as [E|I]; [inversion E; now subst | exact (C k' v' I)].
Qed.

Lemma insert_key_values t key v :
  List.NoDup (map snd t) -> ~ In v (map snd t) ->
  List.NoDup (map snd (AvlNode.insert_key t key v)).
Proof.
induction t as [|[k1 v1] t IH]; intros N F; cbn [AvlNode.insert_key].
- constructor; [intros [] | constructor].
- cbn [map snd] in N, F. inversion N as [|? ? N1 N2]; subst.
  destruct (key <? k1).
  + cbn [map snd]. constructor; [exact F | exact N].
  + destruct (key =? k1).
    * cbn [map snd]. constructor; [|exact N2].
      intros I. apply F. now right.
    * cbn [map snd]. constructor.
      -- intros I. apply in_map_iff in I. destruct I as ([k' v'] & E & I).
         cbn [snd] in E. subst v'. apply insert_key_In_inv in I.
         destruct I as [E|I].
         ++ inversion E; subst. apply F. now left.
         ++ apply N1. apply in_map_iff. exists (k', v1). now split.
      -- apply IH; [exact N2|]. intros I. apply F. now right.
Qed.

End Heap.

(** ** The parser on any input and any pool *)

Section ParserSafety.
Context `{Host}.
Variable mem : Z -> Z.

Lemma Json_Token_eqb_eq a b : Json_Token_eqb a b = true -> a = b.
Proof. destruct a, b; first [reflexivity | discriminate]. Qed.

Lemma free_slots_range p : pool_ok p -> 0 <= free_slots p.
Proof. intros (R & _). unfold free_slots. destruct (room p); lia. Qed.

Lemma budget_range s : state_ok s -> 0 <= budget s.
Proof.
intros (OK & P). unfold budget. pose proof (free_slots_range _ OK). lia.
Qed.

Lemma free_slots_next p p' y :
  room p = true ->
  node_at p' (Some (Z.to_nat (json_pool_size p))) = Done y ->
  json_pool_length p' = json_pool_length p ->
  json_pool_size p' = json_pool_size p + 1 ->
  free_slots p' = free_slots p - 1.
Proof.
intros R N L S. unfold free_slots. rewrite R.
destruct (room_true p R) as (slots & _ & Lt).
unfold room. unfold node_at in N.
destruct (json_pool p') as [slots'|]; [|discriminate].
destruct (json_pool_size p' <? json_pool_length p') eqn:E.
- lia.
- apply Z.ltb_ge in E. lia.
Qed.

Lemma free_slots_same p p' :
  room p' = room p ->
  json_pool_length p' = json_pool_length p ->
  json_pool_size p' = json_pool_size p ->
  free_slots p' = free_slots p.
Proof. intros R L S. unfold free_slots. now rewrite R, L, S. Qed.

(** A constructor called by the parser. *)
Lemma alloc_safe init g u :
  (forall x, get_tag (init (fresh x)) = tag_code g) ->
  (forall x, variant (init (fresh x)) = u) ->
  (forall x lo hi, node_ok lo hi (init (fresh x))) ->
  forall s, state_ok s ->
  exists q s1,
    alloc (construct init) s = Done (q, s1)
    /\ lexer s1 = lexer s
    /\ state_ok s1
    /\ frame (json_pool_size (pool s)) (pool s) (pool s1)
    /\ heap_ok (json_pool_size (pool s)) (pool s1)
    /\ budget s1 <= budget s
    /\ (room (pool s) = false -> q = None /\ pool s1 = pool s)
    /\ match q with
       | Some i =>
           json_pool_size (pool s) <= Z.of_nat i < json_pool_size (pool s1)
           /\ budget s1 + 6 = budget s
           /\ exists y, node_at (pool s1) (Some i) = Done y
                        /\ get_tag y = tag_code g /\ variant y = u
       | None => pool s1 = pool s
       end.
Proof.
intros T V K s (OK & P). unfold alloc. destruct (room (pool s)) eqn:R.
- destruct (construct_node init (pool s) OK R)
    as (x & p' & _ & E & N & S & L & OK' & Fr).
  rewrite E. cbn [mbind result_bind].
  exists (Some (Z.to_nat (json_pool_size (pool s)))), (mkState p' (lexer s)).
  assert (F : free_slots p' = free_slots (pool s) - 1)
    by exact (free_slots_next _ _ _ R N L S).
  destruct OK as (Rg & OKr).
  split; [reflexivity|]. split; [reflexivity|]. split; [now split|].
  split.
  { split; [exact L|]. split; [cbn [pool]; lia|].
    intros j J. apply Fr. lia. }
  split.
  { intros i I. cbn [pool] in I |- *.
    assert (i = Z.to_nat (json_pool_size (pool s))) as -> by lia.
    exists (init (fresh x)). split; [exact N | apply K]. }
  unfold budget. cbn [pool lexer]. split; [lia|].
  split; [discriminate|].
  split; [rewrite Z2Nat.id by lia; lia|]. split; [lia|].
  exists (init (fresh x)). now repeat split.
- rewrite (construct_full init _ R). cbn [mbind result_bind].
  exists None, (mkState (pool s) (lexer s)).
  split; [reflexivity|]. split; [reflexivity|]. split; [now split|].
  split; [apply frame_refl|].
  split; [apply heap_ok_empty; cbn [pool]; lia|].
  split; [unfold budget; cbn [pool lexer]; lia|].
  split; [now split | reflexivity].
Qed.

Lemma update_at_defined i f p y y' :
  node_at p (Some i) = Done y -> f y = Done y' ->
  exists p', update_at (Some i) f p = Done p'.
Proof.
intros N F. unfold update_at. rewrite N. cbn [mbind result_bind].
rewrite F. cbn [mbind result_bind]. unfold node_at in N.
destruct (json_pool p); [|discriminate]. eauto.
Qed.

(** A method called on a node that is there. *)
Lemma method_node i f s y y' :
  state_ok s -> node_at (pool s) (Some i) = Done y -> f y = Done y' ->
  exists s',
    method (Some i) f s = Done s'
    /\ state_ok s'
    /\ budget s' = budget s
    /\ json_pool_size (pool s') = json_pool_size (pool s)
    /\ node_at (pool s') (Some i) = Done y'
    /\ (forall c, c <= Z.of_nat i -> frame c (pool s) (pool s'))
    /\ (forall c, heap_ok c (pool s) ->
                  node_ok (Z.of_nat i) (json_pool_size (pool s)) y' ->
                  heap_ok c (pool s')).
Proof.
intros (OK & P) N F.
destruct (update_at_defined i f (pool s) y y' N F) as (p' & E).
exists (mkState p' (lexer s)). unfold method. rewrite E.
pose proof (update_at_ok _ _ _ _ E OK) as OK'.
pose proof (update_at_room _ _ _ _ E) as R.
destruct (update_at_node _ _ _ _ E) as (x & z & N' & F' & Nz & S & L & _ & Fr).
assert (z = y') by congruence. subst z.
split; [reflexivity|]. split; [now split|].
split; [unfold budget; cbn [pool lexer];
        now rewrite (free_slots_same _ _ R L S)|].
split; [exact S|]. split; [exact Nz|].
split; [intros c C; exact (update_at_frame _ _ _ _ _ E C)|].
intros c HP K. exact (heap_ok_update c _ _ i y' HP S Nz K Fr).
Qed.

Lemma container_insert lo hi0 hi g key (j : nat) y t :
  (g = Object_t \/ g = Array_t) ->
  get_tag y = tag_code g -> variant y = U_object t ->
  node_ok lo hi0 y -> lo < Z.of_nat j -> hi0 <= Z.of_nat j < hi ->
  node_ok lo hi (set_variant (U_object (AvlNode.insert_key t key (Some j))) y).
Proof.
intros G T V K Lo Hi. unfold node_ok in *.
change (get_tag (set_variant
                   (U_object (AvlNode.insert_key t key (Some j))) y))
  with (get_tag y).
rewrite T, tag_of_code_tag_code in *.
assert (K' : exists t0, variant y = U_object t0
                        /\ ascending t0 = true
                        /\ List.NoDup (map snd t0)
                        /\ forall k0 v0, In (k0, v0) t0 -> child_ok lo hi0 v0)
  by (destruct G as [-> | ->]; exact K).
destruct K' as (t0 & V0 & A0 & N0 & C0).
assert (t0 = t) by congruence. subst t0.
assert (New : ~ In (Some j) (map snd t)).
{ intros I. apply in_map_iff in I. destruct I as ([k' v'] & E & I).
  cbn [snd] in E. subst v'. specialize (C0 k' (Some j) I).
  cbn [child_ok] in C0. lia. }
assert (C : forall k0 v0,
          In (k0, v0) (AvlNode.insert_key t key (Some j)) ->
          child_ok lo hi v0).
{ apply insert_key_children.
  - intros k0 v0 I. apply (child_ok_mono lo hi0); [lia | exact (C0 k0 v0 I)].
  - cbn [child_ok]. lia. }
destruct G as [-> | ->]; eexists; (split; [reflexivity|]);
  (split; [now apply insert_key_ascending|]);
  (split; [now apply insert_key_values | exact C]).
Qed.

Lemma insert_property_defined lo hi0 hi symbol (j : nat) y t :
  get_tag y = tag_code Object_t -> variant y = U_object t ->
  node_ok lo hi0 y -> lo < Z.of_nat j -> hi0 <= Z.of_nat j < hi ->
  exists y', insert_property symbol (Some j) y = Done y'
             /\ get_tag y' = tag_code Object_t
             /\ (exists t', variant y' = U_object t')
             /\ node_ok lo hi y'.
Proof.
intros T V K Lo Hi. unfold insert_property, variant_object. rewrite T, V.
rewrite Z.eqb_refl. cbn [mbind result_bind]. eexists.
split; [reflexivity|]. split; [exact T|].
split; [eexists; reflexivity|].
now apply (container_insert lo hi0 hi Object_t); [left | | | | |].
Qed.

Lemma insert_array_item_defined lo hi0 hi index (j : nat) y t :
  get_tag y = tag_code Array_t -> variant y = U_object t ->
  node_ok lo hi0 y -> lo < Z.of_nat j -> hi0 <= Z.of_nat j < hi ->
  exists y', insert_array_item index (Some j) y = Done y'
             /\ get_tag y' = tag_code Array_t
             /\ (exists t', variant y' = U_object t')
             /\ node_ok lo hi y'.
Proof.
intros T V K Lo Hi. unfold insert_array_item, variant_object. rewrite T, V.
rewrite Z.eqb_refl. cbn [mbind result_bind]. eexists.
split; [reflexivity|]. split; [exact T|].
split; [eexists; reflexivity|].
now apply (container_insert lo hi0 hi Array_t); [right | | | | |].
Qed.

(** One token read by the parser. *)
Lemma lex_token s tok s1 :
  state_ok s -> lex (Lexer.get_token mem) s = (tok, s1) ->
  pool s1 = pool s
  /\ state_ok s1
  /\ budget s1 <= budget s + match keyword_length tok with
                             | Some n => n
                             | None => 0
                             end
  /\ (opening tok = true -> budget s1 < budget s).
Proof.
intros (OK & P) L. apply lex_pool in L. destruct L as (Q & L).
destruct (get_token_length mem (lexer s) P) as (P1 & B1 & O1).
rewrite <- L in P1, B1, O1. cbn [fst snd] in P1, B1, O1.
split; [exact Q|]. split; [split; [now rewrite Q | exact P1]|].
unfold budget. rewrite Q. split; [lia|]. intros O. specialize (O1 O). lia.
Qed.

Lemma lex_end_of_array s b s1 :
  state_ok s -> lex (Lexer.end_of_array mem) s = (b, s1) ->
  pool s1 = pool s /\ state_ok s1 /\ budget s1 <= budget s.
Proof.
intros (OK & P) L. apply lex_pool in L. destruct L as (Q & L).
destruct (end_of_array_inside mem (lexer s) P) as ((S1 & E1 & P1) & _).
rewrite <- L in S1, E1, P1. cbn [fst snd] in S1, E1, P1.
split; [exact Q|]. split; [split; [now rewrite Q | exact P1]|].
unfold budget. rewrite Q. lia.
Qed.

Lemma loop_outcome_None c object s s' :
  state_ok s' -> frame c (pool s) (pool s') -> heap_ok c (pool s') ->
  (room (pool s) = false -> pool s' = pool s) ->
  loop_outcome c object s None s'.
Proof.
intros OK F HP R. split; [exact OK|]. split; [exact F|]. split; [exact HP|].
split; [now left|]. split; [exact R|]. intros N. now elim N.
Qed.

Lemma loop_outcome_after c object s s1 q s' :
  frame c (pool s) (pool s1) -> room (pool s) = true ->
  (q <> None -> budget s1 <= budget s) ->
  loop_outcome c object s1 q s' -> loop_outcome c object s q s'.
Proof.
intros F R B (OK & F' & HP & Q & _ & B').
split; [exact OK|]. split; [exact (frame_trans _ _ _ _ F F')|].
split; [exact HP|]. split; [exact Q|]. split; [congruence|].
intros N. specialize (B N). specialize (B' N). lia.
Qed.

Lemma container_at_pool g c q p p' :
  p' = p -> container_at g c q p -> container_at g c q p'.
Proof. now intros ->. Qed.

(** The loop of parse_object. *)
Lemma parse_object_loop_safe b pp :
  parser_safe b pp ->
  forall n symcount object token s c,
    Z.of_nat n <= b -> state_ok s ->
    container_at Object_t c object (pool s) -> heap_ok c (pool s) ->
    match parse_object_loop mem pp n symcount object token s with
    | Undefined => False
    | Timeout =>
        Z.of_nat n
        <= (if Json_Token_eqb token String_token then budget s else 0)
    | Done (q, s') =>
        loop_outcome c object s q s'
        /\ (q <> None -> keyword_length token = None)
    end.
Proof.
intros PP. induction n as [|n IH]; intros symcount object token s c B OK C HP.
{ cbn [parse_object_loop]. pose proof (budget_range s OK).
  destruct (Json_Token_eqb token String_token); simpl; lia. }
cbn [parse_object_loop].
destruct (Json_Token_eqb token Error_token).
{ split; [apply loop_outcome_None;
          [exact OK | apply frame_refl | exact HP | reflexivity]|].
  intros N. now elim N. }
destruct (Json_Token_eqb token Object_stop_token) eqn:T2.
{ apply Json_Token_eqb_eq in T2. subst token.
  split; [|reflexivity].
  split; [exact OK|]. split; [apply frame_refl|]. split; [exact HP|].
  split; [now right|]. split; [reflexivity | lia]. }
destruct (Json_Token_eqb token String_token) eqn:T3; cbn [negb].
2: { split; [apply loop_outcome_None;
             [exact OK | apply frame_refl | exact HP | reflexivity]|].
     intros N. now elim N. }
apply Json_Token_eqb_eq in T3. subst token.
destruct (get_symbol _ _ _) as [symbol [tbl sc]].
assert (OK0 : state_ok (mkState (pool s) (Lexer.set_table tbl (lexer s))))
  by exact OK.
destruct (lex (Lexer.get_token mem)
            (mkState (pool s) (Lexer.set_table tbl (lexer s))))
  as [tok s1] eqn:L1.
destruct (lex_token _ _ _ OK0 L1) as (P1 & OK1 & B1 & _).
change (pool s1 = pool s) in P1.
change (budget s1 <= budget s + match keyword_length tok with
                                | Some n0 => n0
                                | None => 0
                                end) in B1.
destruct (Json_Token_eqb tok Colon_token) eqn:T4; cbn [negb].
2: { split; [apply loop_outcome_None;
             [exact OK1 | rewrite P1; apply frame_refl
             | now rewrite P1 | now intros _]|].
     intros N. now elim N. }
apply Json_Token_eqb_eq in T4. subst tok. cbn [keyword_length] in B1.
pose proof (PP s1 OK1) as Q.
destruct (pp s1) as [[value s2]| |]; cbn [mbind result_bind];
  [| exact Q | lia].
destruct Q as (OK2 & F2 & H2 & V2 & R2). rewrite P1 in F2, H2, R2.
assert (Fc : forall i, c <= Z.of_nat i < json_pool_size (pool s) ->
             frame c (pool s) (pool s2)).
{ intros i I. apply (frame_weaken (json_pool_size (pool s))); [lia | exact F2]. }
pose proof (heap_ok_extend c _ _ HP F2 H2) as HP2.
destruct value as [v|].
2: { split; [|intros N; now elim N].
     apply loop_outcome_None;
       [exact OK2 | | exact HP2 | intros R; now apply R2].
     destruct object as [i|].
     - destruct C as (I & _). now apply (Fc i).
     - cbn [container_at] in C. destruct (R2 C) as (_ & ->). apply frame_refl. }
destruct V2 as (V2 & B2). rewrite P1 in V2.
assert (R : room (pool s) = true).
{ destruct (room (pool s)); [reflexivity|].
  destruct (R2 eq_refl) as (N & _). discriminate. }
destruct object as [i|];
  [|cbn [container_at] in C; rewrite C in R; discriminate].
destruct C as (I & y & t & NY & TY & VY).
assert (N2 : node_at (pool s2) (Some i) = Done y).
{ destruct F2 as (_ & _ & F2). rewrite F2 by lia. exact NY. }
assert (S2 : json_pool_size (pool s) <= json_pool_size (pool s2))
  by (destruct F2 as (_ & S2 & _); exact S2).
assert (K2 : node_ok (Z.of_nat i) (json_pool_size (pool s)) y).
{ destruct (HP i ltac:(lia)) as (y0 & Y0 & K0).
  assert (y0 = y) by congruence. now subst y0. }
destruct (insert_property_defined (Z.of_nat i) (json_pool_size (pool s))
            (json_pool_size (pool s2)) symbol v y t TY VY K2
            ltac:(lia) ltac:(lia))
  as (y' & FY & TY' & (t' & VY') & KY').
destruct (method_node i (insert_property symbol (Some v)) s2 y y' OK2 N2 FY)
  as (s3 & E3 & OK3 & B3 & S3 & N3 & F3 & H3).
rewrite E3. cbn [mbind result_bind].
assert (F03 : frame c (pool s) (pool s3)).
{ apply (frame_trans _ _ (pool s2)); [now apply (Fc i) | apply F3; lia]. }
assert (C3 : container_at Object_t c (Some i) (pool s3)).
{ split; [lia|]. exists y', t'. now repeat split. }
pose proof (H3 c HP2 KY') as HP3.
destruct (lex (Lexer.get_token mem) s3) as [tok2 s4] eqn:L4.
destruct (lex_token _ _ _ OK3 L4) as (P4 & OK4 & B4 & _).
assert (C4 : container_at Object_t c (Some i) (pool s4))
  by exact (container_at_pool _ _ _ _ _ P4 C3).
assert (F04 : frame c (pool s) (pool s4)) by now rewrite P4.
assert (HP4 : heap_ok c (pool s4)) by now rewrite P4.
destruct (Json_Token_eqb tok2 Object_stop_token) eqn:T5.
{ apply Json_Token_eqb_eq in T5. subst tok2. cbn [keyword_length] in B4.
  specialize (IH sc (Some i) Object_stop_token s4 c ltac:(lia) OK4 C4 HP4).
  destruct (parse_object_loop mem pp n sc (Some i) Object_stop_token s4)
    as [[q s']| |]; [| exact IH |].
  - destruct IH as (IH & _). split; [|reflexivity].
    apply (loop_outcome_after c (Some i) s s4); [exact F04 | exact R | | exact IH].
    intros _. lia.
  - cbn [Json_Token_eqb] in IH. pose proof (budget_range s2 OK2). lia. }
destruct (Json_Token_eqb tok2 Comma_token) eqn:T6; cbn [negb].
2: { split; [|intros N; now elim N].
     apply loop_outcome_None; [exact OK4 | exact F04 | exact HP4 | congruence]. }
apply Json_Token_eqb_eq in T6. subst tok2. cbn [keyword_length] in B4.
destruct (lex (Lexer.get_token mem) s4) as [tok3 s5] eqn:L5.
destruct (lex_token _ _ _ OK4 L5) as (P5 & OK5 & B5 & _).
assert (C5 : container_at Object_t c (Some i) (pool s5))
  by exact (container_at_pool _ _ _ _ _ P5 C4).
assert (F05 : frame c (pool s) (pool s5)) by now rewrite P5.
assert (HP5 : heap_ok c (pool s5)) by now rewrite P5.
specialize (IH sc (Some i) tok3 s5 c ltac:(lia) OK5 C5 HP5).
destruct (parse_object_loop mem pp n sc (Some i) tok3 s5)
  as [[q s']| |]; [| exact IH |].
- destruct IH as (IH & K). split; [|reflexivity].
  apply (loop_outcome_after c (Some i) s s5); [exact F05 | exact R | | exact IH].
  intros N. rewrite (K N) in B5. lia.
- pose proof (budget_range s2 OK2).
  destruct (Json_Token_eqb tok3 String_token) eqn:T7; [|lia].
  apply Json_Token_eqb_eq in T7. subst tok3. cbn [keyword_length] in B5. lia.
Qed.

(** What new_object and new_array leave in the slot. *)
Lemma container_made g lo hi x :
  (g = Object_t \/ g = Array_t) ->
  node_ok lo hi (set_variant (U_object []) (set_tag g (fresh x))).
Proof.
intros G. apply (node_ok_made lo hi _ g); [apply get_tag_set_tag|].
destruct G as [-> | ->]; reflexivity.
Qed.

(** parse_object. *)
Lemma parse_object_safe b pp n :
  parser_safe b pp -> Z.of_nat n <= b ->
  parser_safe (Z.of_nat n) (parse_object mem pp n).
Proof.
intros PP B s OK. unfold parse_object.
destruct (alloc_safe (fun x => set_variant (U_object []) (set_tag Object_t x))
            Object_t (U_object [])
            (fun x => get_tag_set_tag _ _) (fun x => eq_refl)
            (fun x lo hi => container_made Object_t lo hi x (or_introl eq_refl))
            s OK)
  as (q & s1 & E & LX & OK1 & F1 & H1 & B1 & R1 & Q1).
change (alloc new_object s = Done (q, s1)) in E.
rewrite E. cbn [mbind result_bind].
destruct (lex (Lexer.get_token mem) s1) as [tok s2] eqn:L2.
destruct (lex_token _ _ _ OK1 L2) as (P2 & OK2 & B2 & _).
assert (C2 : container_at Object_t (json_pool_size (pool s)) q (pool s2)).
{ rewrite P2. destruct q as [i|].
  - destruct Q1 as (I & _ & y & N & T & V). split; [exact I|].
    exists y, []. now repeat split.
  - cbn [container_at]. rewrite Q1.
    destruct (room (pool s)) eqn:R; [|reflexivity].
    destruct (construct_node
                (fun x => set_variant (U_object []) (set_tag Object_t x))
                (pool s) (proj1 OK) R) as (x & p' & _ & E' & _).
    unfold alloc in E. change new_object with
      (construct (fun x => set_variant (U_object []) (set_tag Object_t x))) in E.
    rewrite E' in E. discriminate. }
assert (HP2 : heap_ok (json_pool_size (pool s)) (pool s2)) by now rewrite P2.
pose proof (parse_object_loop_safe b pp PP n JSON_SYMBOL_BASE q tok s2
              (json_pool_size (pool s)) B OK2 C2 HP2) as LS.
destruct (parse_object_loop mem pp n JSON_SYMBOL_BASE q tok s2)
  as [[q' s']| |]; [| exact LS |].
- destruct LS as ((OK' & F' & H' & Q' & R' & B') & K).
  rewrite P2 in F', R'.
  split; [exact OK'|]. split; [exact (frame_trans _ _ _ _ F1 F')|].
  split; [exact H'|]. split.
  + destruct q' as [i'|]; [|exact I].
    destruct Q' as [Q'|Q']; [discriminate|]. subst q.
    destruct Q1 as (I1 & B6 & _).
    assert (N : Some i' <> None) by discriminate.
    specialize (B' N). rewrite (K N) in B2.
    destruct F' as (_ & S' & _). split; lia.
  + intros R. destruct (R1 R) as (-> & PS).
    split; [now destruct Q'|]. rewrite R' by now rewrite PS. exact PS.
- pose proof (budget_range s OK).
  destruct (Json_Token_eqb tok String_token) eqn:T; [|lia].
  apply Json_Token_eqb_eq in T. subst tok. cbn [keyword_length] in B2. lia.
Qed.

(** The loop of parse_array. *)
Lemma parse_array_loop_safe b pp :
  parser_safe b pp ->
  forall n array index s c,
    Z.of_nat n <= b -> state_ok s ->
    container_at Array_t c array (pool s) -> heap_ok c (pool s) ->
    match parse_array_loop mem pp n array index s with
    | Undefined => False
    | Timeout => Z.of_nat n <= budget s
    | Done (q, s') => loop_outcome c array s q s'
    end.
Proof.
intros PP. induction n as [|n IH]; intros array index s c B OK C HP.
{ cbn [parse_array_loop]. pose proof (budget_range s OK). lia. }
cbn [parse_array_loop].
pose proof (PP s OK) as Q.
destruct (pp s) as [[item s1]| |]; cbn [mbind result_bind];
  [| exact Q | lia].
destruct Q as (OK1 & F1 & H1 & V1 & R1).
assert (Fc : forall i, c <= Z.of_nat i < json_pool_size (pool s) ->
             frame c (pool s) (pool s1)).
{ intros i I. apply (frame_weaken (json_pool_size (pool s))); [lia | exact F1]. }
pose proof (heap_ok_extend c _ _ HP F1 H1) as HP1.
destruct item as [v|].
2: { apply loop_outcome_None;
       [exact OK1 | | exact HP1 | intros R; now apply R1].
     destruct array as [i|].
     - destruct C as (I & _). now apply (Fc i).
     - cbn [container_at] in C. destruct (R1 C) as (_ & ->). apply frame_refl. }
destruct V1 as (V1 & B1).
assert (R : room (pool s) = true).
{ destruct (room (pool s)); [reflexivity|].
  destruct (R1 eq_refl) as (N & _). discriminate. }
destruct array as [i|];
  [|cbn [container_at] in C; rewrite C in R; discriminate].
destruct C as (I & y & t & NY & TY & VY).
assert (N1 : node_at (pool s1) (Some i) = Done y).
{ destruct F1 as (_ & _ & F1). rewrite F1 by lia. exact NY. }
assert (S1 : json_pool_size (pool s) <= json_pool_size (pool s1))
  by (destruct F1 as (_ & S1 & _); exact S1).
assert (K1 : node_ok (Z.of_nat i) (json_pool_size (pool s)) y).
{ destruct (HP i ltac:(lia)) as (y0 & Y0 & K0).
  assert (y0 = y) by congruence. now subst y0. }
destruct (insert_array_item_defined (Z.of_nat i) (json_pool_size (pool s))
            (json_pool_size (pool s1)) index v y t TY VY K1
            ltac:(lia) ltac:(lia))
  as (y' & FY & TY' & (t' & VY') & KY').
destruct (method_node i (insert_array_item index (Some v)) s1 y y' OK1 N1 FY)
  as (s2 & E2 & OK2 & B2 & S2 & N2 & F2 & H2).
rewrite E2. cbn [mbind result_bind].
assert (F02 : frame c (pool s) (pool s2)).
{ apply (frame_trans _ _ (pool s1)); [now apply (Fc i) | apply F2; lia]. }
assert (C2 : container_at Array_t c (Some i) (pool s2)).
{ split; [lia|]. exists y', t'. now repeat split. }
pose proof (H2 c HP1 KY') as HP2.
destruct (lex (Lexer.get_token mem) s2) as [tok s3] eqn:L3.
destruct (lex_token _ _ _ OK2 L3) as (P3 & OK3 & B3 & _).
assert (C3 : container_at Array_t c (Some i) (pool s3))
  by exact (container_at_pool _ _ _ _ _ P3 C2).
assert (F03 : frame c (pool s) (pool s3)) by now rewrite P3.
assert (HP3 : heap_ok c (pool s3)) by now rewrite P3.
destruct (Json_Token_eqb tok Array_stop_token) eqn:T1.
{ apply Json_Token_eqb_eq in T1. subst tok. cbn [keyword_length] in B3.
  split; [exact OK3|]. split; [exact F03|]. split; [exact HP3|].
  split; [now right|]. split; [congruence | intros _; lia]. }
destruct (Json_Token_eqb tok Comma_token) eqn:T2; cbn [negb].
2: { apply loop_outcome_None; [exact OK3 | exact F03 | exact HP3 | congruence]. }
apply Json_Token_eqb_eq in T2. subst tok. cbn [keyword_length] in B3.
specialize (IH (Some i) (to_uint (index + 1)) s3 c ltac:(lia) OK3 C3 HP3).
destruct (parse_array_loop mem pp n (Some i) (to_uint (index + 1)) s3)
  as [[q s']| |]; [| exact IH | lia].
apply (loop_outcome_after c (Some i) s s3); [exact F03 | exact R | | exact IH].
intros _. lia.
Qed.

(** parse_array. *)
Lemma parse_array_safe b pp n :
  parser_safe b pp -> Z.of_nat n <= b ->
  parser_safe (Z.of_nat n) (parse_array mem pp n).
Proof.
intros PP B s OK. unfold parse_array.
destruct (alloc_safe (fun x => set_variant (U_object []) (set_tag Array_t x))
            Array_t (U_object [])
            (fun x => get_tag_set_tag _ _) (fun x => eq_refl)
            (fun x lo hi => container_made Array_t lo hi x (or_intror eq_refl))
            s OK)
  as (q & s1 & E & LX & OK1 & F1 & H1 & B1 & R1 & Q1).
change (alloc new_array s = Done (q, s1)) in E.
rewrite E. cbn [mbind result_bind].
destruct (lex (Lexer.end_of_array mem) s1) as [closing s2] eqn:L2.
destruct (lex_end_of_array _ _ _ OK1 L2) as (P2 & OK2 & B2).
assert (F2 : frame (json_pool_size (pool s)) (pool s) (pool s2))
  by now rewrite P2.
assert (HP2 : heap_ok (json_pool_size (pool s)) (pool s2)) by now rewrite P2.
assert (C2 : container_at Array_t (json_pool_size (pool s)) q (pool s2)).
{ rewrite P2. destruct q as [i|].
  - destruct Q1 as (I & _ & y & N & T & V). split; [exact I|].
    exists y, []. now repeat split.
  - cbn [container_at]. rewrite Q1.
    destruct (room (pool s)) eqn:R; [|reflexivity].
    destruct (construct_node
                (fun x => set_variant (U_object []) (set_tag Array_t x))
                (pool s) (proj1 OK) R) as (x & p' & _ & E' & _).
    unfold alloc in E. change new_array with
      (construct (fun x => set_variant (U_object []) (set_tag Array_t x))) in E.
    rewrite E' in E. discriminate. }
destruct closing.
{ split; [exact OK2|]. split; [exact F2|]. split; [exact HP2|]. split.
  - destruct q as [i|]; [|exact I]. destruct Q1 as (I1 & B6 & _).
    rewrite P2. split; lia.
  - intros R. destruct (R1 R) as (-> & PS). split; [reflexivity | congruence]. }
pose proof (parse_array_loop_safe b pp PP n q 0 s2
              (json_pool_size (pool s)) B OK2 C2 HP2) as LS.
destruct (parse_array_loop mem pp n q 0 s2) as [[q' s']| |];
  [| exact LS |].
- destruct LS as (OK' & F' & H' & Q' & R' & B').
  rewrite P2 in F', R'.
  split; [exact OK'|]. split; [exact (frame_trans _ _ _ _ F1 F')|].
  split; [exact H'|]. split.
  + destruct q' as [i'|]; [|exact I].
    destruct Q' as [Q'|Q']; [discriminate|]. subst q.
    destruct Q1 as (I1 & B6 & _).
    assert (N : Some i' <> None) by discriminate.
    specialize (B' N).
    destruct F' as (_ & S' & _). split; lia.
  + intros R. destruct (R1 R) as (-> & PS).
    split; [now destruct Q'|]. rewrite R' by now rewrite PS. exact PS.
- lia.
Qed.

Ltac scalar_side :=
  first [reflexivity
        | intros x; cbv beta;
          first [apply get_tag_set_tag
                | rewrite get_tag_set_str_length_any; apply get_tag_set_tag
                | cbv [variant set_str_length set_variant set_tag fresh];
                  reflexivity]
        | intros x lo hi; cbv beta;
          first [eapply node_ok_made; [apply get_tag_set_tag|];
                 first [exact I | eexists; reflexivity]
                | eapply (node_ok_made _ _ _ String_t);
                  [rewrite get_tag_set_str_length_any; apply get_tag_set_tag
                  | eexists; reflexivity]]].

(** The switch of parse_private: every case returns. *)
Lemma parse_private_switch_safe b po pa :
  parser_safe b po -> parser_safe b pa ->
  forall token s, state_ok s ->
    switch_outcome b token s (parse_private_switch po pa token s).
Proof.
intros PO PA token s OK.
assert (A : forall init g u,
          (forall x, get_tag (init (fresh x)) = tag_code g) ->
          (forall x, variant (init (fresh x)) = u) ->
          (forall x lo hi, node_ok lo hi (init (fresh x))) ->
          opening token = false ->
          switch_outcome b token s
            (alloc (construct init) s
             ≫= fun '(v, s') => Done (Return v, s'))).
{ intros init g u T V K O.
  destruct (alloc_safe init g u T V K s OK)
    as (q & s1 & E & _ & OK1 & F1 & H1 & _ & R1 & Q1).
  rewrite E. cbn [mbind result_bind]. exists q.
  split; [reflexivity|]. split; [exact OK1|]. split; [exact F1|].
  split; [exact H1|].
  split; [exact R1|]. destruct q as [i|]; [|exact I].
  destruct Q1 as (I1 & B6 & _). rewrite O. split; lia. }
assert (C : forall pp, parser_safe b pp -> opening token = true ->
          switch_outcome b token s
            (pp s ≫= fun '(v, s') => Done (Return v, s'))).
{ intros pp PP O. pose proof (PP s OK) as Q.
  destruct (pp s) as [[v s1]| |]; cbn [mbind result_bind];
    [| exact Q | now split].
  destruct Q as (OK1 & F1 & H1 & V1 & R1). exists v.
  split; [reflexivity|]. split; [exact OK1|]. split; [exact F1|].
  split; [exact H1|].
  split; [exact R1|]. destruct v as [i|]; [|exact I].
  rewrite O. destruct V1 as (V1 & B1). split; lia. }
assert (D : switch_outcome b token s (Done (Return null, s))).
{ exists None. split; [reflexivity|]. split; [exact OK|].
  split; [apply frame_refl|]. split; [apply heap_ok_empty; lia|].
  split; [now split | exact I]. }
unfold parse_private_switch.
destruct token; try exact D; try (now apply C);
  unfold new_null, new_boolean, new_float, new_unsigned, new_signed,
    new_string;
  first [eapply (A _ String_t); scalar_side
        | eapply (A _ Float_t); scalar_side
        | eapply (A _ Unsigned_t); scalar_side
        | eapply (A _ Signed_t); scalar_side
        | eapply (A _ Boolean_t); scalar_side
        | eapply (A _ Null_t); scalar_side].
Qed.

(** parse_private never does anything undefined, leaves the nodes it
    found alone, and has fuel enough whenever the fuel exceeds the
    budget of the state it is called on. *)
Lemma parse_private_safe fuel :
  parser_safe (Z.of_nat fuel) (parse_private mem fuel).
Proof.
induction fuel as [|f IH]; intros s OK.
{ cbn [parse_private]. pose proof (budget_range s OK). lia. }
cbn [parse_private]. unfold parse_private_body, switch_then.
destruct (lex (Lexer.get_token mem) s) as [tok s1] eqn:L1.
destruct (lex_token _ _ _ OK L1) as (P1 & OK1 & B1 & O1).
pose proof (parse_private_switch_safe (Z.of_nat f)
              (parse_object mem (parse_private mem f) f)
              (parse_array mem (parse_private mem f) f)
              (parse_object_safe _ _ f IH (Z.le_refl _))
              (parse_array_safe _ _ f IH (Z.le_refl _)) tok s1 OK1) as Q.
unfold switch_outcome in Q.
destruct (parse_private_switch _ _ tok s1) as [[fl s2]| |];
  cbn [mbind result_bind]; [| exact Q |].
- destruct Q as (v & -> & OK2 & F2 & H2 & R2 & V2). rewrite P1 in F2, H2, R2.
  split; [exact OK2|]. split; [exact F2|]. split; [exact H2|].
  split; [|exact R2].
  destruct v as [i|]; [|exact I]. destruct V2 as (V2 & B2).
  rewrite P1 in V2. split; [exact V2|].
  destruct (opening tok) eqn:O.
  + specialize (O1 eq_refl). lia.
  + destruct tok; cbn [keyword_length] in B1; lia.
- destruct Q as (O & B). specialize (O1 O). lia.
Qed.

End ParserSafety.

Lemma parse_safe `{Host} (mem : Z -> Z) (fuel : nat) (p : Pool)
    (l : Lexer.t) (len : Z) :
  pool_ok p -> 0 <= len ->
  match parse mem fuel p l len with
  | Undefined => False
  | Timeout => Z.of_nat fuel <= len + 6 * free_slots p
  | Done (q, s) =>
      outcome_safe (mkState p (Lexer.set_length len (Lexer.set_src 0 l))) q s
  end.
Proof.
intros OK P. unfold parse.
exact (parse_private_safe mem fuel
         (mkState p (Lexer.set_length len (Lexer.set_src 0 l)))
         (conj OK P)).
Qed.

Lemma parse_done `{Host} (mem : Z -> Z) (fuel : nat) (p : Pool)
    (l : Lexer.t) (len : Z) :
  pool_ok p -> 0 <= len -> len + 6 * free_slots p < Z.of_nat fuel ->
  exists q s, parse mem fuel p l len = Done (q, s).
Proof.
intros OK P B. pose proof (parse_safe mem fuel p l len OK P) as Q.
destruct (parse mem fuel p l len) as [[q s]| |];
  [eauto | contradiction | lia].
Qed.

(** X5.  On a pool that matches its buffer parse does nothing undefined,
    whatever the bytes in memory and the length given, and it comes back:
    the recursion and the loops end within length + 6 * (free slots) + 1
    steps of the embedding's fuel. *)
Theorem parse_always_returns `{Host} (mem : Z -> Z) (fuel : nat) (p : Pool)
    (l : Lexer.t) (len : Z) :
  pool_ok p -> 0 <= len ->
  parse mem fuel p l len <> Undefined
  /\ (len + 6 * free_slots p < Z.of_nat fuel ->
      exists q s, parse mem fuel p l len = Done (q, s) /\ pool_ok (pool s)).
Proof.
intros OK P. pose proof (parse_safe mem fuel p l len OK P) as Q.
destruct (parse mem fuel p l len) as [[q s]| |].
- split; [discriminate|]. intros _. exists q, s.
  split; [reflexivity|]. now destruct Q as ((OK' & _) & _).
- contradiction.
- split; [discriminate|]. intros B. lia.
Qed.

Lemma parse_always_returns_witness :
  exists q s,
    parse (H := ExampleHost.host) (terminated [91; 49; 44; 93]) 17
          (ExampleHost.fresh_pool 2) ExampleHost.fresh_lexer 4
    = Done (q, s)
    /\ pool_ok (pool s).
Proof.
destruct (parse_always_returns (H := ExampleHost.host)
            (terminated [91; 49; 44; 93]) 17
            (ExampleHost.fresh_pool 2) ExampleHost.fresh_lexer 4)
  as (_ & D).
- apply initialise_ok; vm_compute; [split|]; discriminate.
- lia.
- apply D. reflexivity.
Defined.

(** X6.  A parse leaves every node allocated before it as it was and
    does not change the capacity; the node it returns, if any, lies at or
    above the cursor it found and below the cursor it leaves. *)
Theorem parse_leaves_earlier_nodes `{Host} (mem : Z -> Z) (fuel : nat)
    (p : Pool) (l : Lexer.t) (len : Z) (q : ptr) (s : State) :
  pool_ok p -> 0 <= len ->
  parse mem fuel p l len = Done (q, s) ->
  json_pool_length (pool s) = json_pool_length p
  /\ (forall j : nat, Z.of_nat j < json_pool_size p ->
        node_at (pool s) (Some j) = node_at p (Some j))
  /\ match q with
     | Some i => json_pool_size p <= Z.of_nat i < json_pool_size (pool s)
     | None => json_pool_size p <= json_pool_size (pool s)
     end.
Proof.
intros OK P E. pose proof (parse_safe mem fuel p l len OK P) as Q.
rewrite E in Q. destruct Q as (_ & (L & S & N) & _ & V & _).
cbn [pool] in L, S, N, V.
split; [exact L|]. split; [exact N|].
destruct q as [i|]; [now destruct V | exact S].
Qed.

Lemma parse_leaves_earlier_nodes_witness :
  exists q s,
    parse (H := ExampleHost.host) (terminated [91; 49; 44; 50; 93]) 30
          (@mkPool ExampleHost.host
             (Some (replicate 4 (@zero_node ExampleHost.host))) 4 1)
          ExampleHost.fresh_lexer 5
    = Done (q, s)
    /\ node_at (pool s) (Some 0%nat) = Done (@zero_node ExampleHost.host)
    /\ match q with
       | Some i => 1 <= Z.of_nat i < json_pool_size (pool s)
       | None => 1 <= json_pool_size (pool s)
       end.
Proof.
assert (OK : pool_ok (@mkPool ExampleHost.host
                        (Some (replicate 4 (@zero_node ExampleHost.host)))
                        4 1)).
{ split; [cbn; lia|]. split; [cbn; unfold UINT_MAX, UINT_BITS; lia|].
  intros slots E. inversion E. cbn. lia. }
destruct (parse_done (H := ExampleHost.host)
            (terminated [91; 49; 44; 50; 93]) 30
            (@mkPool ExampleHost.host
               (Some (replicate 4 (@zero_node ExampleHost.host))) 4 1)
            ExampleHost.fresh_lexer 5 OK) as (q & s & E);
  [lia | reflexivity |].
exists q, s. split; [exact E|].
assert (P : 0 <= 5) by lia.
destruct (parse_leaves_earlier_nodes (H := ExampleHost.host) _ _ _ _ 5 q s
            OK P E) as (_ & N & V).
split; [|exact V]. rewrite (N 0%nat) by (cbn; lia). reflexivity.
Defined.

(** X7.  When the pool has no slot left, or was never given a buffer,
    parse returns null for every input and leaves the pool as it is. *)
Theorem exhausted_pool_gives_null `{Host} (mem : Z -> Z) (fuel : nat)
    (p : Pool) (l : Lexer.t) (len : Z) :
  pool_ok p -> room p = false -> 0 <= len -> len < Z.of_nat fuel ->
  exists s, parse mem fuel p l len = Done (null, s) /\ pool s = p.
Proof.
intros OK R P B. pose proof (parse_safe mem fuel p l len OK P) as Q.
assert (F : free_slots p = 0) by (unfold free_slots; now rewrite R).
destruct (parse mem fuel p l len) as [[q s]| |]; [| contradiction | lia].
destruct Q as (_ & _ & _ & _ & Q). destruct (Q R) as (-> & PS).
exists s. split; [reflexivity | exact PS].
Qed.

Lemma exhausted_pool_gives_null_witness :
  exists s,
    parse (H := ExampleHost.host) (terminated [91; 49; 93]) 4
          (@static_pool ExampleHost.host) ExampleHost.fresh_lexer 3
    = Done (null, s)
    /\ pool s = @static_pool ExampleHost.host.
Proof.
apply (exhausted_pool_gives_null (H := ExampleHost.host)).
- split; [cbn; lia|]. split; [cbn; unfold UINT_MAX, UINT_BITS; lia|].
  intros slots E. discriminate E.
- reflexivity.
- lia.
- lia.
Defined.

(** ** Printing what was parsed *)

Lemma no_empty_by_scan `{Host} (p : Pool) (slots : list JSON) :
  json_pool p = Some slots ->
  forallb (fun y => negb (empty_container y)) slots = true ->
  forall (j : nat) y, node_at p (Some j) = Done y -> empty_container y = false.
Proof.
intros P F j y N. unfold node_at in N. rewrite P in N.
destruct (slots !! j) as [x|] eqn:X; [|discriminate].
inversion N; subst x.
rewrite forallb_forall in F. apply negb_true_iff. apply F.
apply list_elem_of_In. exact (list_elem_of_lookup_2 _ _ _ X).
Qed.

(** On well-formed nodes none of which is a container without entries,
    print reads only union members that were written and follows only
    pointers to later slots, so it is defined and ends. *)
Lemma print_defined `{Host} (mem : Z -> Z) (p : Pool) (c : Z) :
  heap_ok c p ->
  (forall (j : nat) y,
     c <= Z.of_nat j < json_pool_size p ->
     node_at p (Some j) = Done y -> empty_container y = false) ->
  forall (n i : nat),
    c <= Z.of_nat i < json_pool_size p ->
    json_pool_size p - Z.of_nat i <= Z.of_nat n ->
    exists o, print mem (S n) p (Some i) = Done o.
Proof.
intros HP NE. induction n as [|n IH]; intros i I B; [lia|].
rewrite print_S. destruct (HP i I) as (y & Y & K). rewrite Y.
pose proof (NE i y I Y) as Ey.
cbn [mbind result_bind]. unfold print_body. unfold node_ok in K.
unfold empty_container in Ey.
assert (P : forall t : AvlNode.tree,
          (forall k v, In (k, v) t ->
                       child_ok (Z.of_nat i) (json_pool_size p) v) ->
          forall k v, In (k, v) t ->
            print mem (S n) p v
            = Done (match print mem (S n) p v with
                    | Done x => x
                    | _ => []
                    end)).
{ intros t C k v J. specialize (C k v J). destruct v as [j|]; [|easy].
  cbn [child_ok] in C. destruct (IH j ltac:(lia) ltac:(lia)) as (o & E).
  now rewrite E. }
destruct (tag_of_code (get_tag y)) as [[]|].
- destruct K as (t & V & _ & _ & C). rewrite V in Ey.
  unfold variant_object. rewrite V. cbn [mbind result_bind].
  destruct t as [|e t']; [discriminate|].
  destruct (last_is_Some e t') as ([kmax vmax] & L).
  unfold last_value. rewrite L. cbn [mbind result_bind].
  rewrite (apply_name_value (print mem (S n) p) _ _ (e :: t') _
             (P (e :: t') C)).
  cbn [mbind result_bind]. eexists. reflexivity.
- destruct K as (t & V & _ & _ & C). rewrite V in Ey.
  unfold variant_object. rewrite V. cbn [mbind result_bind].
  destruct t as [|e t']; [discriminate|].
  destruct (last_is_Some e t') as ([kmax vmax] & L).
  unfold last_value. rewrite L. cbn [mbind result_bind].
  rewrite (apply_array_item (print mem (S n) p) _ _ (e :: t') _
             (P (e :: t') C)).
  cbn [mbind result_bind]. eexists. reflexivity.
- destruct K as (str & V). rewrite V. eexists. reflexivity.
- destruct K as (x & V). rewrite V. eexists. reflexivity.
- destruct K as (x & V). rewrite V. eexists. reflexivity.
- destruct K as (x & V). rewrite V. eexists. reflexivity.
- destruct K as (x & V). rewrite V. eexists. reflexivity.
- eexists. reflexivity.
- eexists. reflexivity.
- eexists. reflexivity.
Qed.

(** X8.  A value returned by parse can be printed, unless a container
    without entries is in the way: when none of the nodes the parse
    allocated is an Object or Array whose map has no entries, print on
    the result reads the union member that was written under each node's
    tag, calls itself only through pointers that are not null and lead to
    later slots, and ends.  (On a container without entries print is
    undefined, see C5.) *)
Theorem parsed_value_prints `{Host} (mem : Z -> Z) (fuel : nat) (p : Pool)
    (l : Lexer.t) (len : Z) (i : nat) (s : State) (n : nat) :
  pool_ok p -> 0 <= len ->
  parse mem fuel p l len = Done (Some i, s) ->
  json_pool_size (pool s) - Z.of_nat i <= Z.of_nat n ->
  (forall (j : nat) y,
     json_pool_size p <= Z.of_nat j < json_pool_size (pool s) ->
     node_at (pool s) (Some j) = Done y -> empty_container y = false) ->
  exists o, print mem (S n) (pool s) (Some i) = Done o.
Proof.
intros OK P E B NE. pose proof (parse_safe mem fuel p l len OK P) as Q.
rewrite E in Q. destruct Q as (_ & _ & HP & (I & _) & _).
cbn [pool] in HP, I.
exact (print_defined mem (pool s) (json_pool_size p) HP NE n i I B).
Qed.

Lemma parsed_value_prints_witness :
  exists s o,
    parse (H := ExampleHost.host)
          (terminated [91; 49; 44; 91; 116; 114; 117; 101; 93; 93]) 4
          (ExampleHost.fresh_pool 4) ExampleHost.fresh_lexer 10
    = Done (Some 0%nat, s)
    /\ print (terminated [91; 49; 44; 91; 116; 114; 117; 101; 93; 93]) 5
             (pool s) (Some 0%nat)
       = Done o.
Proof.
assert (E : exists s,
          parse (H := ExampleHost.host)
                (terminated [91; 49; 44; 91; 116; 114; 117; 101; 93; 93]) 4
                (ExampleHost.fresh_pool 4) ExampleHost.fresh_lexer 10
          = Done (Some 0%nat, s)
          /\ json_pool_size (pool s) = 4
          /\ forall (j : nat) y,
               node_at (pool s) (Some j) = Done y ->
               empty_container y = false).
{ run_parse. eexists. split; [reflexivity|]. split; [reflexivity|].
  eapply no_empty_by_scan; reflexivity. }
destruct E as (s & E & S4 & NE).
destruct (parsed_value_prints (H := ExampleHost.host)
            (terminated [91; 49; 44; 91; 116; 114; 117; 101; 93; 93]) 4
            (ExampleHost.fresh_pool 4) ExampleHost.fresh_lexer 10
            0%nat s 4%nat) as (o & P).
- apply initialise_ok; vm_compute; [split|]; discriminate.
- lia.
- exact E.
- rewrite S4. lia.
- intros j y _ N. exact (NE j y N).
- exists s, o. split; [exact E | exact P].
Defined.

(** X15.  The containers a parse builds are maps as print expects them:
    every Object or Array node allocated by the parse holds a map whose
    keys are in ascending order and whose values are pairwise different
    pointers, none of them null, each to a slot allocated after the
    container and before the cursor the parse leaves.  So in what parse
    builds no two entries share a node. *)
Theorem parsed_containers_are_maps `{Host} (mem : Z -> Z) (fuel : nat)
    (p : Pool) (l : Lexer.t) (len : Z) (q : ptr) (s : State)
    (j : nat) (y : JSON) :
  pool_ok p -> 0 <= len ->
  parse mem fuel p l len = Done (q, s) ->
  json_pool_size p <= Z.of_nat j < json_pool_size (pool s) ->
  node_at (pool s) (Some j) = Done y ->
  get_tag y = tag_code Object_t \/ get_tag y = tag_code Array_t ->
  exists t,
    variant y = U_object t
    /\ ascending t = true
    /\ List.NoDup (map snd t)
    /\ forall k v, In (k, v) t ->
         exists c : nat,
           v = Some c
           /\ Z.of_nat j < Z.of_nat c < json_pool_size (pool s).
Proof.
intros OK P E J Y T. pose proof (parse_safe mem fuel p l len OK P) as Q.
rewrite E in Q. destruct Q as (_ & _ & HP & _).
cbn [pool] in HP. destruct (HP j J) as (y0 & Y0 & K).
assert (y0 = y) by congruence. subst y0. unfold node_ok in K.
assert (K' : exists t, variant y = U_object t
                       /\ ascending t = true
                       /\ List.NoDup (map snd t)
                       /\ forall k v, In (k, v) t ->
                            child_ok (Z.of_nat j) (json_pool_size (pool s)) v).
{ destruct T as [T|T]; rewrite T in K; exact K. }
destruct K' as (t & V & A & N & C). exists t.
split; [exact V|]. split; [exact A|]. split; [exact N|].
intros k v I. specialize (C k v I). destruct v as [c|]; [|easy].
exists c. split; [reflexivity | exact C].
Qed.

Lemma parsed_containers_are_maps_witness :
  exists s y t,
    parse (H := ExampleHost.host)
          (terminated [91; 49; 44; 91; 116; 114; 117; 101; 93; 93]) 4
          (ExampleHost.fresh_pool 4) ExampleHost.fresh_lexer 10
    = Done (Some 0%nat, s)
    /\ node_at (pool s) (Some 0%nat) = Done y
    /\ variant y = U_object t
    /\ List.NoDup (map snd t).
Proof.
assert (E : exists s y,
          parse (H := ExampleHost.host)
                (terminated [91; 49; 44; 91; 116; 114; 117; 101; 93; 93]) 4
                (ExampleHost.fresh_pool 4) ExampleHost.fresh_lexer 10
          = Done (Some 0%nat, s)
          /\ json_pool_size (pool s) = 4
          /\ node_at (pool s) (Some 0%nat) = Done y
          /\ get_tag y = tag_code Array_t).
{ run_parse. eexists. eexists. split; [reflexivity|].
  split; [reflexivity|]. split; reflexivity. }
destruct E as (s & y & E & S4 & Y & T).
destruct (parsed_containers_are_maps (H := ExampleHost.host)
            (terminated [91; 49; 44; 91; 116; 114; 117; 101; 93; 93]) 4
            (ExampleHost.fresh_pool 4) ExampleHost.fresh_lexer 10
            (Some 0%nat) s 0%nat y) as (t & V & _ & N & _).
- apply initialise_ok; vm_compute; [split|]; discriminate.
- lia.
- exact E.
- rewrite S4. cbn. lia.
- exact Y.
- right. exact T.
- exists s, y, t. repeat split; assumption.
Defined.

(** ** Scalars, from the text to the output *)

Lemma get_str_length_set_str_length_any `{Host} len x :
  get_str_length (set_str_length len x) = len mod 2 ^ 28.
Proof.
unfold get_str_length, set_str_length. cbn [taglen].
rewrite Z.shiftr_lor, Z.shiftr_land. change (Z.shiftr 15 4) with 0.
rewrite Z.land_0_r, Z.lor_0_l.
rewrite Z.shiftl_mul_pow2, Z.shiftr_div_pow2 by lia.
unfold to_uint. rewrite two_pow_bits.
change (2 ^ 4) with 16. change (2 ^ 28) with 268435456.
Z.div_mod_to_equations. lia.
Qed.

(** One case of the switch followed by print, for the constructor
    [init] of tag [g]. *)
Lemma scalar_case `{Host} (mem : Z -> Z) init g p l1 (text : list out) :
  pool_ok p -> room p = true ->
  (forall x, get_tag (init (fresh x)) = tag_code g) ->
  (forall x pr, print_body mem pr (init (fresh x)) = Done text) ->
  exists s,
    alloc (construct init) (mkState p l1)
    = Done (Some (Z.to_nat (json_pool_size p)), s)
    /\ lexer s = l1
    /\ forall n, print mem (S n) (pool s)
                   (Some (Z.to_nat (json_pool_size p)))
                 = Done text.
Proof.
intros OK R T P.
destruct (construct_node init p OK R) as (x & p' & _ & E & N & _).
unfold alloc. cbn [pool lexer]. rewrite E. cbn [mbind result_bind].
eexists. split; [reflexivity|]. split; [reflexivity|].
intros n. rewrite print_S. cbn [pool]. rewrite N. cbn [mbind result_bind].
apply P.
Qed.

(** X9.  A scalar at the start of the input goes from the text to the
    output in one step each way: with a free slot, parse returns the slot
    under the cursor, leaves the lexer as the one token read left it, and
    print on the result emits the literal's fixed text, the number the
    lexer holds, or the quoted bytes of the token, the length taken modulo
    2^28. *)
Theorem scalars_print_back `{Host} (mem : Z -> Z) (fuel : nat) (p : Pool)
    (l : Lexer.t) (len : Z) :
  pool_ok p -> room p = true -> (1 <= fuel)%nat ->
  let r := Lexer.get_token mem (Lexer.set_length len (Lexer.set_src 0 l)) in
  scalar_token (fst r) = true ->
  exists s,
    parse mem fuel p l len = Done (Some (Z.to_nat (json_pool_size p)), s)
    /\ lexer s = snd r
    /\ forall n, print mem (S n) (pool s)
                   (Some (Z.to_nat (json_pool_size p)))
                 = Done (scalar_text mem (fst r) (snd r)).
Proof.
intros OK R F r Sc. subst r.
destruct fuel as [|f]; [lia|]. unfold parse. rewrite parse_private_S.
unfold parse_private_body, switch_then, lex. cbn [lexer pool].
destruct (Lexer.get_token mem (Lexer.set_length len (Lexer.set_src 0 l)))
  as [tok l1]. cbn [fst snd] in Sc |- *.
assert (A : forall init g text,
          (forall x, get_tag (init (fresh x)) = tag_code g) ->
          (forall x pr, print_body mem pr (init (fresh x)) = Done text) ->
          exists s,
            (alloc (construct init) (mkState p l1)
             ≫= (fun '(v, s') => Done (Return v, s')))
            ≫= (fun '(fl, s0) =>
                  match fl with
                  | Return v => Done (v, s0)
                  | Fallthrough => after_switch mem s0
                  end)
            = Done (Some (Z.to_nat (json_pool_size p)), s)
            /\ lexer s = l1
            /\ forall n, print mem (S n) (pool s)
                           (Some (Z.to_nat (json_pool_size p)))
                         = Done text).
{ intros init g text T P.
  destruct (scalar_case mem init g p l1 text OK R T P) as (s & E & L & Q).
  rewrite E. cbn [mbind result_bind]. exists s. now split. }
assert (B : forall g u x,
          tag_of_code (get_tag (set_variant u (set_tag g (fresh x)))) = Some g).
{ intros g u x.
  change (get_tag (set_variant u (set_tag g (fresh x))))
    with (get_tag (set_tag g (fresh x))).
  rewrite get_tag_set_tag. apply tag_of_code_tag_code. }
destruct tok; try discriminate Sc; unfold parse_private_switch;
  cbn [lexer scalar_text];
  unfold new_null, new_boolean, new_float, new_unsigned, new_signed,
    new_string.
- apply (A _ String_t).
  + intros x. rewrite get_tag_set_str_length_any. apply get_tag_set_tag.
  + intros x pr. unfold print_body.
    rewrite get_tag_set_str_length_any.
    change (get_tag (set_variant (U_str (Lexer.token_src l1))
                       (set_tag String_t (fresh x))))
      with (get_tag (set_tag String_t (fresh x))).
    rewrite get_tag_set_tag, tag_of_code_tag_code.
    rewrite get_str_length_set_str_length_any. reflexivity.
- apply (A _ Float_t); [intros x; apply get_tag_set_tag|].
  intros x pr. unfold print_body. now rewrite (B Float_t _ x).
- apply (A _ Unsigned_t); [intros x; apply get_tag_set_tag|].
  intros x pr. unfold print_body. now rewrite (B Unsigned_t _ x).
- apply (A _ Signed_t); [intros x; apply get_tag_set_tag|].
  intros x pr. unfold print_body. now rewrite (B Signed_t _ x).
- apply (A _ Null_t); [intros x; apply get_tag_set_tag|].
  intros x pr. unfold print_body.
  now rewrite get_tag_set_tag, tag_of_code_tag_code.
- apply (A _ Boolean_t); [intros x; apply get_tag_set_tag|].
  intros x pr. unfold print_body. now rewrite (B Boolean_t _ x).
- apply (A _ Boolean_t); [intros x; apply get_tag_set_tag|].
  intros x pr. unfold print_body. now rewrite (B Boolean_t _ x).
Qed.

Lemma scalars_print_back_witness :
  exists s,
    parse (H := ExampleHost.host) (terminated [102; 97; 108; 115; 101]) 1
          (ExampleHost.fresh_pool 1) ExampleHost.fresh_lexer 5
    = Done (Some 0%nat, s)
    /\ print (terminated [102; 97; 108; 115; 101]) 1 (pool s) (Some 0%nat)
       = Done [Text " false "].
Proof.
destruct (scalars_print_back (H := ExampleHost.host)
            (terminated [102; 97; 108; 115; 101]) 1
            (ExampleHost.fresh_pool 1) ExampleHost.fresh_lexer 5)
  as (s & E & _ & P).
- apply initialise_ok; vm_compute; [split|]; discriminate.
- reflexivity.
- lia.
- vm_compute. reflexivity.
- exists s. split; [exact E|].
  assert (T : fst (Lexer.get_token (H := ExampleHost.host)
                     (terminated [102; 97; 108; 115; 101])
                     (Lexer.set_length 5
                        (Lexer.set_src 0 ExampleHost.fresh_lexer)))
              = False_token) by (vm_compute; reflexivity).
  specialize (P 0%nat). rewrite T in P. exact P.
Defined.

(** ** A string literal, byte for byte *)

Section StringLiteral.
Context `{Host}.

Lemma map_nth_seq (bytes : list Z) (d : Z) :
  map (fun i => nth i bytes d) (seq 0 (List.length bytes)) = bytes.
Proof.
induction bytes as [|b bytes IH]; [reflexivity|].
cbn [List.length seq map nth]. f_equal.
rewrite <- seq_shift, map_map. exact IH.
Qed.

Lemma buffer_inside bytes behind (j : nat) :
  (j < List.length bytes)%nat ->
  buffer bytes behind (Z.of_nat j) = nth j bytes 0.
Proof.
intros J. unfold buffer.
destruct (0 <=? Z.of_nat j) eqn:A; [|lia].
destruct (Z.of_nat j <? Z.of_nat (List.length bytes)) eqn:B; [|lia].
cbn [andb]. now rewrite Nat2Z.id.
Qed.

(** get_string on a text that has its closing quote. *)
Lemma get_string_found mem l (k : nat) :
  Z.of_nat k < Lexer.length l - 1 ->
  (forall j, 0 <= j < Z.of_nat k -> mem (Lexer.src l + 1 + j) <> 34) ->
  mem (Lexer.src l + 1 + Z.of_nat k) = 34 ->
  fst (Lexer.get_string mem l) = String_token
  /\ Lexer.token_src (snd (Lexer.get_string mem l)) = Lexer.src l + 1
  /\ Lexer.token_len (snd (Lexer.get_string mem l)) = Z.of_nat k
  /\ Lexer.src (snd (Lexer.get_string mem l)) = Lexer.src l + Z.of_nat k + 2.
Proof.
intros K Before At. unfold Lexer.get_string.
assert (P : 0 < Lexer.length l) by lia.
pose proof (next_byte_spec l P) as (S1 & L1 & _).
destruct (get_string_loop_found mem k
            (Z.to_nat (Lexer.length
               (Lexer.set_token_len 0
                  (Lexer.set_token_src (Lexer.src (Lexer.next_byte l))
                     (Lexer.next_byte l)))))
            (Lexer.set_token_len 0
               (Lexer.set_token_src (Lexer.src (Lexer.next_byte l))
                  (Lexer.next_byte l)))) as (T & M).
- cbn [Lexer.length Lexer.set_token_len Lexer.set_token_src]. lia.
- cbn [Lexer.length Lexer.set_token_len Lexer.set_token_src]. lia.
- cbn [Lexer.src Lexer.set_token_len Lexer.set_token_src].
  rewrite S1. exact Before.
- cbn [Lexer.src Lexer.set_token_len Lexer.set_token_src].
  rewrite S1. exact At.
- split; [exact T|]. destruct M as (Sr & _ & _ & _ & Ts & Tl & _).
  rewrite Ts, Tl, Sr.
  cbn [Lexer.token_src Lexer.token_len Lexer.src Lexer.set_token_len
         Lexer.set_token_src].
  repeat split; lia.
Qed.

(** get_token with the cursor on a quote is get_string. *)
Lemma get_token_quote mem l :
  0 < Lexer.length l -> mem (Lexer.src l) = 34 ->
  Lexer.get_token mem l
  = Lexer.get_string mem
      (Lexer.set_reads ((Lexer.src l + 0) :: Lexer.reads l) l).
Proof.
intros P Q. unfold Lexer.get_token, Lexer.peek_byte, Lexer.deref.
destruct (0 <? Lexer.length l) eqn:E; [|lia].
rewrite Z.add_0_r, Q.
destruct (Z.to_nat (Lexer.length (Lexer.set_reads (Lexer.src l :: Lexer.reads l) l)));
  reflexivity.
Qed.

End StringLiteral.

(** X10.  A string literal goes through parse and print byte for byte:
    for any bytes without a double quote, fewer than 2^28 of them, put
    between two double quotes, parse reads all of the text and print on
    the result emits a quote, those bytes and a quote.  Backslashes and
    control bytes are neither interpreted on the way in nor escaped on
    the way out. *)
Theorem string_literal_round_trip `{Host} (bytes : list Z) (behind : Z -> Z)
    (fuel : nat) (p : Pool) (l : Lexer.t) :
  pool_ok p -> room p = true -> (1 <= fuel)%nat ->
  Forall (fun b => b <> 34) bytes ->
  Z.of_nat (List.length bytes) < 2 ^ 28 ->
  let text := 34 :: bytes ++ [34] in
  exists s,
    parse (buffer text behind) fuel p l (Z.of_nat (List.length text))
    = Done (Some (Z.to_nat (json_pool_size p)), s)
    /\ Lexer.src (lexer s) = Z.of_nat (List.length text)
    /\ forall n,
         print (buffer text behind) (S n) (pool s)
               (Some (Z.to_nat (json_pool_size p)))
         = Done ([Char 34] ++ map Char bytes ++ [Char 34]).
Proof.
intros OK R F NoQ Short text.
set (mem := buffer text behind).
set (k := List.length bytes).
assert (Len : List.length text = S (S k)).
{ subst text k. cbn [List.length]. rewrite length_app. cbn [List.length]. lia. }
set (l0 := Lexer.set_length (Z.of_nat (List.length text)) (Lexer.set_src 0 l)).
assert (Inner : forall j : nat, (j < k)%nat ->
          mem (1 + Z.of_nat j) = nth j bytes 0 /\ nth j bytes 0 <> 34).
{ intros j J. subst mem.
  replace (1 + Z.of_nat j) with (Z.of_nat (S j)) by lia.
  rewrite buffer_inside by lia. subst text. cbn [nth].
  rewrite app_nth1 by exact J. split; [reflexivity|].
  exact (proj1 (Forall_nth _ 0 bytes) NoQ j J). }
assert (Q0 : mem (Lexer.src l0) = 34).
{ subst mem l0. cbn [Lexer.src Lexer.set_length Lexer.set_src].
  exact (buffer_inside text behind 0 ltac:(lia)). }
assert (Qk : mem (1 + Z.of_nat k) = 34).
{ subst mem. replace (1 + Z.of_nat k) with (Z.of_nat (S k)) by lia.
  rewrite buffer_inside by lia. subst text. cbn [nth].
  rewrite app_nth2 by (subst k; lia). subst k. now rewrite Nat.sub_diag. }
assert (P0 : 0 < Lexer.length l0)
  by (subst l0; cbn [Lexer.length Lexer.set_length]; lia).
pose proof (get_token_quote mem l0 P0 Q0) as G.
destruct (get_string_found mem
            (Lexer.set_reads ((Lexer.src l0 + 0) :: Lexer.reads l0) l0) k)
  as (T & Ts & Tl & Sr).
{ subst l0. cbn [Lexer.length Lexer.set_length Lexer.set_reads]. lia. }
{ subst l0. cbn [Lexer.src Lexer.set_length Lexer.set_src Lexer.set_reads].
  intros j J. replace (0 + 1 + j) with (1 + Z.of_nat (Z.to_nat j)) by lia.
  destruct (Inner (Z.to_nat j) ltac:(lia)) as (E & N). now rewrite E. }
{ subst l0. cbn [Lexer.src Lexer.set_length Lexer.set_src Lexer.set_reads].
  exact Qk. }
rewrite <- G in T, Ts, Tl, Sr.
destruct fuel as [|f]; [lia|]. unfold parse. rewrite parse_private_S.
unfold parse_private_body, switch_then, lex. cbn [lexer pool]. fold l0.
destruct (Lexer.get_token mem l0) as [tok l1].
cbn [fst snd] in T, Ts, Tl, Sr. subst tok.
cbn [Lexer.src Lexer.set_reads] in Ts, Sr.
unfold parse_private_switch, new_string. cbn [lexer]. rewrite Ts, Tl.
destruct (scalar_case mem
            (fun x => set_str_length (Z.of_nat k)
                        (set_variant (U_str (Lexer.src l0 + 1))
                           (set_tag String_t x)))
            String_t p l1
            (print_string mem (Lexer.src l0 + 1) (Z.of_nat k)) OK R)
  as (s & E & L & P).
{ intros x. rewrite get_tag_set_str_length_any. apply get_tag_set_tag. }
{ intros x pr. unfold print_body. rewrite get_tag_set_str_length_any.
  change (get_tag (set_variant (U_str (Lexer.src l0 + 1))
                     (set_tag String_t (fresh x))))
    with (get_tag (set_tag String_t (fresh x))).
  rewrite get_tag_set_tag, tag_of_code_tag_code.
  rewrite get_str_length_set_str_length_any.
  rewrite Z.mod_small by (subst k; lia). reflexivity. }
rewrite E. cbn [mbind result_bind].
exists s. split; [reflexivity|]. split.
{ rewrite L, Sr. subst l0.
  cbn [Lexer.src Lexer.set_length Lexer.set_src Lexer.set_reads]. lia. }
intros n. rewrite (P n).
unfold print_string. rewrite Nat2Z.id. f_equal. f_equal.
apply (f_equal (fun o => o ++ [Char 34])).
subst l0. cbn [Lexer.src Lexer.set_length Lexer.set_src Lexer.set_reads].
transitivity (map Char (map (fun i => nth i bytes 0) (seq 0 k)));
  [|subst k; now rewrite (map_nth_seq bytes 0)].
rewrite map_map.
apply map_ext_in. intros j J. apply in_seq in J.
replace (0 + 1 + Z.of_nat j) with (1 + Z.of_nat j) by lia.
destruct (Inner j ltac:(subst k; lia)) as (E' & _). now rewrite E'.
Qed.

Lemma string_literal_round_trip_witness :
  exists s,
    parse (H := ExampleHost.host) (buffer [34; 97; 92; 110; 34] (fun _ => 0))
          1 (ExampleHost.fresh_pool 1) ExampleHost.fresh_lexer 5
    = Done (Some 0%nat, s)
    /\ print (buffer [34; 97; 92; 110; 34] (fun _ => 0)) 1 (pool s)
             (Some 0%nat)
       = Done [Char 34; Char 97; Char 92; Char 110; Char 34].
Proof.
destruct (string_literal_round_trip (H := ExampleHost.host) [97; 92; 110]
            (fun _ => 0) 1 (ExampleHost.fresh_pool 1) ExampleHost.fresh_lexer)
  as (s & E & _ & P).
- apply initialise_ok; vm_compute; [split|]; discriminate.
- reflexivity.
- lia.
- repeat constructor; discriminate.
- reflexivity.
- exists s. split; [exact E | exact (P 0%nat)].
Defined.

(** ** Integer literals *)

Section IntegerLiterals.
Context `{Host}.
Variable mem : Z -> Z.

Lemma isdigit_range c : isdigit c = true -> 48 <= c <= 57.
Proof. unfold isdigit. intros D. apply andb_true_iff in D. lia. Qed.

Lemma isdigit_256 : isdigit 256 = false.
Proof. reflexivity. Qed.

Lemma current_moved k l l' :
  moved k l l' ->
  current mem l'
  = if k <? Lexer.length l then mem (Lexer.src l + k) else 256.
Proof.
intros (S & L & _). unfold current. rewrite S, L.
destruct (0 <? Lexer.length l - k) eqn:A, (k <? Lexer.length l) eqn:B;
  first [reflexivity | lia].
Qed.

(** The digit loop on a run of exactly [k] digits. *)
Lemma while_isdigit_run (k : nat) : forall n count c l,
  (k <= n)%nat ->
  c = current mem l ->
  (forall j, 0 <= j < Z.of_nat k ->
             isdigit (mem (Lexer.src l + j)) = true) ->
  Z.of_nat k <= Lexer.length l ->
  isdigit (if Z.of_nat k <? Lexer.length l
           then mem (Lexer.src l + Z.of_nat k) else 256) = false ->
  fst (fst (Lexer.while_isdigit mem n count c l)) = count + Z.of_nat k
  /\ snd (fst (Lexer.while_isdigit mem n count c l))
     = current mem (snd (Lexer.while_isdigit mem n count c l))
  /\ moved (Z.of_nat k) l (snd (Lexer.while_isdigit mem n count c l)).
Proof.
induction k as [|k IH]; intros n count c l N C D B E.
- assert (W : isdigit c = false).
  { rewrite C. unfold current. change (Z.of_nat 0) with 0 in E.
    now rewrite Z.add_0_r in E. }
  assert (R : Lexer.while_isdigit mem n count c l = (count, c, l))
    by (destruct n; simpl; now rewrite W).
  rewrite R. cbn [fst snd]. split; [simpl; lia|].
  split; [exact C | apply moved_refl].
- destruct n as [|n]; [lia|].
  assert (P : 0 < Lexer.length l) by lia.
  assert (W : isdigit c = true).
  { rewrite C. unfold current. destruct (0 <? Lexer.length l) eqn:Q; [|lia].
    specialize (D 0 ltac:(lia)). now rewrite Z.add_0_r in D. }
  simpl. rewrite W.
  destruct (peek_byte_spec mem (Lexer.next_byte l)) as (C1 & M1).
  destruct (Lexer.peek_byte mem (Lexer.next_byte l)) as [c1 l1].
  cbn [fst snd] in C1, M1.
  pose proof (next_byte_spec l P) as M0.
  pose proof (moved_trans _ _ _ _ _ M0 M1) as M.
  assert (C1' : c1 = current mem l1).
  { rewrite C1. unfold current.
    destruct M1 as (S1 & L1 & _). rewrite S1, L1, Z.add_0_r, Z.sub_0_r.
    reflexivity. }
  assert (S1 : Lexer.src l1 = Lexer.src l + 1)
    by (destruct M as (S & _); lia).
  assert (L1 : Lexer.length l1 = Lexer.length l - 1)
    by (destruct M as (_ & L & _); lia).
  destruct (IH n (count + 1) c1 l1) as (Dk & Ck & Mk).
  + lia.
  + exact C1'.
  + intros j J. rewrite S1.
    replace (Lexer.src l + 1 + j) with (Lexer.src l + (j + 1)) by lia.
    apply D. lia.
  + lia.
  + rewrite S1, L1.
    replace (Lexer.src l + 1 + Z.of_nat k)
      with (Lexer.src l + Z.of_nat (S k)) by lia.
    replace (Z.of_nat k <? Lexer.length l - 1)
      with (Z.of_nat (S k) <? Lexer.length l); [exact E|].
    destruct (Z.of_nat k <? Lexer.length l - 1) eqn:A,
             (Z.of_nat (S k) <? Lexer.length l) eqn:A';
      try reflexivity;
      [apply Z.ltb_lt in A; apply Z.ltb_ge in A'
      | apply Z.ltb_ge in A; apply Z.ltb_lt in A']; lia.
  + split; [lia|]. split; [exact Ck|].
    replace (Z.of_nat (S k)) with (1 + 0 + Z.of_nat k) by lia.
    exact (moved_trans _ _ _ _ _ M Mk).
Qed.

(** The digit loop on a byte that is no digit. *)
Lemma while_isdigit_stop n count c l :
  isdigit c = false -> Lexer.while_isdigit mem n count c l = (count, c, l).
Proof. intros W. destruct n; simpl; now rewrite W. Qed.

(** get_number on an optional minus sign, [k] digits and a byte that
    ends the literal. *)
Lemma get_number_integer (negative : bool) (k : nat) c l :
  c = current mem l ->
  (1 <= k)%nat ->
  (if negative then 1 else 0) + Z.of_nat k <= Lexer.length l ->
  (if negative then c = 45 else isdigit c = true) ->
  (forall j, 0 <= j < Z.of_nat k ->
     isdigit (mem (Lexer.src l + (if negative then 1 else 0) + j)) = true) ->
  forall t,
    t = (if (if negative then 1 else 0) + Z.of_nat k <? Lexer.length l
         then mem (Lexer.src l + (if negative then 1 else 0) + Z.of_nat k)
         else 256) ->
    isdigit t = false -> t <> 46 -> t <> 101 -> t <> 69 -> t <> 45 ->
    exists l2,
      moved ((if negative then 1 else 0) + Z.of_nat k)
            (Lexer.set_token_len 0 (Lexer.set_token_src (Lexer.src l) l)) l2
      /\ Lexer.get_number mem c l
         = if negative
           then (Signed_token,
                 match sscanf_d (Lexer.text_at mem (Lexer.src l)) with
                 | Some x => Lexer.set_signed_num x l2
                 | None => l2
                 end)
           else (Unsigned_token,
                 match sscanf_u (Lexer.text_at mem (Lexer.src l)) with
                 | Some x => Lexer.set_unsigned_num x l2
                 | None => l2
                 end).
Proof.
intros C K B Sg D t Et Dt T46 T101 T69 T45.
unfold Lexer.get_number. cbv zeta.
set (la := Lexer.set_token_len 0 (Lexer.set_token_src (Lexer.src l) l)).
set (s := if negative then 1 else 0) in *.
assert (S01 : 0 <= s <= 1) by (subst s; destruct negative; lia).
assert (N : (c =? 45) = negative).
{ destruct negative; [now rewrite Sg|].
  apply isdigit_range in Sg. apply Z.eqb_neq. lia. }
rewrite N.
assert (First : exists c1 l1,
          (if negative then Lexer.advance mem la else (c, la)) = (c1, l1)
          /\ c1 = current mem l1 /\ moved s la l1 /\ isdigit c1 = true).
{ destruct negative.
  - unfold Lexer.advance.
    assert (P : 0 < Lexer.length la) by (subst la s; simpl; lia).
    destruct (peek_byte_spec mem (Lexer.next_byte la)) as (C1 & M1).
    destruct (Lexer.peek_byte mem (Lexer.next_byte la)) as [c1 l1].
    cbn [fst snd] in C1, M1.
    pose proof (moved_trans _ _ _ _ _ (next_byte_spec la P) M1) as M.
    exists c1, l1. split; [reflexivity|].
    assert (C1' : c1 = current mem l1).
    { rewrite C1. unfold current. destruct M1 as (S1 & L1 & _).
      now rewrite S1, L1, Z.add_0_r, Z.sub_0_r. }
    split; [exact C1'|]. split; [exact M|].
    rewrite C1', (current_moved _ _ _ M).
    change (Lexer.length la) with (Lexer.length l).
    change (Lexer.src la) with (Lexer.src l).
    destruct (1 + 0 <? Lexer.length l) eqn:Q; [|subst s; lia].
    specialize (D 0 ltac:(lia)). subst s.
    now replace (Lexer.src l + (1 + 0)) with (Lexer.src l + 1 + 0) by lia.
  - exists c, la. split; [reflexivity|]. split; [exact C|].
    split; [apply moved_refl | exact Sg]. }
destruct First as (c1 & l1 & E1 & C1 & M1 & D1). rewrite E1.
cbv beta iota.
assert (S1 : Lexer.src l1 = Lexer.src l + s)
  by (destruct M1 as (S1 & _); exact S1).
assert (L1 : Lexer.length l1 = Lexer.length l - s)
  by (destruct M1 as (_ & L1 & _); exact L1).
assert (Q46 : (c1 =? 46) = false)
  by (apply isdigit_range in D1; apply Z.eqb_neq; lia).
rewrite Q46. cbv beta iota.
destruct (while_isdigit_run k (Z.to_nat (Lexer.length l1)) 0 c1 l1)
  as (Dk & Ck & Mk).
{ lia. }
{ exact C1. }
{ intros j J. rewrite S1. now apply D. }
{ lia. }
{ rewrite S1, L1.
  replace (Z.of_nat k <? Lexer.length l - s)
    with (s + Z.of_nat k <? Lexer.length l); [now rewrite <- Et|].
  destruct (Z.of_nat k <? Lexer.length l - s) eqn:A,
           (s + Z.of_nat k <? Lexer.length l) eqn:A';
    try reflexivity;
    [apply Z.ltb_lt in A; apply Z.ltb_ge in A'
    | apply Z.ltb_ge in A; apply Z.ltb_lt in A']; lia. }
destruct (Lexer.while_isdigit mem (Z.to_nat (Lexer.length l1)) 0 c1 l1)
  as [[d c2] l2]. cbn [fst snd] in Dk, Ck, Mk. cbv beta iota.
assert (E2 : c2 = t).
{ rewrite Ck, (current_moved _ _ _ Mk), S1, L1, Et.
  replace (Z.of_nat k <? Lexer.length l - s)
    with (s + Z.of_nat k <? Lexer.length l); [reflexivity|].
  destruct (Z.of_nat k <? Lexer.length l - s) eqn:A,
           (s + Z.of_nat k <? Lexer.length l) eqn:A';
    try reflexivity;
    [apply Z.ltb_lt in A; apply Z.ltb_ge in A'
    | apply Z.ltb_ge in A; apply Z.ltb_lt in A']; lia. }
clear Ck. clearbody s. subst c2 d.
rewrite (proj2 (Z.eqb_neq t 46) T46). cbv beta iota.
rewrite (while_isdigit_stop _ _ _ _ Dt). cbv beta iota.
rewrite (proj2 (Z.eqb_neq t 101) T101), (proj2 (Z.eqb_neq t 69) T69).
cbn [orb]. cbv beta iota.
rewrite (proj2 (Z.eqb_neq t 45) T45). cbv beta iota.
rewrite (while_isdigit_stop _ _ _ _ Dt). cbv beta iota.
unfold Lexer.get_number_result.
rewrite Z.lor_0_r, Z.add_0_l.
rewrite (proj2 (Z.eqb_neq (Z.of_nat k) 0)) by lia.
assert (Ts : Lexer.token_src l2 = Lexer.src l).
{ destruct M1 as (_ & _ & _ & _ & T1 & _).
  destruct Mk as (_ & _ & _ & _ & T2 & _). rewrite T2, T1. reflexivity. }
rewrite Ts. exists l2. split; [exact (moved_trans _ _ _ _ _ M1 Mk)|].
destruct negative; reflexivity.
Qed.

(** get_token with the cursor on a minus sign or a digit is get_number. *)
Lemma get_token_number l :
  0 < Lexer.length l ->
  mem (Lexer.src l) = 45 \/ isdigit (mem (Lexer.src l)) = true ->
  Lexer.get_token mem l
  = Lexer.get_number mem (mem (Lexer.src l))
      (Lexer.set_reads ((Lexer.src l + 0) :: Lexer.reads l) l).
Proof.
intros P Q. unfold Lexer.get_token, Lexer.peek_byte, Lexer.deref.
destruct (0 <? Lexer.length l) eqn:E; [|lia].
rewrite Z.add_0_r.
assert (R : mem (Lexer.src l) = 45 \/ 48 <= mem (Lexer.src l) <= 57)
  by (destruct Q as [Q|Q]; [now left | right; now apply isdigit_range]).
set (c := mem (Lexer.src l)) in *.
assert (W : isspace c = false).
{ unfold isspace. apply orb_false_iff. split; [apply Z.eqb_neq; lia|].
  apply andb_false_iff. right. apply Z.leb_gt. lia. }
assert (Wh : forall n l0, Lexer.while_isspace mem n c l0 = (c, l0))
  by (intros n l0; destruct n; simpl; now rewrite W).
rewrite Wh.
rewrite (proj2 (Z.eqb_neq c 58)), (proj2 (Z.eqb_neq c 44)),
  (proj2 (Z.eqb_neq c 123)), (proj2 (Z.eqb_neq c 125)),
  (proj2 (Z.eqb_neq c 91)), (proj2 (Z.eqb_neq c 93)),
  (proj2 (Z.eqb_neq c 34)) by lia.
assert (G : (c =? 45) || (c =? 46) || isdigit c = true).
{ destruct Q as [Q|Q]; [now rewrite Q | rewrite Q; apply orb_true_r]. }
now rewrite G.
Qed.

End IntegerLiterals.

(** X11.  An integer literal is one token: with the cursor on k >= 1
    decimal digits, or on a minus sign followed by them, and behind them
    the end of the input or a byte other than a digit, a point, e, E or a
    minus sign, get_token returns Unsigned, or Signed after a minus sign,
    moves the cursor behind the last digit, makes the token start at the
    first byte of the literal with the token length left at 0, and stores
    what sscanf reads at the token start (nothing if sscanf reads
    nothing). *)
Theorem integer_literals `{Host} (mem : Z -> Z) (l : Lexer.t)
    (negative : bool) (k : nat) (t : Z) :
  let sign := if negative then 1 else 0 in
  (1 <= k)%nat ->
  sign + Z.of_nat k <= Lexer.length l ->
  (negative = true -> mem (Lexer.src l) = 45) ->
  (forall j, 0 <= j < Z.of_nat k ->
             isdigit (mem (Lexer.src l + sign + j)) = true) ->
  t = (if sign + Z.of_nat k <? Lexer.length l
       then mem (Lexer.src l + sign + Z.of_nat k) else 256) ->
  isdigit t = false -> t <> 46 -> t <> 101 -> t <> 69 -> t <> 45 ->
  let r := Lexer.get_token mem l in
  fst r = (if negative then Signed_token else Unsigned_token)
  /\ Lexer.src (snd r) = Lexer.src l + sign + Z.of_nat k
  /\ Lexer.length (snd r) = Lexer.length l - sign - Z.of_nat k
  /\ Lexer.token_src (snd r) = Lexer.src l
  /\ Lexer.token_len (snd r) = 0
  /\ (if negative
      then Lexer.signed_num (snd r)
           = match sscanf_d (Lexer.text_at mem (Lexer.src l)) with
             | Some x => x
             | None => Lexer.signed_num l
             end
      else Lexer.unsigned_num (snd r)
           = match sscanf_u (Lexer.text_at mem (Lexer.src l)) with
             | Some x => x
             | None => Lexer.unsigned_num l
             end).
Proof.
intros sign K B Sg D Et Dt T46 T101 T69 T45 r. subst r.
assert (P : 0 < Lexer.length l) by (subst sign; destruct negative; lia).
assert (Q : mem (Lexer.src l) = 45 \/ isdigit (mem (Lexer.src l)) = true).
{ destruct negative; [left; now apply Sg | right].
  specialize (D 0 ltac:(lia)). subst sign. now rewrite !Z.add_0_r in D. }
rewrite (get_token_number mem l P Q).
destruct (get_number_integer mem negative k (mem (Lexer.src l))
            (Lexer.set_reads ((Lexer.src l + 0) :: Lexer.reads l) l))
  with (t := t) as (l2 & M & E); try assumption.
- unfold current. cbn [Lexer.length Lexer.src Lexer.set_reads].
  destruct (0 <? Lexer.length l) eqn:A; [reflexivity | lia].
- destruct negative; [now apply Sg|].
  destruct Q as [Q|Q]; [|exact Q].
  specialize (D 0 ltac:(lia)). subst sign. now rewrite !Z.add_0_r in D.
- cbn [Lexer.src Lexer.set_reads] in E. rewrite E.
  destruct M as (S2 & L2 & _ & _ & Ts & Tl & Un & Sn & _).
  cbn [Lexer.src Lexer.length Lexer.token_src Lexer.token_len
         Lexer.unsigned_num Lexer.signed_num
         Lexer.set_reads Lexer.set_token_len Lexer.set_token_src]
    in S2, L2, Ts, Tl, Un, Sn.
  fold sign in S2, L2.
  destruct negative; cbn [fst snd].
  + destruct (sscanf_d (Lexer.text_at mem (Lexer.src l))); cbn;
      repeat split; first [assumption | lia | reflexivity].
  + destruct (sscanf_u (Lexer.text_at mem (Lexer.src l))); cbn;
      repeat split; first [assumption | lia | reflexivity].
Qed.

Lemma integer_literals_witness :
  let r := Lexer.get_token (H := ExampleHost.host) (terminated [45; 52; 50; 44])
             (Lexer.set_length 4 ExampleHost.fresh_lexer) in
  fst r = Signed_token
  /\ Lexer.src (snd r) = 3
  /\ Lexer.token_len (snd r) = 0
  /\ Lexer.signed_num (snd r) = -42.
Proof.
intros r.
destruct (integer_literals (H := ExampleHost.host) (terminated [45; 52; 50; 44])
            (Lexer.set_length 4 ExampleHost.fresh_lexer) true 2 44)
  as (T & S & _ & _ & Tl & Sn).
- lia.
- cbn. lia.
- intros _. reflexivity.
- intros j J. assert (j = 0 \/ j = 1) as [-> | ->] by lia; reflexivity.
- reflexivity.
- reflexivity.
- discriminate.
- discriminate.
- discriminate.
- discriminate.
- subst r. split; [exact T|]. split; [exact S|]. split; [exact Tl|].
  rewrite Sn. reflexivity.
Defined.

(** ** The fields a token writes *)

Section LexerWrites.
Context `{Host}.
Variable mem : Z -> Z.

Lemma nums_kept_refl l : nums_kept l l.
Proof. now repeat split. Qed.

Lemma nums_kept_trans l1 l2 l3 :
  nums_kept l1 l2 -> nums_kept l2 l3 -> nums_kept l1 l3.
Proof.
intros (?&?&?&?&?) (?&?&?&?&?). repeat split; congruence.
Qed.

Lemma untouched_refl l : untouched l l.
Proof. split; [apply nums_kept_refl | now split]. Qed.

Lemma untouched_trans l1 l2 l3 :
  untouched l1 l2 -> untouched l2 l3 -> untouched l1 l3.
Proof.
intros (N1 & ? & ?) (N2 & ? & ?).
split; [exact (nums_kept_trans _ _ _ N1 N2)|]. split; congruence.
Qed.

Lemma next_byte_untouched l : untouched l (Lexer.next_byte l).
Proof.
unfold Lexer.next_byte. destruct (0 <? Lexer.length l);
  [now repeat split | apply untouched_refl].
Qed.

Lemma peek_byte_untouched l : untouched l (snd (Lexer.peek_byte mem l)).
Proof.
unfold Lexer.peek_byte, Lexer.deref. destruct (0 <? Lexer.length l);
  [now repeat split | apply untouched_refl].
Qed.

Lemma advance_untouched l : untouched l (snd (Lexer.advance mem l)).
Proof.
unfold Lexer.advance.
exact (untouched_trans _ _ _ (next_byte_untouched l)
         (peek_byte_untouched (Lexer.next_byte l))).
Qed.

Lemma maybe_advance_untouched (b : bool) c l :
  untouched l (snd (if b then Lexer.advance mem l else (c, l))).
Proof. destruct b; [apply advance_untouched | apply untouched_refl]. Qed.

Lemma while_isspace_untouched n : forall c l,
  untouched l (snd (Lexer.while_isspace mem n c l)).
Proof.
induction n as [|n IH]; intros c l; simpl.
- destruct (isspace c); apply untouched_refl.
- destruct (isspace c); [|apply untouched_refl].
  pose proof (advance_untouched l) as U. unfold Lexer.advance in U.
  destruct (Lexer.peek_byte mem (Lexer.next_byte l)) as [c1 l1].
  exact (untouched_trans _ _ _ U (IH c1 l1)).
Qed.

Lemma while_isdigit_untouched n : forall count c l,
  untouched l (snd (Lexer.while_isdigit mem n count c l)).
Proof.
induction n as [|n IH]; intros count c l; simpl.
- destruct (isdigit c); apply untouched_refl.
- destruct (isdigit c); [|apply untouched_refl].
  pose proof (advance_untouched l) as U. unfold Lexer.advance in U.
  destruct (Lexer.peek_byte mem (Lexer.next_byte l)) as [c1 l1].
  exact (untouched_trans _ _ _ U (IH (count + 1) c1 l1)).
Qed.

Lemma rest_is_untouched chars : forall i l,
  untouched l (snd (Lexer.rest_is mem i chars l)).
Proof.
induction chars as [|ch chars IH]; intros i l; [apply untouched_refl|].
cbn [Lexer.rest_is]. unfold Lexer.byte_is, Lexer.deref.
destruct (mem (Lexer.src l + i) =? ch).
- eapply untouched_trans; [|apply IH]. now repeat split.
- now repeat split.
Qed.

Lemma keyword_untouched n chars tok l :
  untouched l (snd (Lexer.keyword mem n chars tok l)).
Proof.
unfold Lexer.keyword. destruct (n <=? Lexer.length l); [|apply untouched_refl].
pose proof (rest_is_untouched chars 1 l) as U.
destruct (Lexer.rest_is mem 1 chars l) as [b l1]. cbn [snd] in U.
destruct b; [|exact U].
eapply untouched_trans; [exact U|]. now repeat split.
Qed.

Lemma keyword_token n chars tok l :
  fst (Lexer.keyword mem n chars tok l) = tok
  \/ fst (Lexer.keyword mem n chars tok l) = Error_token.
Proof.
unfold Lexer.keyword. destruct (n <=? Lexer.length l); [|now right].
destruct (Lexer.rest_is mem 1 chars l) as [[] l1]; [now left | now right].
Qed.

Lemma get_string_loop_nums n : forall l,
  nums_kept l (snd (Lexer.get_string_loop mem n l)).
Proof.
induction n as [|n IH]; intros l; simpl; [apply nums_kept_refl|].
destruct (0 <? Lexer.length l); [|apply nums_kept_refl].
destruct (mem (Lexer.src l + 0) =? 34); [now repeat split|].
eapply nums_kept_trans; [|apply IH]. now repeat split.
Qed.

Lemma get_string_nums l : nums_kept l (snd (Lexer.get_string mem l)).
Proof.
unfold Lexer.get_string.
eapply nums_kept_trans; [|apply get_string_loop_nums].
destruct (next_byte_untouched l) as (N & _).
eapply nums_kept_trans; [exact N|]. now repeat split.
Qed.

Lemma get_string_token l :
  fst (Lexer.get_string mem l) = String_token
  \/ fst (Lexer.get_string mem l) = Error_token.
Proof. unfold Lexer.get_string. apply get_string_loop_token. Qed.

Lemma get_number_token c l :
  number_or_error (fst (Lexer.get_number mem c l)) = true.
Proof.
unfold Lexer.get_number. cbv zeta.
repeat match goal with
       | |- context [match ?e with (_, _) => _ end] => destruct e
       end.
repeat match goal with
       | |- context [if ?b then _ else _] => destruct b
       end;
  try reflexivity;
  repeat match goal with
         | |- context [match ?e with (_, _) => _ end] => destruct e
         end;
  unfold Lexer.get_number_result;
  repeat match goal with
         | |- context [if ?b then _ else _] => destruct b
         end; reflexivity.
Qed.

(** The end of get_number writes the one number its token names. *)
Lemma get_number_result_writes negative real d e l0 l :
  nums_kept l0 l -> Lexer.token_len l = 0 ->
  token_writes (fst (Lexer.get_number_result mem negative real d e l)) l0
               (snd (Lexer.get_number_result mem negative real d e l)).
Proof.
intros (Tb & Sc & Un & Sn & Fn) Tl. unfold Lexer.get_number_result.
destruct (Z.lor d e =? 0); [now repeat split|].
destruct real.
{ destruct (sscanf_f _); cbn [fst snd];
    (split; [exact Tb|]); (split; [exact Sc|]);
    (split; [intros _; exact Un|]); (split; [intros _; exact Sn|]);
    (split; [intros N; now elim N | exact Tl]). }
destruct negative.
{ destruct (sscanf_d _); cbn [fst snd];
    (split; [exact Tb|]); (split; [exact Sc|]);
    (split; [intros _; exact Un|]);
    (split; [intros N; now elim N|]);
    (split; [intros _; exact Fn | exact Tl]). }
destruct (sscanf_u _); cbn [fst snd];
  (split; [exact Tb|]); (split; [exact Sc|]);
  (split; [intros N; now elim N|]);
  (split; [intros _; exact Sn|]);
  (split; [intros _; exact Fn | exact Tl]).
Qed.

(** One binding of get_number keeps the numbers and the token length. *)
Ltac fields_step I :=
  match goal with
  | |- context [if ?b then Lexer.advance ?m ?lx else (?c, ?lx)] =>
      let J := fresh "J" in
      pose proof (maybe_advance_untouched b c lx) as J;
      destruct (if b then Lexer.advance m lx else (c, lx)) as [? ?];
      cbn [snd] in J;
      apply (untouched_trans _ _ _ I) in J; clear I; rename J into I
  | |- context [Lexer.while_isdigit ?m ?n ?count ?c ?lx] =>
      let J := fresh "J" in
      pose proof (while_isdigit_untouched n count c lx) as J;
      destruct (Lexer.while_isdigit m n count c lx) as [[? ?] ?];
      cbn [snd] in J;
      apply (untouched_trans _ _ _ I) in J; clear I; rename J into I
  | |- context [Lexer.advance ?m ?lx] =>
      let J := fresh "J" in
      pose proof (advance_untouched lx) as J;
      destruct (Lexer.advance m lx) as [? ?];
      cbn [snd] in J;
      apply (untouched_trans _ _ _ I) in J; clear I; rename J into I
  end.

Lemma get_number_writes c l :
  token_writes (fst (Lexer.get_number mem c l)) l
               (snd (Lexer.get_number mem c l)).
Proof.
unfold Lexer.get_number.
assert (N0 : nums_kept l (Lexer.set_token_len 0
                            (Lexer.set_token_src (Lexer.src l) l)))
  by now repeat split.
assert (Fin : forall negative real d e l1,
          untouched (Lexer.set_token_len 0
                       (Lexer.set_token_src (Lexer.src l) l)) l1 ->
          token_writes
            (fst (Lexer.get_number_result mem negative real d e l1)) l
            (snd (Lexer.get_number_result mem negative real d e l1))).
{ intros negative real d e l1 (N1 & _ & Tl).
  apply get_number_result_writes;
    [exact (nums_kept_trans _ _ _ N0 N1) | exact Tl]. }
pose proof (untouched_refl (Lexer.set_token_len 0
                              (Lexer.set_token_src (Lexer.src l) l))) as I.
cbv zeta.
do 5 fields_step I.
match goal with
| |- context [if ?b then _ else _] => destruct b
end.
- match goal with
  | |- context [if ?b then _ else _] => destruct b
  end.
  + destruct I as (N1 & _). cbn [fst snd].
    destruct (nums_kept_trans _ _ _ N0 N1) as (?&?&?&?&?). now repeat split.
  + do 3 fields_step I. now apply Fin.
- do 2 fields_step I. now apply Fin.
Qed.

(** The end of get_number stores what sscanf finds at the token start. *)
Lemma get_number_result_scans negative real d e l0 l :
  nums_kept l0 l ->
  Lexer.src l0 <= Lexer.token_src l < Lexer.src l0 + Lexer.length l0 ->
  number_scanned mem
    (fst (Lexer.get_number_result mem negative real d e l)) l0
    (snd (Lexer.get_number_result mem negative real d e l)).
Proof.
intros (_ & _ & Un & Sn & Fn) B. unfold Lexer.get_number_result.
destruct (Z.lor d e =? 0); [exact I|].
destruct real.
{ cbn [fst snd number_scanned].
  destruct (sscanf_f (Lexer.text_at mem (Lexer.token_src l))) eqn:E;
    cbn [Lexer.token_src Lexer.set_float_num Lexer.float_num];
    rewrite E; cbn [default]; split; [exact B | reflexivity | exact B |].
  exact Fn. }
destruct negative.
{ cbn [fst snd number_scanned].
  destruct (sscanf_d (Lexer.text_at mem (Lexer.token_src l))) eqn:E;
    cbn [Lexer.token_src Lexer.set_signed_num Lexer.signed_num];
    rewrite E; cbn [default]; split; [exact B | reflexivity | exact B |].
  exact Sn. }
cbn [fst snd number_scanned].
destruct (sscanf_u (Lexer.text_at mem (Lexer.token_src l))) eqn:E;
  cbn [Lexer.token_src Lexer.set_unsigned_num Lexer.unsigned_num];
  rewrite E; cbn [default]; split; [exact B | reflexivity | exact B |].
exact Un.
Qed.

Lemma get_number_scans c l :
  0 < Lexer.length l ->
  number_scanned mem (fst (Lexer.get_number mem c l)) l
                 (snd (Lexer.get_number mem c l)).
Proof.
intros P. unfold Lexer.get_number.
assert (N0 : nums_kept l (Lexer.set_token_len 0
                            (Lexer.set_token_src (Lexer.src l) l)))
  by now repeat split.
assert (Fin : forall negative real d e l1,
          untouched (Lexer.set_token_len 0
                       (Lexer.set_token_src (Lexer.src l) l)) l1 ->
          number_scanned mem
            (fst (Lexer.get_number_result mem negative real d e l1)) l
            (snd (Lexer.get_number_result mem negative real d e l1))).
{ intros negative real d e l1 (N1 & Ts & _).
  apply get_number_result_scans; [exact (nums_kept_trans _ _ _ N0 N1)|].
  rewrite Ts. cbn [Lexer.token_src Lexer.set_token_len Lexer.set_token_src].
  lia. }
pose proof (untouched_refl (Lexer.set_token_len 0
                              (Lexer.set_token_src (Lexer.src l) l))) as U.
cbv zeta.
do 5 fields_step U.
match goal with
| |- context [if ?b then _ else _] => destruct b
end.
- match goal with
  | |- context [if ?b then _ else _] => destruct b
  end.
  + exact I.
  + do 3 fields_step U. now apply Fin.
- do 2 fields_step U. now apply Fin.
Qed.

(** White space before a number does not change where its text starts
    with respect to the input, nor the numbers stored before. *)
Lemma get_token_scans l :
  0 <= Lexer.length l ->
  number_scanned mem (fst (Lexer.get_token mem l)) l
                 (snd (Lexer.get_token mem l)).
Proof.
intros P. unfold Lexer.get_token.
destruct (peek_byte_spec mem l) as (C0 & M0).
pose proof (peek_byte_untouched l) as U0.
destruct (Lexer.peek_byte mem l) as [c0 l0]. cbn [fst snd] in C0, M0, U0.
assert (L0 : Lexer.length l0 = Lexer.length l)
  by (destruct M0 as (_ & L & _); lia).
assert (S0 : Lexer.src l0 = Lexer.src l)
  by (destruct M0 as (S & _); lia).
assert (C0' : c0 = current mem l0)
  by (rewrite C0; unfold current; now rewrite S0, L0).
destruct (while_isspace_spec mem (Z.to_nat (Lexer.length l0)) l0 c0)
  as (k & K & _ & Mk & Ck & _); [lia | lia | exact C0' |].
pose proof (while_isspace_untouched (Z.to_nat (Lexer.length l0)) c0 l0) as U1.
destruct (Lexer.while_isspace mem (Z.to_nat (Lexer.length l0)) c0 l0)
  as [c1 l1]. cbn [fst snd] in Mk, Ck, U1.
destruct (untouched_trans _ _ _ U0 U1) as (N1 & _).
repeat match goal with
       | |- context [if ?b then (_, Lexer.next_byte l1) else _] =>
           destruct b; [exact I|]
       end.
destruct (c1 =? 34).
{ destruct (get_string_token l1) as [T|T]; rewrite T; exact I. }
destruct ((c1 =? 45) || (c1 =? 46) || isdigit c1) eqn:N.
{ assert (P1 : 0 < Lexer.length l1).
  { unfold current in Ck. destruct (0 <? Lexer.length l1) eqn:E; [lia|].
    subst c1. discriminate N. }
  pose proof (get_number_scans c1 l1 P1) as G.
  destruct Mk as (S1 & L1 & _).
  destruct N1 as (_ & _ & Un & Sn & Fn).
  destruct (fst (Lexer.get_number mem c1 l1)); try exact I;
    cbn [number_scanned] in G |- *; destruct G as (B & G);
    (split; [lia|]); rewrite G; congruence. }
assert (Kw : forall n chars tok,
          match tok with
          | Unsigned_token | Signed_token | Float_token => False
          | _ => True
          end ->
          number_scanned mem (fst (Lexer.keyword mem n chars tok l1)) l
                         (snd (Lexer.keyword mem n chars tok l1))).
{ intros n chars tok Q.
  destruct (keyword_token n chars tok l1) as [T|T]; rewrite T;
    [destruct tok; first [exact I | contradiction] | exact I]. }
unfold Lexer.get_special.
destruct (c1 =? 110); [now apply Kw|].
destruct (c1 =? 116); [now apply Kw|].
destruct (c1 =? 102); [now apply Kw|].
exact I.
Qed.

End LexerWrites.

(** X1.  The bytes that the code of get_token dereferences itself
    (src[i] in peek_byte, get_string and get_special) lie between the
    cursor and cursor plus length as they were at the call.  This does not
    bound what sscanf reads: for a number token sscanf is handed the start
    of the token, which lies inside the input, and no length, and the
    number stored is the one sscanf finds in the memory from there on,
    the bytes behind the end of the input included.  Unless the token is
    one of the three literals, the call leaves the end of the input,
    cursor plus length, where it was and does not move the cursor back;
    for a literal of n bytes found after k bytes of white space the cursor
    moves by k + n and the length becomes length - k + n instead of
    length - k - n.  end_of_array dereferences and moves inside the input
    in the same way. *)
Theorem lexer_dereferences_inside `{Host} (mem : Z -> Z) (l : Lexer.t) :
  0 <= Lexer.length l ->
  let r := Lexer.get_token mem l in
  reads_within l (snd r)
  /\ number_scanned mem (fst r) l (snd r)
  /\ match keyword_length (fst r) with
     | None => keeps_end l (snd r)
     | Some n =>
         exists k,
           0 <= k
           /\ n <= Lexer.length l - k
           /\ Lexer.src (snd r) = Lexer.src l + k + n
           /\ Lexer.length (snd r) = to_uint (Lexer.length l - k + n)
     end
  /\ inside l (snd (Lexer.end_of_array mem l)).
Proof.
intros P r. subst r.
assert (Sk : forall l0 c0,
          inside l l0 ->
          inside l (snd (Lexer.while_isspace mem
                           (Z.to_nat (Lexer.length l0)) c0 l0))).
{ intros l0 c0 I. eapply inside_trans; [exact I|].
  apply while_isspace_inside. exact (inside_length _ _ I). }
pose proof (peek_byte_inside mem l P) as I0.
split; [|split; [|split]].
2: now apply get_token_scans.
- unfold Lexer.get_token.
  destruct (Lexer.peek_byte mem l) as [c0 l0]. cbn [snd] in I0.
  specialize (Sk l0 c0 I0).
  destruct (Lexer.while_isspace mem (Z.to_nat (Lexer.length l0)) c0 l0)
    as [c1 l1]. cbn [snd] in Sk.
  pose proof (inside_length _ _ Sk) as P1.
  assert (Nx : reads_within l (Lexer.next_byte l1))
    by exact (proj2 (inside_trans _ _ _ Sk (next_byte_inside l1 P1))).
  repeat match goal with
         | |- context [if ?b then _ else _] => destruct b; [exact Nx|]
         end.
  destruct (c1 =? 34);
    [exact (proj2 (inside_trans _ _ _ Sk (get_string_inside mem l1 P1)))|].
  destruct ((c1 =? 45) || (c1 =? 46) || isdigit c1);
    [exact (proj2 (inside_trans _ _ _ Sk (get_number_inside mem c1 l1 P1)))|].
  destruct Sk as ((S1 & E1 & _) & (n1 & R1 & F1)).
  assert (K : forall n chars tok,
            n = 1 + Z.of_nat (List.length chars) ->
            reads_within l (snd (Lexer.keyword mem n chars tok l1))).
  { intros n chars tok N.
    destruct (keyword_spec mem n chars tok l1 N P1) as ((n2 & R2 & F2) & _).
    exists (n2 ++ n1). split; [rewrite R2, R1; now rewrite app_assoc|].
    apply Forall_app. split; [|exact F1].
    eapply Forall_impl; [exact F2|]. simpl. intros x B. lia. }
  unfold Lexer.get_special.
  destruct (c1 =? 110); [now apply K|].
  destruct (c1 =? 116); [now apply K|].
  destruct (c1 =? 102); [now apply K|].
  exists n1. now split.
- unfold Lexer.get_token.
  destruct (Lexer.peek_byte mem l) as [c0 l0]. cbn [snd] in I0.
  specialize (Sk l0 c0 I0).
  destruct (Lexer.while_isspace mem (Z.to_nat (Lexer.length l0)) c0 l0)
    as [c1 l1]. cbn [snd] in Sk.
  pose proof (inside_length _ _ Sk) as P1.
  assert (Nx : keeps_end l (Lexer.next_byte l1))
    by exact (proj1 (inside_trans _ _ _ Sk (next_byte_inside l1 P1))).
  repeat match goal with
         | |- context [if ?b then _ else _] => destruct b; [exact Nx|]
         end.
  destruct (c1 =? 34).
  { unfold Lexer.get_string at 1. rewrite get_string_loop_kind.
    exact (proj1 (inside_trans _ _ _ Sk (get_string_inside mem l1 P1))). }
  destruct ((c1 =? 45) || (c1 =? 46) || isdigit c1).
  { rewrite get_number_kind.
    exact (proj1 (inside_trans _ _ _ Sk (get_number_inside mem c1 l1 P1))). }
  destruct Sk as ((S1 & E1 & _) & _).
  assert (K : forall n chars tok,
            n = 1 + Z.of_nat (List.length chars) ->
            keyword_length tok = Some n ->
            match keyword_length (fst (Lexer.keyword mem n chars tok l1)) with
            | Some n0 =>
                exists k : Z,
                  0 <= k /\ n0 <= Lexer.length l - k
                  /\ Lexer.src (snd (Lexer.keyword mem n chars tok l1))
                     = Lexer.src l + k + n0
                  /\ Lexer.length (snd (Lexer.keyword mem n chars tok l1))
                     = to_uint (Lexer.length l - k + n0)
            | None => keeps_end l (snd (Lexer.keyword mem n chars tok l1))
            end).
  { intros n chars tok N KL.
    destruct (keyword_spec mem n chars tok l1 N P1)
      as (_ & [(T & S & L) | (T & B & S & L)]); rewrite T.
    - cbn [keyword_length]. unfold keeps_end. lia.
    - rewrite KL. exists (Lexer.src l1 - Lexer.src l).
      split; [lia|]. split; [lia|]. split; [lia|].
      rewrite L. f_equal. lia. }
  unfold Lexer.get_special.
  destruct (c1 =? 110); [now apply K|].
  destruct (c1 =? 116); [now apply K|].
  destruct (c1 =? 102); [now apply K|].
  cbn [fst snd keyword_length]. unfold keeps_end. lia.
- unfold Lexer.end_of_array.
  destruct (Lexer.peek_byte mem l) as [c0 l0]. cbn [snd] in I0.
  specialize (Sk l0 c0 I0).
  destruct (Lexer.while_isspace mem (Z.to_nat (Lexer.length l0)) c0 l0)
    as [c1 l1]. cbn [snd] in Sk.
  now destruct (c1 =? 93).
Qed.

Lemma lexer_dereferences_inside_witness :
  (let l := Lexer.set_length 6 ExampleHost.fresh_lexer in
   let r := Lexer.get_token (H := ExampleHost.host)
              (terminated [32; 32; 110; 117; 108; 108]) l in
   reads_within l (snd r)
   /\ exists k, Lexer.src (snd r) = k + 4
                /\ Lexer.length (snd r) = to_uint (6 - k + 4))
  /\ (let l := Lexer.set_length 2 ExampleHost.fresh_lexer in
      let r := Lexer.get_token (H := ExampleHost.host)
                 (buffer [49; 50] (fun _ => 51)) l in
      reads_within l (snd r)
      /\ Lexer.reads (snd r) = [1; 0]
      /\ fst r = Unsigned_token
      /\ Lexer.unsigned_num (snd r) = 1233333333).
Proof.
split; intros l r.
- destruct (lexer_dereferences_inside (H := ExampleHost.host)
              (terminated [32; 32; 110; 117; 108; 108]) l) as (W & _ & K & _).
  + vm_compute. discriminate.
  + split; [exact W|].
    change (keyword_length (fst r)) with (Some 4) in K.
    destruct K as (k & _ & _ & S & L). exists k. split; [exact S | exact L].
- destruct (lexer_dereferences_inside (H := ExampleHost.host)
              (buffer [49; 50] (fun _ => 51)) l) as (W & N & _).
  + vm_compute. discriminate.
  + split; [exact W|]. split; [reflexivity|]. split; [reflexivity|].
    change (fst (Lexer.get_token (buffer [49; 50] (fun _ => 51)) l))
      with Unsigned_token in N.
    destruct N as (_ & N). etransitivity; [exact N | reflexivity].
Defined.

(** X12.  A call of get_token writes only the fields its token names: the
    symbol table and the symbol count never; unsigned_num, signed_num and
    float_num only when the token is Unsigned, Signed or Float; the token
    start and length are left alone by the punctuation tokens and the
    three literals; and a number token always has token length 0, so the
    bytes of a number are known by their start only. *)
Theorem get_token_writes `{Host} (mem : Z -> Z) (l : Lexer.t) :
  token_writes (fst (Lexer.get_token mem l)) l (snd (Lexer.get_token mem l)).
Proof.
unfold Lexer.get_token.
pose proof (peek_byte_untouched mem l) as U0.
destruct (Lexer.peek_byte mem l) as [c0 l0]. cbn [snd] in U0.
pose proof (while_isspace_untouched mem (Z.to_nat (Lexer.length l0)) c0 l0)
  as U1.
destruct (Lexer.while_isspace mem (Z.to_nat (Lexer.length l0)) c0 l0)
  as [c1 l1]. cbn [snd] in U1.
pose proof (untouched_trans _ _ _ U0 U1) as U.
assert (P : forall tok l2,
          untouched l1 l2 ->
          match tok with
          | String_token | Unsigned_token | Signed_token | Float_token =>
              False
          | _ => True
          end ->
          token_writes tok l l2).
{ intros tok l2 U2 K.
  destruct (untouched_trans _ _ _ U U2) as ((?&?&?&?&?) & ? & ?).
  destruct tok; try contradiction; now repeat split. }
repeat match goal with
       | |- context [if ?b then (_, Lexer.next_byte l1) else _] =>
           destruct b; [apply P; [apply next_byte_untouched | exact I]|]
       end.
destruct (c1 =? 34).
{ pose proof (get_string_nums mem l1) as N.
  destruct U as (N1 & _).
  destruct (nums_kept_trans _ _ _ N1 N) as (?&?&?&?&?).
  destruct (get_string_token mem l1) as [T|T]; rewrite T;
    now repeat split. }
destruct ((c1 =? 45) || (c1 =? 46) || isdigit c1).
{ pose proof (get_number_writes mem c1 l1) as W.
  destruct U as ((Tb & Sc & Un & Sn & Fn) & _).
  destruct W as (Tb' & Sc' & Un' & Sn' & Fn' & M).
  split; [congruence|]. split; [congruence|].
  split; [intros N; rewrite (Un' N); exact Un|].
  split; [intros N; rewrite (Sn' N); exact Sn|].
  split; [intros N; rewrite (Fn' N); exact Fn|].
  pose proof (get_number_token mem c1 l1) as K.
  destruct (fst (Lexer.get_number mem c1 l1)); try discriminate K;
    first [exact M | exact I]. }
assert (Kw : forall n chars tok,
          match tok with
          | Null_token | True_token | False_token => True
          | _ => False
          end ->
          token_writes (fst (Lexer.keyword mem n chars tok l1)) l
                       (snd (Lexer.keyword mem n chars tok l1))).
{ intros n chars tok K.
  pose proof (keyword_untouched mem n chars tok l1) as U2.
  destruct (keyword_token mem n chars tok l1) as [T|T]; rewrite T.
  - apply P; [exact U2|]. now destruct tok.
  - apply P; [exact U2 | exact I]. }
unfold Lexer.get_special.
destruct (c1 =? 110); [now apply Kw|].
destruct (c1 =? 116); [now apply Kw|].
destruct (c1 =? 102); [now apply Kw|].
apply P; [apply untouched_refl | exact I].
Qed.

(** ** What print shows of a property *)

Lemma printed_key `{Host} (s : Z) :
  to_int (- property_key s) = to_int s.
Proof.
unfold property_key. unfold_ints. Z.div_mod_to_equations. lia.
Qed.

(** X13.  print shows a property by the number of its symbol, not by its
    name: for an object holding the one property inserted under the
    symbol s, print emits the opening text, the number (int)s, the colon
    text, the output of the value and the closing text, without a comma.
    A symbol up to INT_MAX is shown as itself, a larger one as s - 2^32. *)
Theorem property_prints_its_symbol `{Host} (mem : Z -> Z) (pr : printer)
    (x : JSON) (s : Z) (v : ptr) (o : list out) :
  get_tag x = tag_code Object_t ->
  variant x = U_object [] ->
  pr v = Done o ->
  exists x',
    insert_property s v x = Done x'
    /\ print_body mem pr x'
       = Done ([Text " { "; Text "  "; Num (to_int s); Text " : "]
               ++ o ++ [Text " } "])
    /\ (0 <= s <= INT_MAX -> to_int s = s)
    /\ (INT_MAX < s <= UINT_MAX -> to_int s = s - 2 ^ UINT_BITS).
Proof.
intros T V P. rewrite (insert_property_object x [] s v T V).
eexists. split; [reflexivity|]. split.
- unfold print_body.
  change (get_tag (set_variant
                     (U_object (AvlNode.insert_key [] (property_key s) v)) x))
    with (get_tag x).
  rewrite T. change (tag_of_code (tag_code Object_t)) with (Some Object_t).
  cbv iota. unfold variant_object.
  cbn [variant set_variant AvlNode.insert_key mbind result_bind
         AvlNode.apply].
  unfold last_value. cbn [AvlNode.last map List.last mbind result_bind
                            AvlNode.apply].
  unfold print_name_value. rewrite P. cbn [mbind result_bind].
  rewrite (proj2 (ptr_eqb_eq v v) eq_refl). cbn [negb mbind result_bind].
  rewrite printed_key. rewrite <- !app_assoc. reflexivity.
- split.
  + intros R. apply to_int_small. unfold_ints. lia.
  + intros R. unfold_ints. Z.div_mod_to_equations. lia.
Qed.

Lemma property_prints_its_symbol_witness :
  print_body (H := ExampleHost.host) (terminated [])
    (fun _ => Done [Text " null "])
    (mkJSON (H := ExampleHost.host) 0 (U_object [(-5, Some 1%nat)]))
  = Done [Text " { "; Text "  "; Num 5; Text " : "; Text " null ";
          Text " } "].
Proof.
destruct (property_prints_its_symbol (H := ExampleHost.host) (terminated [])
            (fun _ => Done [Text " null "])
            (mkJSON (H := ExampleHost.host) 0 (U_object []))
            5 (Some 1%nat) [Text " null "])
  as (x' & E & P & _).
- reflexivity.
- reflexivity.
- reflexivity.
- inversion E; subst x'. exact P.
Defined.

(** ** An empty array inside an object *)



